(** * Credit-risk decision engine: the transform chain and the serving call

    A shallow embedding of [project_alpha] (cleaning.py, features.py,
    train.py, app.py) and the properties its specification states.

    Conventions of the embedding.
    - A pandas cell is a [cell]: text or a number.  A number is an [fval]:
      a finite value, one of the two infinities, or NaN (pandas' missing
      marker).  Finite values are exact rationals: binary64 rounding and
      overflow are not modelled, the special values and their arithmetic are.
    - Python text is a [string] of 8-bit characters read as the Latin-1 code
      points, where the regex class [\d] matches exactly the digits 0-9.
    - A DataFrame is an association list of named columns in insertion
      order; [X.copy()] is implicit, the functions being pure.
    - Code that can raise returns a [result]. *)

From Stdlib Require Import QArith Qround Qabs Lqa Ascii String DecimalString.
From stdpp Require Import gmap strings list fin_maps sorting.

Local Open Scope Z_scope.

(** ** Numbers *)

Module Num.

Inductive fval : Type :=
| Fin (q : Q)
| PInf
| NInf
| NaN.

Definition Qltb (x y : Q) : bool := negb (Qle_bool y x).
Definition Qsign (q : Q) : Z := Z.sgn (Qnum q).

Definition isna (x : fval) : bool :=
  match x with NaN => true | _ => false end.

Definition is_finite (x : fval) : bool :=
  match x with Fin _ => true | _ => false end.

(** Comparisons: every comparison with NaN is false. *)
Definition flt (x y : fval) : bool :=
  match x, y with
  | NaN, _ | _, NaN => false
  | Fin a, Fin b => Qltb a b
  | NInf, NInf => false
  | NInf, _ => true
  | _, NInf => false
  | PInf, _ => false
  | Fin _, PInf => true
  end.

Definition fle (x y : fval) : bool :=
  match x, y with
  | NaN, _ | _, NaN => false
  | Fin a, Fin b => Qle_bool a b
  | NInf, _ => true
  | _, NInf => false
  | _, PInf => true
  | PInf, Fin _ => false
  end.

Definition fgt (x y : fval) : bool := flt y x.
Definition fge (x y : fval) : bool := fle y x.

Definition fneg (x : fval) : fval :=
  match x with
  | Fin a => Fin (- a)
  | PInf => NInf
  | NInf => PInf
  | NaN => NaN
  end.

Definition fabs (x : fval) : fval :=
  match x with
  | Fin a => Fin (Qabs a)
  | PInf | NInf => PInf
  | NaN => NaN
  end.

Definition fadd (x y : fval) : fval :=
  match x, y with
  | NaN, _ | _, NaN => NaN
  | Fin a, Fin b => Fin (a + b)
  | PInf, NInf | NInf, PInf => NaN
  | PInf, _ | _, PInf => PInf
  | NInf, _ | _, NInf => NInf
  end.

Definition fsub (x y : fval) : fval := fadd x (fneg y).

(** The infinity whose sign is the sign [s] of a product or quotient; a
    zero sign is the invalid operation. *)
Definition signed_inf (s : Z) : fval :=
  match s with
  | Z0 => NaN
  | Zpos _ => PInf
  | Zneg _ => NInf
  end.

Definition fsign (x : fval) : Z :=
  match x with
  | Fin a => Qsign a
  | PInf => 1
  | NInf => -1
  | NaN => 0
  end.

Definition fmul (x y : fval) : fval :=
  match x, y with
  | NaN, _ | _, NaN => NaN
  | Fin a, Fin b => Fin (a * b)
  | _, _ => signed_inf (fsign x * fsign y)
  end.

(** numpy division: a finite value over zero is an infinity (zero over
    zero is NaN), a finite value over an infinity is zero. *)
Definition fdiv (x y : fval) : fval :=
  match x, y with
  | NaN, _ | _, NaN => NaN
  | Fin a, Fin b =>
      if Qeq_bool b 0 then signed_inf (Qsign a) else Fin (a / b)
  | Fin _, _ => Fin 0
  | _, Fin b => signed_inf (fsign x * (if Qeq_bool b 0 then 1 else Qsign b))
  | _, _ => NaN
  end.

Definition of_Z (z : Z) : fval := Fin (inject_Z z).

(** [Series.median()]: missing values are skipped, the rest is sorted
    (an element is placed before another when it is not above it); the
    middle element, or the mean of the two middle ones; NaN when nothing
    is left. *)
Definition not_above (x y : fval) : Prop := flt y x = false.

#[global] Instance not_above_dec : RelDecision not_above.
Proof. intros x y. unfold not_above. apply _. Defined.

Definition dropna (l : list fval) : list fval :=
  List.filter (fun x => negb (isna x)) l.

Definition median (l : list fval) : fval :=
  let s := merge_sort not_above (dropna l) in
  let n := length s in
  match n with
  | O => NaN
  | _ =>
      if Nat.even n
      then fdiv (fadd (nth (n / 2 - 1) s NaN) (nth (n / 2) s NaN)) (of_Z 2)
      else nth (n / 2) s NaN
  end.

End Num.

(** ** Text: the regex, pandas' number parser and Python's float text *)

Module Text.
Import Num.

Definition is_digit (c : ascii) : bool :=
  let n := nat_of_ascii c in ((48 <=? n) && (n <=? 57))%nat.

Definition digit_val (c : ascii) : Z := Z.of_nat (nat_of_ascii c) - 48.

Definition is_space (c : ascii) : bool :=
  let n := nat_of_ascii c in ((n =? 32) || ((9 <=? n) && (n <=? 13)))%nat.

Definition to_lower (c : ascii) : ascii :=
  let n := nat_of_ascii c in
  if ((65 <=? n) && (n <=? 90))%nat then ascii_of_nat (n + 32) else c.

Fixpoint lower (s : string) : string :=
  match s with
  | EmptyString => EmptyString
  | String c r => String (to_lower c) (lower r)
  end.

(** [re.sub(r'[^\d.-]', '', x)]: every character outside the class of
    digits, dot and minus is deleted. *)
Definition kept (c : ascii) : bool :=
  is_digit c || Ascii.eqb c "." || Ascii.eqb c "-".

Fixpoint re_sub (s : string) : string :=
  match s with
  | EmptyString => EmptyString
  | String c r => if kept c then String c (re_sub r) else re_sub r
  end.

(** pandas' [xstrtod], the scanner behind [pd.to_numeric] on text:
    blanks, a sign, digits, a dot and digits, an exponent, blanks, and
    nothing after. *)
Fixpoint skip_space (s : string) : string :=
  match s with
  | String c r => if is_space c then skip_space r else s
  | EmptyString => s
  end.

Fixpoint scan_digits (s : string) (acc : Z) (n : nat) : Z * nat * string :=
  match s with
  | String c r =>
      if is_digit c then scan_digits r (acc * 10 + digit_val c) (S n)
      else (acc, n, s)
  | EmptyString => (acc, n, s)
  end.

Definition scan_sign (s : string) : bool * string :=
  match s with
  | String c r =>
      if Ascii.eqb c "-" then (true, r)
      else if Ascii.eqb c "+" then (false, r)
      else (false, s)
  | EmptyString => (false, s)
  end.

Definition scan_fraction (s : string) (m : Z) : Z * nat * string :=
  match s with
  | String c r => if Ascii.eqb c "." then scan_digits r m 0 else (m, O, s)
  | EmptyString => (m, O, s)
  end.

(** An exponent mark followed by no digit is not consumed. *)
Definition scan_exponent (s : string) : Z * string :=
  match s with
  | String c r =>
      if Ascii.eqb (to_lower c) "e" then
        let '(neg, r1) := scan_sign r in
        let '(e, k, r2) := scan_digits r1 0 0 in
        match k with
        | O => (0, s)
        | _ => (if neg then - e else e, r2)
        end
      else (0, s)
  | EmptyString => (0, s)
  end.

Definition pow10 (e : Z) : Q :=
  if 0 <=? e then inject_Z (10 ^ e) else Qmake 1 (Z.to_pos (10 ^ (- e))).

Definition xstrtod (s : string) : option Q :=
  let '(neg, p1) := scan_sign (skip_space s) in
  let '(m1, nint, p2) := scan_digits p1 0 0 in
  let '(m, nfrac, p3) := scan_fraction p2 m1 in
  match (nint + nfrac)%nat with
  | O => None
  | _ =>
      let '(e, p4) := scan_exponent p3 in
      match skip_space p4 with
      | EmptyString =>
          Some (Qred (inject_Z (if neg then - m else m)
                      * pow10 (e - Z.of_nat nfrac)))
      | _ => None
      end
  end.

(** [floatify]: the scanner, then the spellings of infinity. *)
Definition floatify (s : string) : option fval :=
  match xstrtod s with
  | Some q => Some (Fin q)
  | None =>
      let l := lower s in
      if bool_decide (l ∈ ["inf"; "+inf"; "infinity"; "+infinity"])
      then Some PInf
      else if bool_decide (l ∈ ["-inf"; "-infinity"]) then Some NInf
      else None
  end.

(** Python's [repr] of a float, which [astype(str)] yields for a numeric
    cell: the significant digits [ds] and the position [decpt] of the
    point (the value is 0.ds x 10^decpt), laid out in fixed notation when
    -4 < decpt <= 16 and in exponent notation otherwise.  The digits are
    those of the exact value, rounded half-even to 17 places, without
    trailing zeros. *)
Definition nat_text (z : Z) : string :=
  NilZero.string_of_uint (N.to_uint (Z.to_N z)).

Fixpoint zeros (n : nat) : string :=
  match n with
  | O => EmptyString
  | S k => String "0" (zeros k)
  end.

Fixpoint string_take (n : nat) (s : string) : string :=
  match n, s with
  | S k, String c r => String c (string_take k r)
  | _, _ => EmptyString
  end.

Fixpoint string_drop (n : nat) (s : string) : string :=
  match n, s with
  | S k, String _ r => string_drop k r
  | _, _ => s
  end.

(** Least [j >= 1], searched upwards, with [n * 10^j >= d]. *)
Fixpoint first_scale (fuel : nat) (n d : Z) (j : Z) : Z :=
  match fuel with
  | O => j
  | S k => if d <=? n * 10 ^ j then j else first_scale k n d (j + 1)
  end.

Definition decimal_point (n d : Z) : Z :=
  if d <=? n then Z.of_nat (String.length (nat_text (n / d)))
  else 1 - first_scale (Pos.size_nat (Z.to_pos d)) n d 1.

Definition round_half_even (n d : Z) : Z :=
  let q := n / d in
  let r := n mod d in
  match 2 * r ?= d with
  | Lt => q
  | Gt => q + 1
  | Eq => if Z.even q then q else q + 1
  end.

Fixpoint strip_zeros (fuel : nat) (m : Z) : Z :=
  match fuel with
  | O => m
  | S k => if (m mod 10 =? 0) && negb (m =? 0) then strip_zeros k (m / 10) else m
  end.

(** Digits and point of a positive rational [n / d]. *)
Definition shortest_digits (n d : Z) : string * Z :=
  let p := decimal_point n d in
  let s := 17 - p in
  let m := if 0 <=? s then round_half_even (n * 10 ^ s) d
           else round_half_even n (d * 10 ^ (- s)) in
  let '(m, p) := if m =? 10 ^ 17 then (10 ^ 16, p + 1) else (m, p) in
  (nat_text (strip_zeros 17 m), p).

Definition exponent_text (e : Z) : string :=
  let a := nat_text (Z.abs e) in
  (if e <? 0 then "-" else "+")
    +:+ (if (String.length a <? 2)%nat then "0" +:+ a else a).

Definition format_float_short (ds : string) (decpt : Z) : string :=
  let k := Z.of_nat (String.length ds) in
  if (decpt <=? -4) || (16 <? decpt) then
    string_take 1 ds
      +:+ (if 1 <? k then "." +:+ string_drop 1 ds else "")
      +:+ "e" +:+ exponent_text (decpt - 1)
  else if decpt <=? 0 then
    "0." +:+ zeros (Z.to_nat (- decpt)) +:+ ds
  else if k <=? decpt then
    ds +:+ zeros (Z.to_nat (decpt - k)) +:+ ".0"
  else
    string_take (Z.to_nat decpt) ds +:+ "." +:+ string_drop (Z.to_nat decpt) ds.

Definition float_repr (x : fval) : string :=
  match x with
  | NaN => "nan"
  | PInf => "inf"
  | NInf => "-inf"
  | Fin q =>
      match Qnum q with
      | Z0 => "0.0"
      | Zpos n =>
          let '(ds, p) := shortest_digits (Zpos n) (Zpos (Qden q)) in
          format_float_short ds p
      | Zneg n =>
          let '(ds, p) := shortest_digits (Zpos n) (Zpos (Qden q)) in
          "-" +:+ format_float_short ds p
      end
  end.

End Text.

(** ** Exceptions, cells and frames *)

Module Frame.
Import Num Text.

Inductive exn : Type :=
| TypeError
| ValueError
| KeyError
| IndexError
| OtherError (message : string)
| HTTPException (status_code : Z) (detail : string).

(** [str(e)]. *)
Definition exn_text (e : exn) : string :=
  match e with
  | TypeError => "TypeError"
  | ValueError => "ValueError"
  | KeyError => "KeyError"
  | IndexError => "IndexError"
  | OtherError m => m
  | HTTPException _ d => d
  end.

Inductive result (A : Type) : Type :=
| Ok (a : A)
| Raise (e : exn).
Arguments Ok {A} a.
Arguments Raise {A} e.

Definition bind {A B : Type} (r : result A) (f : A -> result B) : result B :=
  match r with
  | Ok a => f a
  | Raise e => Raise e
  end.

Notation "x <- r ;; k" := (bind r (fun x => k))
  (at level 100, r at next level, right associativity).

Fixpoint mapM {A B : Type} (f : A -> result B) (l : list A) : result (list B) :=
  match l with
  | [] => Ok []
  | a :: r => b <- f a ;; bs <- mapM f r ;; Ok (b :: bs)
  end.

Fixpoint foldM {A B : Type} (f : A -> B -> result A) (l : list B) (a : A)
  : result A :=
  match l with
  | [] => Ok a
  | b :: r => a1 <- f a b ;; foldM f r a1
  end.

Inductive cell : Type :=
| CStr (s : string)
| CNum (x : fval).

Abbreviation column := (list cell).
Abbreviation frame := (list (string * column)).

(** [X[name]] and [name in X.columns]. *)
Fixpoint get_col (X : frame) (name : string) : option column :=
  match X with
  | [] => None
  | (n, v) :: r => if String.eqb n name then Some v else get_col r name
  end.

Definition has_col (X : frame) (name : string) : bool :=
  match get_col X name with Some _ => true | None => false end.

(** [X[name] = v]: an existing column is replaced where it stands, a new
    one is appended. *)
Fixpoint set_col (X : frame) (name : string) (v : column) : frame :=
  match X with
  | [] => [(name, v)]
  | (n, w) :: r =>
      if String.eqb n name then (n, v) :: r else (n, w) :: set_col r name v
  end.

(** [pd.notnull] / [pd.isna] on a cell: text is never missing. *)
Definition cell_isna (c : cell) : bool :=
  match c with
  | CNum x => isna x
  | CStr _ => false
  end.

(** [astype(str)] on a cell.  A number is written as a float; pandas
    writes a cell of an integer column without the final ".0", which the
    cleaner reads as the same number. *)
Definition astype_str (c : cell) : string :=
  match c with
  | CStr s => s
  | CNum x => float_repr x
  end.

(** [pd.to_numeric(col, errors=...)]. *)
Inductive errors_mode : Type := ErrorsRaise | ErrorsCoerce.

Definition to_numeric_cell (errors : errors_mode) (c : cell) : result cell :=
  match c with
  | CNum x => Ok (CNum x)
  | CStr s =>
      match floatify s with
      | Some v => Ok (CNum v)
      | None =>
          match errors with
          | ErrorsCoerce => Ok (CNum NaN)
          | ErrorsRaise => Raise ValueError
          end
      end
  end.

Definition to_numeric (errors : errors_mode) (col : column) : result column :=
  mapM (to_numeric_cell errors) col.

(** [col.fillna(v)]. *)
Definition fillna (v : fval) (col : column) : column :=
  (fun c => if cell_isna c then CNum v else c) <$> col.

(** [col.replace(old, new)] for a text [old]. *)
Definition replace_text (old : string) (new : cell) (col : column) : column :=
  (fun c => match c with
            | CStr s => if String.eqb s old then new else c
            | CNum _ => c
            end) <$> col.

(** Comparing a column with a number: text in the column raises. *)
Definition col_cmp (op : fval -> fval -> bool) (col : column) (k : fval)
  : result (list bool) :=
  mapM (fun c => match c with
                 | CNum x => Ok (op x k)
                 | CStr _ => Raise TypeError
                 end) col.

Definition mask_and (a b : list bool) : list bool := zip_with andb a b.
Definition mask_or (a b : list bool) : list bool := zip_with orb a b.

(** [col[mask]] and [X.loc[mask, name] = v]. *)
Fixpoint select (mask : list bool) (col : column) : column :=
  match mask, col with
  | b :: m, c :: r => if b then c :: select m r else select m r
  | _, _ => []
  end.

Definition loc_set (mask : list bool) (col : column) (v : cell) : column :=
  zip_with (fun (b : bool) c => if b then v else c) mask col.

(** Arithmetic on columns: text raises. *)
Definition num_of (c : cell) : result fval :=
  match c with
  | CNum x => Ok x
  | CStr _ => Raise TypeError
  end.

Definition col_map (f : fval -> fval) (col : column) : result column :=
  mapM (fun c => x <- num_of c ;; Ok (CNum (f x))) col.

Fixpoint col_map2 (f : fval -> fval -> fval) (a b : column) : result column :=
  match a, b with
  | c :: r, d :: t =>
      x <- num_of c ;; y <- num_of d ;; rest <- col_map2 f r t ;;
      Ok (CNum (f x y) :: rest)
  | _, _ => Ok []
  end.

(** [col.median()]. *)
Definition col_median (col : column) : result fval :=
  xs <- mapM num_of col ;; Ok (median xs).

End Frame.

(** ** cleaning.py *)

Module Cleaning.
Import Num Text Frame.

Module RegexCleaner.

Record t : Type := { columns : list string }.

Definition fit (self : t) (X : frame) : t := self.

(** Steps 1-4 of the loop body, on one column. *)
Definition clean_column (col : column) : result column :=
  let stripped := (fun c => CStr (re_sub (astype_str c))) <$> col in
  let blanked := replace_text "" (CNum NaN) stripped in
  to_numeric ErrorsCoerce blanked.

Definition clean_step (X_copy : frame) (col : string) : result frame :=
  match get_col X_copy col with
  | Some v => v' <- clean_column v ;; Ok (set_col X_copy col v')
  | None => Ok X_copy
  end.

Definition transform (self : t) (X : frame) : result frame :=
  foldM clean_step (columns self) X.

End RegexCleaner.

Module OutlierCapper.

Record t : Type := {
  age_min : fval;
  age_max : fval;
  max_accounts : fval;
  median_age : fval
}.

(** [__init__]. *)
Definition init : t :=
  {| age_min := of_Z 18; age_max := of_Z 100; max_accounts := of_Z 20;
     median_age := of_Z 30 |}.

Definition set_median_age (self : t) (m : fval) : t :=
  {| age_min := age_min self; age_max := age_max self;
     max_accounts := max_accounts self; median_age := m |}.

Definition fit (self : t) (X : frame) : result t :=
  match get_col X "Age" with
  | Some age =>
      lo <- col_cmp fge age (age_min self) ;;
      hi <- col_cmp fle age (age_max self) ;;
      let valid_ages := select (mask_and lo hi) age in
      match valid_ages with
      | [] => Ok self
      | _ :: _ => m <- col_median valid_ages ;; Ok (set_median_age self m)
      end
  | None => Ok self
  end.

Definition cap_age (self : t) (X_copy : frame) : result frame :=
  match get_col X_copy "Age" with
  | Some age =>
      lo <- col_cmp flt age (age_min self) ;;
      hi <- col_cmp fgt age (age_max self) ;;
      let mask := mask_or lo hi in
      Ok (set_col X_copy "Age" (loc_set mask age (CNum (median_age self))))
  | None => Ok X_copy
  end.

Definition cap_accounts (self : t) (X_copy : frame) : result frame :=
  match get_col X_copy "Num_Bank_Accounts" with
  | Some acc =>
      over <- col_cmp fgt acc (max_accounts self) ;;
      let acc1 := loc_set over acc (CNum (max_accounts self)) in
      under <- col_cmp flt acc1 (of_Z 0) ;;
      Ok (set_col X_copy "Num_Bank_Accounts" (loc_set under acc1 (CNum (of_Z 0))))
  | None => Ok X_copy
  end.

Definition transform (self : t) (X : frame) : result frame :=
  X1 <- cap_age self X ;; cap_accounts self X1.

End OutlierCapper.

End Cleaning.

(** ** features.py *)

Module Features.
Import Num Text Frame.

Module MissingValueImputer.

(** A dictionary key: a text, a finite number in lowest terms, or an
    infinity.  A missing value is no key: [groupby] drops it and [get]
    never finds it. *)
Abbreviation key := (string + (Z * positive + bool))%type.

Definition group_key (c : cell) : option key :=
  match c with
  | CStr s => Some (inl s)
  | CNum (Fin q) => Some (inr (inl (Qnum (Qred q), Qden (Qred q))))
  | CNum PInf => Some (inr (inr true))
  | CNum NInf => Some (inr (inr false))
  | CNum NaN => None
  end.

Record t : Type := {
  group_medians : gmap key fval;
  global_median : fval
}.

Definition init : t := {| group_medians := ∅; global_median := Fin 0 |}.

(** [d.get(k, default)]. *)
Definition dict_get (d : gmap key fval) (k : cell) (default : fval) : fval :=
  match group_key k with
  | Some k' => match d !! k' with Some v => v | None => default end
  | None => default
  end.

(** The rows of each group, keyed by the grouping value. *)
Fixpoint groups (occ : column) (xs : list fval) : gmap key (list fval) :=
  match occ, xs with
  | o :: occ', x :: xs' =>
      let g := groups occ' xs' in
      match group_key o with
      | Some k =>
          <[k := x :: match g !! k with Some l => l | None => [] end]> g
      | None => g
      end
  | _, _ => ∅
  end.

Definition fit (self : t) (X : frame) : result t :=
  match get_col X "Monthly_Balance", get_col X "Occupation" with
  | Some bal, Some occ =>
      xs <- mapM num_of bal ;;
      Ok {| global_median := median xs;
            group_medians := median <$> groups occ xs |}
  | _, _ => Ok self
  end.

Definition fill_balance (self : t) (bal occ : cell) : cell :=
  if negb (cell_isna bal) then bal
  else
    let group_val :=
      dict_get (group_medians self) occ (global_median self) in
    if isna group_val then CNum (global_median self) else CNum group_val.

Definition transform (self : t) (X : frame) : frame :=
  match get_col X "Monthly_Balance", get_col X "Occupation" with
  | Some bal, Some occ =>
      set_col X "Monthly_Balance" (zip_with (fill_balance self) bal occ)
  | _, _ => X
  end.

End MissingValueImputer.

Module FeatureEngineer.

Definition fit (X : frame) : unit := tt.

Definition numeric_cols : list string :=
  ["Annual_Income"; "Outstanding_Debt"; "Num_Credit_Card";
   "Monthly_Inhand_Salary"].

Definition coerce_step (X_copy : frame) (col : string) : result frame :=
  match get_col X_copy col with
  | Some v =>
      v' <- to_numeric ErrorsCoerce v ;;
      Ok (set_col X_copy col (fillna (of_Z 0) v'))
  | None => Ok X_copy
  end.

Definition plus_one (x : fval) : fval := fadd x (of_Z 1).

Definition add_dti (X_copy : frame) : result frame :=
  match get_col X_copy "Outstanding_Debt", get_col X_copy "Annual_Income" with
  | Some debt, Some income =>
      den <- col_map plus_one income ;;
      r <- col_map2 fdiv debt den ;;
      Ok (set_col X_copy "DTI_Ratio" r)
  | _, _ => Ok X_copy
  end.

Definition add_utilization (X_copy : frame) : result frame :=
  match get_col X_copy "Outstanding_Debt", get_col X_copy "Num_Credit_Card" with
  | Some debt, Some cards =>
      proxy_limit <- col_map (fun c => fmul c (of_Z 5000)) cards ;;
      den <- col_map plus_one proxy_limit ;;
      r <- col_map2 fdiv debt den ;;
      Ok (set_col X_copy "Utilization_Proxy" r)
  | _, _ => Ok X_copy
  end.

Definition add_stability (X_copy : frame) : result frame :=
  match get_col X_copy "Annual_Income",
        get_col X_copy "Monthly_Inhand_Salary" with
  | Some income, Some salary =>
      expected_annual <- col_map (fun s => fmul s (of_Z 12)) salary ;;
      diff <- col_map2 fsub income expected_annual ;;
      num <- col_map fabs diff ;;
      den <- col_map plus_one income ;;
      r <- col_map2 fdiv num den ;;
      Ok (set_col X_copy "Income_Stability" r)
  | _, _ => Ok X_copy
  end.

Definition transform (X : frame) : result frame :=
  X1 <- foldM coerce_step numeric_cols X ;;
  X2 <- add_dti X1 ;;
  X3 <- add_utilization X2 ;;
  add_stability X3.

End FeatureEngineer.

End Features.

(** ** train.py: the chain of the four transforms *)

Module Train.
Import Num Text Frame Cleaning Features.

Definition DIRTY_NUMERIC_COLS : list string :=
  ["Age"; "Annual_Income"; "Num_of_Loan"; "Num_Bank_Accounts";
   "Num_Credit_Card"; "Interest_Rate"; "Delay_from_due_date";
   "Num_of_Delayed_Payment"; "Changed_Credit_Limit"; "Num_Credit_Inquiries";
   "Outstanding_Debt"; "Monthly_Inhand_Salary";
   "Total_EMI_per_month"; "Amount_invested_monthly"; "Monthly_Balance"].

(** The steps [regex], [outliers], [imputer], [features] of
    [model_pipeline]; the encoder and the classifier that follow are
    outside the embedding. *)
Record chain : Type := {
  regex : RegexCleaner.t;
  outliers : OutlierCapper.t;
  imputer : MissingValueImputer.t
}.

Definition new_chain : chain :=
  {| regex := {| RegexCleaner.columns := DIRTY_NUMERIC_COLS |};
     outliers := OutlierCapper.init;
     imputer := MissingValueImputer.init |}.

(** [Pipeline.fit]: each step is fitted on the output of the steps
    before it. *)
Definition chain_fit (p : chain) (X : frame) : result chain :=
  let r := RegexCleaner.fit (regex p) X in
  X1 <- RegexCleaner.transform r X ;;
  o <- OutlierCapper.fit (outliers p) X1 ;;
  X2 <- OutlierCapper.transform o X1 ;;
  i <- MissingValueImputer.fit (imputer p) X2 ;;
  Ok {| regex := r; outliers := o; imputer := i |}.

Definition chain_transform (p : chain) (X : frame) : result frame :=
  X1 <- RegexCleaner.transform (regex p) X ;;
  X2 <- OutlierCapper.transform (outliers p) X1 ;;
  FeatureEngineer.transform (MissingValueImputer.transform (imputer p) X2).

(** [target_map] and [Series.map(target_map)]: a cell that is no key of
    the dictionary becomes a missing value. *)
Definition target_map (label : string) : option Z :=
  if String.eqb label "Good" then Some 0
  else if String.eqb label "Standard" then Some 1
  else if String.eqb label "Poor" then Some 2
  else None.

Definition map_target (c : cell) : cell :=
  match c with
  | CStr s =>
      match target_map s with
      | Some z => CNum (of_Z z)
      | None => CNum NaN
      end
  | CNum _ => CNum NaN
  end.

(** [df.dropna(subset=[name])]: the rows whose cell in [name] is missing
    are dropped from every column. *)
Definition dropna_subset (df : frame) (name : string) : result frame :=
  match get_col df name with
  | Some col =>
      let mask := (fun c => negb (cell_isna c)) <$> col in
      Ok ((fun p : string * column => (p.1, select mask p.2)) <$> df)
  | None => Raise KeyError
  end.

Definition drop_cols : list string :=
  ["Credit_Score"; "target"; "ID"; "Customer_ID"; "Name"; "SSN"; "Month";
   "Type_of_Loan"; "Credit_History_Age"].

(** [df.drop(columns=names, errors='ignore')]. *)
Definition drop_columns (df : frame) (names : list string) : frame :=
  List.filter (fun p : string * column => negb (existsb (String.eqb p.1) names))
    df.

(** Steps 2 and 3 of [train]: the features [X] and the targets [y]. *)
Definition train_targets (df : frame) : result (frame * column) :=
  match get_col df "Credit_Score" with
  | Some labels =>
      let df1 := set_col df "target" (map_target <$> labels) in
      df2 <- dropna_subset df1 "target" ;;
      let X := drop_columns df2 drop_cols in
      match get_col df2 "target" with
      | Some y => Ok (X, y)
      | None => Raise KeyError
      end
  | None => Raise KeyError
  end.

End Train.

(** ** app.py: the prediction call *)

Module App.
Import Num Text Frame.

(** The loaded artifact: the number of its steps (a [Pipeline] with no
    step is falsy) and its two prediction methods, which may raise. *)
Record Pipeline : Type := {
  n_steps : nat;
  pipeline_predict : frame -> result (list Z);
  pipeline_predict_proba : frame -> result (list (list fval))
}.

Record CreditApplication : Type := {
  Age : fval;
  Occupation : string;
  Annual_Income : fval;
  Monthly_Inhand_Salary : fval;
  Num_Bank_Accounts : Z;
  Num_Credit_Card : Z;
  Interest_Rate : Z;
  Num_of_Loan : Z;
  Delay_from_due_date : Z;
  Num_of_Delayed_Payment : Z;
  Changed_Credit_Limit : fval;
  Num_Credit_Inquiries : Z;
  Credit_Mix : string;
  Outstanding_Debt : fval;
  Credit_Utilization_Ratio : fval;
  Payment_of_Min_Amount : string;
  Total_EMI_per_month : fval;
  Amount_invested_monthly : fval;
  Payment_Behaviour : string;
  Monthly_Balance : fval
}.

Record response : Type := {
  credit_score : string;
  probability : fval * fval * fval;
  risk_level : string
}.

(** [pd.DataFrame([application.model_dump()])]. *)
Definition to_frame (a : CreditApplication) : frame :=
  [("Age", [CNum (Age a)]);
   ("Occupation", [CStr (Occupation a)]);
   ("Annual_Income", [CNum (Annual_Income a)]);
   ("Monthly_Inhand_Salary", [CNum (Monthly_Inhand_Salary a)]);
   ("Num_Bank_Accounts", [CNum (of_Z (Num_Bank_Accounts a))]);
   ("Num_Credit_Card", [CNum (of_Z (Num_Credit_Card a))]);
   ("Interest_Rate", [CNum (of_Z (Interest_Rate a))]);
   ("Num_of_Loan", [CNum (of_Z (Num_of_Loan a))]);
   ("Delay_from_due_date", [CNum (of_Z (Delay_from_due_date a))]);
   ("Num_of_Delayed_Payment", [CNum (of_Z (Num_of_Delayed_Payment a))]);
   ("Changed_Credit_Limit", [CNum (Changed_Credit_Limit a)]);
   ("Num_Credit_Inquiries", [CNum (of_Z (Num_Credit_Inquiries a))]);
   ("Credit_Mix", [CStr (Credit_Mix a)]);
   ("Outstanding_Debt", [CNum (Outstanding_Debt a)]);
   ("Credit_Utilization_Ratio", [CNum (Credit_Utilization_Ratio a)]);
   ("Payment_of_Min_Amount", [CStr (Payment_of_Min_Amount a)]);
   ("Total_EMI_per_month", [CNum (Total_EMI_per_month a)]);
   ("Amount_invested_monthly", [CNum (Amount_invested_monthly a)]);
   ("Payment_Behaviour", [CStr (Payment_Behaviour a)]);
   ("Monthly_Balance", [CNum (Monthly_Balance a)])].

(** [not pipeline]: [None] is falsy, and so is a pipeline of length 0. *)
Definition not_ (pipeline : option Pipeline) : bool :=
  match pipeline with
  | None => true
  | Some p => Nat.eqb (n_steps p) 0
  end.

(** [l[i]]. *)
Definition index {A : Type} (l : list A) (i : nat) : result A :=
  match l !! i with
  | Some a => Ok a
  | None => Raise IndexError
  end.

Definition class_map (idx : Z) : result string :=
  match idx with
  | 0 => Ok "Good"
  | 1 => Ok "Standard"
  | 2 => Ok "Poor"
  | _ => Raise KeyError
  end.

(** [round(x, 3)]: to the nearest thousandth, ties to even. *)
Definition round3 (x : fval) : fval :=
  match x with
  | Fin q =>
      Fin (Qred (Qmake (round_half_even (Qnum q * 1000) (Zpos (Qden q))) 1000))
  | _ => x
  end.

Definition risk_of (result_ : string) : string :=
  if String.eqb result_ "Poor" then "High"
  else if String.eqb result_ "Good" then "Low"
  else "Medium".

(** The body of the [try] block. *)
Definition predict_body (p : Pipeline) (application : CreditApplication)
  : result response :=
  let df := to_frame application in
  preds <- pipeline_predict p df ;;
  prediction_idx <- index preds 0 ;;
  all_probs <- pipeline_predict_proba p df ;;
  probs <- index all_probs 0 ;;
  result_ <- class_map prediction_idx ;;
  p0 <- index probs 0 ;;
  p1 <- index probs 1 ;;
  p2 <- index probs 2 ;;
  Ok {| credit_score := result_;
        probability := (round3 p0, round3 p1, round3 p2);
        risk_level := risk_of result_ |}.

Definition predict (pipeline : option Pipeline)
  (application : CreditApplication) : result response :=
  if not_ pipeline then Raise (HTTPException 503 "Model not loaded")
  else
    match pipeline with
    | Some p =>
        match predict_body p application with
        | Ok r => Ok r
        | Raise e => Raise (HTTPException 500 (exn_text e))
        end
    | None => Raise (HTTPException 503 "Model not loaded")
    end.

(** [lifespan]: the artifact is loaded at startup; a failed load leaves
    the global unset. *)
Definition startup (loaded : result Pipeline) : option Pipeline :=
  match loaded with
  | Ok p => Some p
  | Raise _ => None
  end.

Definition health_check (pipeline : option Pipeline) : bool :=
  match pipeline with Some _ => true | None => false end.

End App.

(** * Properties *)

Import Num Text Frame Cleaning Features Train.

(** ** The prediction call *)

Section Serving.
Import App.

Lemma not_None : not_ None = true.
Proof. reflexivity. Qed.

(** A request served while a chain with at least one step is loaded never
    gets the unavailable-model failure: whatever the body raises comes out
    as status 500. *)
Lemma predict_loaded_status (p : Pipeline) (a : CreditApplication) :
  n_steps p <> O ->
  (exists r, predict (Some p) a = Ok r)
  \/ (exists d, predict (Some p) a = Raise (HTTPException 500 d)).
Proof.
  intros Hn. unfold predict, not_.
  destruct (n_steps p) as [|k] eqn:E; [congruence|]. simpl.
  destruct (predict_body p a) as [r|e]; [left|right]; eauto.
Qed.

(** C8: with no fitted chain loaded (the global is [None], as at import
    time, after a failed load at startup and after shutdown), every
    request fails with the unavailable-model condition, status 503 and
    detail "Model not loaded"; the call returns that failure, it is not
    the status-500 failure of the [try] block. *)
Theorem predict_without_chain_unavailable (a : App.CreditApplication) :
  App.predict None a = Raise (HTTPException 503 "Model not loaded")
  /\ (forall e, App.predict (App.startup (Raise e)) a
                = Raise (HTTPException 503 "Model not loaded"))
  /\ (forall r, App.predict None a <> Ok r)
  /\ (forall d, App.predict None a <> Raise (HTTPException 500 d)).
Proof.
  repeat split; try reflexivity; intros; discriminate.
Qed.

End Serving.

(** ** Frames and the error monad *)

Section FrameFacts.

Lemma get_set_eq (X : frame) (n : string) (v : column) :
  get_col (set_col X n v) n = Some v.
Proof.
  induction X as [|[m w] X IH]; simpl.
  - now rewrite String.eqb_refl.
  - destruct (String.eqb m n) eqn:E; simpl; rewrite E; auto.
Qed.

Lemma get_set_ne (X : frame) (n m : string) (v : column) :
  n <> m -> get_col (set_col X n v) m = get_col X m.
Proof.
  intros Hne. induction X as [|[k w] X IH]; simpl.
  - destruct (String.eqb n m) eqn:E; auto.
    apply String.eqb_eq in E. contradiction.
  - destruct (String.eqb k n) eqn:E; simpl.
    + apply String.eqb_eq in E. subst k.
      destruct (String.eqb n m) eqn:E'; auto.
      apply String.eqb_eq in E'. contradiction.
    + destruct (String.eqb k m); auto.
Qed.

Lemma has_col_set (X : frame) (n m : string) (v : column) :
  has_col (set_col X n v) m = (String.eqb n m || has_col X m)%bool.
Proof.
  unfold has_col. destruct (String.eqb n m) eqn:E.
  - apply String.eqb_eq in E. subst. now rewrite get_set_eq.
  - apply String.eqb_neq in E. now rewrite get_set_ne.
Qed.

Lemma mapM_ok {A B : Type} (f : A -> result B) (g : A -> B) (l : list A) :
  (forall a, a ∈ l -> f a = Ok (g a)) -> mapM f l = Ok (g <$> l).
Proof.
  induction l as [|a l IH]; intros H; simpl; [reflexivity|].
  rewrite H by constructor. simpl. rewrite IH; [reflexivity|].
  intros b Hb. apply H. now constructor.
Qed.

Lemma col_cmp_numeric (op : fval -> fval -> bool) (xs : list fval) (k : fval) :
  col_cmp op (CNum <$> xs) k = Ok ((fun x => op x k) <$> xs).
Proof.
  induction xs as [|x xs IH]; [reflexivity|].
  unfold col_cmp in *. rewrite fmap_cons. simpl. now rewrite IH.
Qed.

Lemma col_map_numeric (f : fval -> fval) (xs : list fval) :
  col_map f (CNum <$> xs) = Ok (CNum <$> (f <$> xs)).
Proof.
  induction xs as [|x xs IH]; [reflexivity|].
  unfold col_map in *. rewrite fmap_cons. simpl. now rewrite IH.
Qed.

Lemma col_map2_numeric (f : fval -> fval -> fval) (xs ys : list fval) :
  col_map2 f (CNum <$> xs) (CNum <$> ys) = Ok (CNum <$> zip_with f xs ys).
Proof.
  revert ys. induction xs as [|x xs IH]; intros [|y ys]; simpl; try reflexivity.
  now rewrite IH.
Qed.

Lemma mapM_num_of (xs : list fval) : mapM num_of (CNum <$> xs) = Ok xs.
Proof.
  induction xs as [|x xs IH]; [reflexivity|].
  rewrite fmap_cons. cbn [mapM bind num_of]. now rewrite IH.
Qed.

Lemma loc_set_numeric (mask : list bool) (xs : list fval) (v : fval) :
  loc_set mask (CNum <$> xs) (CNum v)
  = CNum <$> zip_with (fun (b : bool) x => if b then v else x) mask xs.
Proof.
  unfold loc_set. revert xs.
  induction mask as [|b mask IH]; intros [|x xs]; simpl; try reflexivity.
  rewrite IH. now destruct b.
Qed.

Lemma fmap_CNum_inj (xs ys : list fval) :
  CNum <$> xs = CNum <$> ys -> xs = ys.
Proof.
  revert ys. induction xs as [|x xs IH]; intros [|y ys] H;
    try discriminate; [reflexivity|].
  rewrite !fmap_cons in H. injection H as -> H. f_equal. now apply IH.
Qed.

Lemma zip_with_fmap_same {A B C D : Type} (f : B -> C -> D) (g : A -> B)
  (h : A -> C) (l : list A) :
  zip_with f (g <$> l) (h <$> l) = (fun a => f (g a) (h a)) <$> l.
Proof.
  induction l as [|a l IH]; [reflexivity|].
  rewrite !fmap_cons. cbn [zip_with]. now rewrite IH.
Qed.

End FrameFacts.

(** ** Order on numbers *)

Section NumFacts.

Lemma Qltb_lt (q r : Q) : Qltb q r = true <-> (q < r)%Q.
Proof.
  unfold Qltb. rewrite negb_true_iff. split.
  - intros H. apply Qnot_le_lt. intros Hle.
    apply Qle_bool_iff in Hle. congruence.
  - intros H. destruct (Qle_bool r q) eqn:E; [|reflexivity].
    apply Qle_bool_iff in E. exfalso. exact (Qlt_not_le _ _ H E).
Qed.

Lemma Qltb_ge (q r : Q) : Qltb q r = false <-> (r <= q)%Q.
Proof.
  unfold Qltb. rewrite negb_false_iff. apply Qle_bool_iff.
Qed.

Lemma flt_Fin (q : Q) (k : Z) : flt (Fin q) (of_Z k) = true <-> (q < inject_Z k)%Q.
Proof. apply Qltb_lt. Qed.

Lemma fgt_Fin (q : Q) (k : Z) : fgt (Fin q) (of_Z k) = true <-> (inject_Z k < q)%Q.
Proof. apply Qltb_lt. Qed.

Lemma fle_Fin (q r : Q) : fle (Fin q) (Fin r) = true <-> (q <= r)%Q.
Proof. apply Qle_bool_iff. Qed.

Lemma flt_false_Fin (q : Q) (k : Z) :
  flt (Fin q) (of_Z k) = false <-> (inject_Z k <= q)%Q.
Proof. apply Qltb_ge. Qed.

Lemma fgt_false_Fin (q : Q) (k : Z) :
  fgt (Fin q) (of_Z k) = false <-> (q <= inject_Z k)%Q.
Proof. apply Qltb_ge. Qed.

End NumFacts.

(** ** OutlierCapper *)

Section Capping.
Import OutlierCapper.

(** What the two masked assignments do to one value. *)
Definition capped_age (self : t) (a : fval) : fval :=
  if flt a (age_min self) || fgt a (age_max self) then median_age self else a.

Definition capped_accounts (self : t) (n : fval) : fval :=
  let n1 := if fgt n (max_accounts self) then max_accounts self else n in
  if flt n1 (of_Z 0) then of_Z 0 else n1.

Lemma zip_with_fmap_self {A B C : Type} (f : B -> A -> C) (g : A -> B) (l : list A) :
  zip_with f (g <$> l) l = (fun a => f (g a) a) <$> l.
Proof.
  induction l as [|a l IH]; [reflexivity|].
  rewrite !fmap_cons. cbn [zip_with]. now rewrite IH.
Qed.

Lemma cap_age_numeric (self : t) (X : frame) (ages : list fval) :
  get_col X "Age" = Some (CNum <$> ages) ->
  cap_age self X = Ok (set_col X "Age" (CNum <$> (capped_age self <$> ages))).
Proof.
  intros H. unfold cap_age. rewrite H, !col_cmp_numeric. cbn [bind].
  unfold mask_or. rewrite zip_with_fmap_same, loc_set_numeric, zip_with_fmap_self.
  reflexivity.
Qed.

Lemma cap_age_absent (self : t) (X : frame) :
  get_col X "Age" = None -> cap_age self X = Ok X.
Proof. intros H. unfold cap_age. now rewrite H. Qed.

Lemma cap_accounts_numeric (self : t) (X : frame) (accts : list fval) :
  get_col X "Num_Bank_Accounts" = Some (CNum <$> accts) ->
  cap_accounts self X
  = Ok (set_col X "Num_Bank_Accounts"
          (CNum <$> (capped_accounts self <$> accts))).
Proof.
  intros H. unfold cap_accounts. rewrite H, col_cmp_numeric. cbn [bind].
  rewrite loc_set_numeric, zip_with_fmap_self, col_cmp_numeric. cbn [bind].
  rewrite loc_set_numeric, zip_with_fmap_self.
  do 3 f_equal. rewrite <- list_fmap_compose. reflexivity.
Qed.

Lemma cap_accounts_absent (self : t) (X : frame) :
  get_col X "Num_Bank_Accounts" = None -> cap_accounts self X = Ok X.
Proof. intros H. unfold cap_accounts. now rewrite H. Qed.

End Capping.

Section CappingRows.
Import OutlierCapper.

(** A column that is absent, or holds numbers only, as after the cleaner. *)
Definition numeric_or_absent (X : frame) (name : string) : Prop :=
  match get_col X name with
  | Some col => exists xs, col = CNum <$> xs
  | None => True
  end.

(** The rule of the specification for one age [a], giving [a']. *)
Definition age_row (m a a' : fval) : Prop :=
  match a with
  | NaN => a' = NaN
  | Fin q =>
      ((q < 18 \/ 100 < q)%Q -> a' = m) /\ ((18 <= q <= 100)%Q -> a' = Fin q)
  | PInf | NInf => a' = m
  end.

(** The rule of the specification for one account count [n], giving [n']. *)
Definition accounts_row (n n' : fval) : Prop :=
  match n with
  | NaN => n' = NaN
  | Fin q =>
      ((20 < q)%Q -> n' = of_Z 20) /\ ((q < 0)%Q -> n' = of_Z 0)
      /\ ((0 <= q <= 20)%Q -> n' = Fin q)
  | PInf => n' = of_Z 20
  | NInf => n' = of_Z 0
  end.

Lemma capped_age_row (m a : fval) :
  age_row m a (capped_age (set_median_age init m) a).
Proof.
  unfold capped_age. cbn [age_min age_max median_age set_median_age init].
  destruct a as [q| | |]; cbn [age_row]; try reflexivity.
  split.
  - intros [H|H].
    + apply (flt_Fin q 18) in H. now rewrite H.
    + apply (fgt_Fin q 100) in H. rewrite H. now rewrite orb_true_r.
  - intros [H1 H2].
    apply (flt_false_Fin q 18) in H1. apply (fgt_false_Fin q 100) in H2.
    now rewrite H1, H2.
Qed.

Lemma capped_accounts_row (m n : fval) :
  accounts_row n (capped_accounts (set_median_age init m) n).
Proof.
  unfold capped_accounts. cbn [max_accounts set_median_age init].
  destruct n as [q| | |]; cbn [accounts_row]; try reflexivity.
  split; [|split].
  - intros H. apply (fgt_Fin q 20) in H. now rewrite H.
  - intros H. assert (Hle : (q <= 20)%Q).
    { apply Qlt_le_weak. eapply Qlt_trans; [exact H|reflexivity]. }
    apply (fgt_false_Fin q 20) in Hle. rewrite Hle.
    apply (flt_Fin q 0) in H. now rewrite H.
  - intros [H1 H2].
    apply (fgt_false_Fin q 20) in H2. apply (flt_false_Fin q 0) in H1.
    now rewrite H2, H1.
Qed.

Lemma rows_of_fmap (f : fval -> fval) (R : fval -> fval -> Prop)
  (xs : list fval) :
  (forall x, R x (f x)) ->
  length (f <$> xs) = length xs
  /\ forall i x, xs !! i = Some x ->
       exists x', (f <$> xs) !! i = Some x' /\ R x x'.
Proof.
  intros HR. split; [apply length_fmap|].
  intros i x Hx. exists (f x). split; [|apply HR].
  now rewrite list_lookup_fmap, Hx.
Qed.

(** C2: on a batch whose [Age] and [Num_Bank_Accounts] columns hold
    numbers (each may also be absent), the capper returns a batch in which,
    row by row and column by column independently: an age strictly below
    18 or strictly above 100 is replaced by the learned [median_age], an age
    in [18,100] (18 and 100 included) is kept, a missing age stays missing;
    an account count above 20 becomes exactly 20, one below 0 exactly 0,
    one in [0,20] is kept.  An absent column is skipped. *)
Theorem outlier_capper_transform_rows (m : fval) (X : frame) :
  numeric_or_absent X "Age" ->
  numeric_or_absent X "Num_Bank_Accounts" ->
  exists Y,
    transform (set_median_age init m) X = Ok Y
    /\ (get_col X "Age" = None -> get_col Y "Age" = None)
    /\ (forall ages, get_col X "Age" = Some (CNum <$> ages) ->
        exists ages',
          get_col Y "Age" = Some (CNum <$> ages')
          /\ length ages' = length ages
          /\ forall i a, ages !! i = Some a ->
               exists a', ages' !! i = Some a' /\ age_row m a a')
    /\ (get_col X "Num_Bank_Accounts" = None ->
        get_col Y "Num_Bank_Accounts" = None)
    /\ (forall accts, get_col X "Num_Bank_Accounts" = Some (CNum <$> accts) ->
        exists accts',
          get_col Y "Num_Bank_Accounts" = Some (CNum <$> accts')
          /\ length accts' = length accts
          /\ forall i n, accts !! i = Some n ->
               exists n', accts' !! i = Some n' /\ accounts_row n n').
Proof.
  intros HA HB. unfold numeric_or_absent in HA, HB. unfold transform.
  set (self := set_median_age init m).
  assert (Hne : "Age" <> "Num_Bank_Accounts") by discriminate.
  assert (Hne' : "Num_Bank_Accounts" <> "Age") by discriminate.
  destruct (get_col X "Age") as [age|] eqn:EA.
  - destruct HA as [ages ->].
    rewrite (cap_age_numeric self X ages EA). cbn [bind].
    set (X1 := set_col X "Age" (CNum <$> (capped_age self <$> ages))).
    assert (EB1 : get_col X1 "Num_Bank_Accounts" = get_col X "Num_Bank_Accounts")
      by (apply get_set_ne; exact Hne).
    destruct (get_col X "Num_Bank_Accounts") as [acc|] eqn:EB.
    + destruct HB as [accts ->].
      rewrite (cap_accounts_numeric self X1 accts EB1).
      eexists. split; [reflexivity|].
      split; [discriminate|]. split; [|split; [discriminate|]].
      * intros ages0 E0. injection E0 as E0.
        apply fmap_CNum_inj in E0. subst ages0.
        exists (capped_age self <$> ages).
        split; [rewrite get_set_ne by exact Hne'; apply get_set_eq|].
        apply rows_of_fmap. apply capped_age_row.
      * intros accts0 E0. injection E0 as E0.
        apply fmap_CNum_inj in E0. subst accts0.
        exists (capped_accounts self <$> accts).
        split; [apply get_set_eq|].
        apply rows_of_fmap. apply capped_accounts_row.
    + rewrite (cap_accounts_absent self X1 EB1).
      eexists. split; [reflexivity|].
      split; [discriminate|]. split; [|split; [intros _; exact EB1|discriminate]].
      intros ages0 E0. injection E0 as E0.
      apply fmap_CNum_inj in E0. subst ages0.
      exists (capped_age self <$> ages).
      split; [apply get_set_eq|].
      apply rows_of_fmap. apply capped_age_row.
  - rewrite (cap_age_absent self X EA). cbn [bind].
    destruct (get_col X "Num_Bank_Accounts") as [acc|] eqn:EB.
    + destruct HB as [accts ->].
      rewrite (cap_accounts_numeric self X accts EB).
      eexists. split; [reflexivity|].
      split; [intros _; rewrite get_set_ne by exact Hne'; exact EA|].
      split; [discriminate|]. split; [discriminate|].
      intros accts0 E0. injection E0 as E0.
      apply fmap_CNum_inj in E0. subst accts0.
      exists (capped_accounts self <$> accts).
      split; [apply get_set_eq|].
      apply rows_of_fmap. apply capped_accounts_row.
    + rewrite (cap_accounts_absent self X EB).
      eexists. split; [reflexivity|].
      split; [intros _; exact EA|]. split; [discriminate|].
      split; [intros _; exact EB|discriminate].
Qed.

End CappingRows.

(** ** OutlierCapper.fit *)

Section CapperFit.
Import OutlierCapper.

(** An age lying in [18,100], bounds included; false of a missing age. *)
Definition in_range (a : fval) : bool :=
  fle (of_Z 18) a && fle a (of_Z 100).

Lemma select_fmap {A : Type} (p : A -> bool) (g : A -> cell) (xs : list A) :
  select (p <$> xs) (g <$> xs) = g <$> List.filter p xs.
Proof.
  induction xs as [|x xs IH]; [reflexivity|].
  rewrite !fmap_cons. cbn [select List.filter].
  destruct (p x); rewrite IH; reflexivity.
Qed.

Lemma col_median_numeric (xs : list fval) :
  col_median (CNum <$> xs) = Ok (median xs).
Proof. unfold col_median. now rewrite mapM_num_of. Qed.

Lemma fit_numeric (m0 : fval) (X : frame) (ages : list fval) :
  get_col X "Age" = Some (CNum <$> ages) ->
  fit (set_median_age init m0) X
  = Ok (set_median_age init
          (match List.filter in_range ages with
           | [] => m0
           | _ :: _ => median (List.filter in_range ages)
           end)).
Proof.
  intros H. unfold fit. rewrite H, !col_cmp_numeric. cbn [bind].
  unfold mask_and. rewrite zip_with_fmap_same.
  cbn [age_min age_max set_median_age init].
  change (fun a : fval => fge a (of_Z 18) && fle a (of_Z 100)) with in_range.
  rewrite select_fmap.
  destruct (List.filter in_range ages) as [|v vs] eqn:E; [reflexivity|].
  rewrite fmap_cons. cbv zeta iota. rewrite <- fmap_cons, col_median_numeric.
  reflexivity.
Qed.

Lemma fit_absent (self : t) (X : frame) :
  get_col X "Age" = None -> fit self X = Ok self.
Proof. intros H. unfold fit. now rewrite H. Qed.

End CapperFit.

(** ** The median of bounded values *)

Section MedianBounds.

Definition between (lo hi : Q) (x : fval) : Prop :=
  match x with
  | Fin q => (lo <= q <= hi)%Q
  | _ => False
  end.

Lemma in_range_between (a : fval) :
  in_range a = true <-> between 18 100 a.
Proof.
  unfold in_range. rewrite andb_true_iff.
  destruct a as [q| | |]; cbn [between]; try (split; [intros [? ?]; discriminate|tauto]).
  change (fle (of_Z 18) (Fin q)) with (Qle_bool 18 q).
  change (fle (Fin q) (of_Z 100)) with (Qle_bool q 100).
  now rewrite !Qle_bool_iff.
Qed.

Lemma dropna_between (lo hi : Q) (l : list fval) :
  Forall (between lo hi) l -> dropna l = l.
Proof.
  induction 1 as [|x l Hx Hl IH]; [reflexivity|].
  unfold dropna in *. cbn [List.filter].
  destruct x; cbn in Hx |- *; try contradiction. now rewrite IH.
Qed.

Lemma mean_between (lo hi a b : Q) :
  (lo <= a <= hi)%Q -> (lo <= b <= hi)%Q ->
  between lo hi (fdiv (fadd (Fin a) (Fin b)) (of_Z 2)).
Proof.
  intros [Ha1 Ha2] [Hb1 Hb2].
  change (between lo hi (Fin ((a + b) / 2))). cbn [between]. split.
  - apply Qle_shift_div_l; [reflexivity|].
    assert (E : (lo * 2 == lo + lo)%Q) by ring. rewrite E.
    now apply Qplus_le_compat.
  - apply Qle_shift_div_r; [reflexivity|].
    assert (E : (hi * 2 == hi + hi)%Q) by ring. rewrite E.
    now apply Qplus_le_compat.
Qed.

#[local] Instance not_above_total : Total not_above.
Proof.
  intros x y. unfold not_above.
  destruct (flt y x) eqn:E; [right|now left].
  destruct x as [a| | |], y as [b| | |]; cbn in E |- *;
    try reflexivity; try discriminate.
  apply Qltb_lt in E. apply Qltb_ge. now apply Qlt_le_weak.
Qed.

(** The list the median is read from: the non-missing values, in order. *)
Lemma median_reads_sorted (l : list fval) :
  Sorted not_above (merge_sort not_above (dropna l))
  /\ merge_sort not_above (dropna l) ≡ₚ dropna l.
Proof.
  split; [apply (Sorted_merge_sort not_above)|apply merge_sort_Permutation].
Qed.

Lemma median_between (lo hi : Q) (l : list fval) :
  l <> [] -> Forall (between lo hi) l -> between lo hi (median l).
Proof.
  intros Hne Hall. unfold median. rewrite (dropna_between lo hi l Hall).
  assert (Hs : Forall (between lo hi) (merge_sort not_above l))
    by (now rewrite merge_sort_Permutation).
  assert (Hlen : length (merge_sort not_above l) = length l)
    by (now rewrite merge_sort_Permutation).
  set (s := merge_sort not_above l) in *.
  assert (Hpos : (0 < length s)%nat).
  { rewrite Hlen. destruct l; [congruence|simpl; lia]. }
  destruct (length s) as [|k] eqn:En; [lia|]. rewrite <- En in *.
  assert (Hat : forall i, (i < length s)%nat -> between lo hi (nth i s NaN)).
  { intros i Hi. revert Hs. rewrite Forall_nth. intros Hs.
    apply Hs. exact Hi. }
  assert (Hhalf : (length s / 2 < length s)%nat) by (apply Nat.div_lt; lia).
  destruct (Nat.even (length s)).
  - pose proof (Hat (length s / 2 - 1)%nat ltac:(lia)) as H1.
    pose proof (Hat (length s / 2)%nat Hhalf) as H2.
    destruct (nth (length s / 2 - 1) s NaN) as [a| | |]; try contradiction.
    destruct (nth (length s / 2) s NaN) as [b| | |]; try contradiction.
    now apply mean_between.
  - now apply Hat.
Qed.

End MedianBounds.

Section CapperFitSpec.
Import OutlierCapper.

Lemma filter_in_range_spec (ages : list fval) (a : fval) :
  In a (List.filter in_range ages) <-> In a ages /\ between 18 100 a.
Proof. rewrite filter_In, in_range_between. reflexivity. Qed.

Lemma transform_age_column (m : fval) (Y : frame) (ages : list fval) :
  get_col Y "Age" = Some (CNum <$> ages) ->
  numeric_or_absent Y "Num_Bank_Accounts" ->
  exists Z,
    transform (set_median_age init m) Y = Ok Z
    /\ get_col Z "Age"
       = Some (CNum <$> (capped_age (set_median_age init m) <$> ages)).
Proof.
  intros HA HB. unfold transform, numeric_or_absent in *.
  rewrite (cap_age_numeric _ Y ages HA). cbn [bind].
  set (Y1 := set_col Y "Age" _).
  assert (EB : get_col Y1 "Num_Bank_Accounts" = get_col Y "Num_Bank_Accounts")
    by (apply get_set_ne; discriminate).
  destruct (get_col Y "Num_Bank_Accounts") as [acc|].
  - destruct HB as [accts ->].
    rewrite (cap_accounts_numeric _ Y1 accts EB). eexists. split; [reflexivity|].
    rewrite get_set_ne by discriminate. apply get_set_eq.
  - rewrite (cap_accounts_absent _ Y1 EB). eexists. split; [reflexivity|].
    apply get_set_eq.
Qed.

(** C3: fitting a newly built capper on a batch with a numeric [Age]
    column sets [median_age] to the median of exactly the ages lying in
    [18,100], bounds included (that median lies in [18,100] itself); with
    no such age, or no [Age] column, [median_age] keeps the default 30.
    Every later [transform] of the fitted capper writes this value into
    the out-of-range ages. *)
Theorem outlier_capper_fit_median (X : frame) :
  numeric_or_absent X "Age" ->
  exists c,
    fit init X = Ok c
    /\ (forall ages, get_col X "Age" = Some (CNum <$> ages) ->
        let valid := List.filter in_range ages in
        (forall a, In a valid <-> In a ages /\ between 18 100 a)
        /\ (valid <> [] ->
            median_age c = median valid /\ between 18 100 (median_age c))
        /\ (valid = [] -> median_age c = of_Z 30))
    /\ (get_col X "Age" = None -> median_age c = of_Z 30)
    /\ (forall Y ages,
        get_col Y "Age" = Some (CNum <$> ages) ->
        numeric_or_absent Y "Num_Bank_Accounts" ->
        exists Z,
          transform c Y = Ok Z
          /\ get_col Z "Age"
             = Some (CNum <$>
                 ((fun a => if flt a (of_Z 18) || fgt a (of_Z 100)
                            then median_age c else a) <$> ages))).
Proof.
  intros HA. unfold numeric_or_absent in HA.
  change init with (set_median_age init (of_Z 30)).
  destruct (get_col X "Age") as [age|] eqn:EA.
  - destruct HA as [ages ->].
    rewrite (fit_numeric (of_Z 30) X ages EA).
    eexists. split; [reflexivity|]. split; [|split; [discriminate|]].
    + intros ages0 E0. injection E0 as E0. apply fmap_CNum_inj in E0.
      subst ages0. cbn zeta. split; [apply filter_in_range_spec|].
      cbn [median_age set_median_age].
      destruct (List.filter in_range ages) as [|v vs] eqn:E.
      * split; [congruence|reflexivity].
      * split; [|discriminate]. intros _. split; [reflexivity|].
        apply median_between; [discriminate|].
        rewrite <- E. apply Forall_forall. intros a Ha.
        apply list_elem_of_In in Ha. now apply filter_in_range_spec in Ha.
    + intros Y ages0 HY HB. apply transform_age_column; assumption.
  - rewrite (fit_absent _ X EA).
    eexists. split; [reflexivity|]. split; [discriminate|].
    split; [reflexivity|].
    intros Y ages0 HY HB. apply transform_age_column; assumption.
Qed.

End CapperFitSpec.

(** ** A loop that rewrites the configured columns cell by cell *)

Section ColumnLoop.
Context (f : cell -> fval).

(** One iteration: the column [name], when present, becomes the numbers
    [f] makes of its cells. *)
Definition map_in (X : frame) (name : string) : frame :=
  match get_col X name with
  | Some v => set_col X name (CNum <$> (f <$> v))
  | None => X
  end.

Lemma map_in_other (X : frame) (name other : string) :
  name <> other -> get_col (map_in X name) other = get_col X other.
Proof.
  intros Hne. unfold map_in. destruct (get_col X name); [|reflexivity].
  now apply get_set_ne.
Qed.

Lemma map_in_same (X : frame) (name : string) :
  get_col (map_in X name) name
  = (fun v : column => CNum <$> (f <$> v)) <$> get_col X name.
Proof.
  unfold map_in. destruct (get_col X name) eqn:E; cbn.
  - apply get_set_eq.
  - exact E.
Qed.

Lemma fold_map_untouched (cols : list string) (X : frame) (name : string) :
  name ∉ cols -> get_col (fold_left map_in cols X) name = get_col X name.
Proof.
  revert X. induction cols as [|c cols IH]; intros X Hn; [reflexivity|].
  cbn [fold_left]. rewrite IH by (intros H; apply Hn; now constructor).
  apply map_in_other. intros ->. apply Hn. constructor.
Qed.

Lemma fold_map_configured (cols : list string) (X : frame) (name : string) :
  NoDup cols -> name ∈ cols ->
  get_col (fold_left map_in cols X) name
  = (fun v : column => CNum <$> (f <$> v)) <$> get_col X name.
Proof.
  intros Hnd. revert X. induction Hnd as [|c cols Hc Hnd IH]; intros X Hin.
  - inversion Hin.
  - cbn [fold_left]. apply elem_of_cons in Hin as [->|Hin].
    + rewrite fold_map_untouched by exact Hc. apply map_in_same.
    + rewrite IH by exact Hin. rewrite map_in_other; [reflexivity|].
      intros ->. contradiction.
Qed.

Lemma map_in_numeric_same (X : frame) (name : string) :
  numeric_or_absent (map_in X name) name.
Proof.
  unfold numeric_or_absent. rewrite map_in_same.
  destruct (get_col X name); cbn; eauto.
Qed.

Lemma map_in_numeric_kept (X : frame) (name other : string) :
  numeric_or_absent X other -> numeric_or_absent (map_in X name) other.
Proof.
  intros H. destruct (String.eqb name other) eqn:E.
  - apply String.eqb_eq in E. subst. apply map_in_numeric_same.
  - apply String.eqb_neq in E. unfold numeric_or_absent.
    now rewrite map_in_other.
Qed.

Lemma fold_map_numeric_kept (cols : list string) (X : frame) (name : string) :
  numeric_or_absent X name ->
  numeric_or_absent (fold_left map_in cols X) name.
Proof.
  revert X. induction cols as [|c cols IH]; intros X H; [exact H|].
  cbn [fold_left]. apply IH. now apply map_in_numeric_kept.
Qed.

Lemma fold_map_numeric (cols : list string) (X : frame) (name : string) :
  name ∈ cols -> numeric_or_absent (fold_left map_in cols X) name.
Proof.
  revert X. induction cols as [|c cols IH]; intros X Hin; [inversion Hin|].
  cbn [fold_left]. destruct (String.eqb c name) eqn:E.
  - apply String.eqb_eq in E. subst.
    apply fold_map_numeric_kept, map_in_numeric_same.
  - apply String.eqb_neq in E. apply elem_of_cons in Hin as [->|Hin];
      [congruence|]. now apply IH.
Qed.

End ColumnLoop.

(** ** RegexCleaner *)

Section Cleaner.
Import RegexCleaner.

(** What steps 1-4 make of one cell. *)
Definition cleaned (c : cell) : fval :=
  let s := re_sub (astype_str c) in
  if String.eqb s "" then NaN
  else match floatify s with
       | Some v => v
       | None => NaN
       end.

Lemma clean_column_cells (col : column) :
  clean_column col = Ok (CNum <$> (cleaned <$> col)).
Proof.
  unfold clean_column, replace_text, to_numeric.
  induction col as [|c col IH]; [reflexivity|].
  rewrite !fmap_cons. cbn [mapM]. rewrite IH.
  assert (Hc : to_numeric_cell ErrorsCoerce
                 (if String.eqb (re_sub (astype_str c)) ""
                  then CNum NaN else CStr (re_sub (astype_str c)))
               = Ok (CNum (cleaned c))).
  { unfold cleaned. cbn zeta.
    destruct (String.eqb (re_sub (astype_str c)) ""); [reflexivity|].
    cbn [to_numeric_cell]. now destruct (floatify _). }
  rewrite Hc. reflexivity.
Qed.

Lemma clean_step_ok (X : frame) (name : string) :
  clean_step X name = Ok (map_in cleaned X name).
Proof.
  unfold clean_step, map_in. destruct (get_col X name); [|reflexivity].
  now rewrite clean_column_cells.
Qed.

Lemma transform_fold (cols : list string) (X : frame) :
  transform {| columns := cols |} X = Ok (fold_left (map_in cleaned) cols X).
Proof.
  unfold transform. cbn [columns]. revert X.
  induction cols as [|c cols IH]; intros X; [reflexivity|].
  cbn [foldM fold_left]. rewrite clean_step_ok. cbn [bind]. apply IH.
Qed.

End Cleaner.

Section CleanerCells.
Import RegexCleaner.

Fixpoint all_kept (s : string) : bool :=
  match s with
  | EmptyString => true
  | String c r => kept c && all_kept r
  end.

Lemma re_sub_all_kept (s : string) : all_kept (re_sub s) = true.
Proof.
  induction s as [|c s IH]; [reflexivity|]. cbn [re_sub].
  destruct (kept c) eqn:E; [|exact IH]. cbn [all_kept]. now rewrite E.
Qed.

Lemma kept_to_lower (c : ascii) : kept c = true -> to_lower c = c.
Proof.
  unfold kept, to_lower, is_digit. intros H.
  destruct ((65 <=? nat_of_ascii c)%nat && (nat_of_ascii c <=? 90)%nat) eqn:E;
    [|reflexivity].
  exfalso.
  apply orb_true_iff in H as [H|H]; [apply orb_true_iff in H as [H|H]|].
  - apply andb_true_iff in E as [E1 E2]. apply andb_true_iff in H as [_ H].
    apply Nat.leb_le in E1, H. lia.
  - apply Ascii.eqb_eq in H. subst c. vm_compute in E. discriminate.
  - apply Ascii.eqb_eq in H. subst c. vm_compute in E. discriminate.
Qed.

Lemma all_kept_lower (s : string) : all_kept s = true -> lower s = s.
Proof.
  induction s as [|c s IH]; [reflexivity|]. cbn [all_kept lower].
  intros H. apply andb_true_iff in H as [Hc Hs].
  now rewrite kept_to_lower, IH.
Qed.

(** Text left by the regex never spells an infinity: what parses is finite. *)
Lemma floatify_kept (s : string) (v : fval) :
  all_kept s = true -> floatify s = Some v -> exists q, v = Fin q.
Proof.
  intros Hk. unfold floatify. destruct (xstrtod s) as [q|].
  - intros [= <-]. now exists q.
  - rewrite (all_kept_lower s Hk).
    repeat case_bool_decide; try discriminate;
      repeat match goal with
        | H : _ ∈ _ :: _ |- _ => apply elem_of_cons in H as [->|H]
        | H : _ ∈ [] |- _ => inversion H
        end; discriminate.
Qed.

(** The rule of the specification for one cell [c], giving the number [x]. *)
Definition cleaned_row (c : cell) (x : fval) : Prop :=
  let s := re_sub (astype_str c) in
  (s = "" -> x = NaN)
  /\ (floatify s = None -> x = NaN)
  /\ (forall v, s <> "" -> floatify s = Some v -> x = v)
  /\ (x = NaN \/ exists q, x = Fin q).

Lemma cleaned_cleaned_row (c : cell) : cleaned_row c (cleaned c).
Proof.
  unfold cleaned_row, cleaned. cbn zeta.
  set (s := re_sub (astype_str c)).
  pose proof (re_sub_all_kept (astype_str c)) as Hk. fold s in Hk.
  destruct (String.eqb s "") eqn:E.
  - apply String.eqb_eq in E. repeat split; auto; congruence.
  - apply String.eqb_neq in E.
    destruct (floatify s) as [v|] eqn:F.
    + repeat split; try congruence.
      right. eapply floatify_kept; eauto.
    + repeat split; auto; congruence.
Qed.

(** The cells of a configured column after [transform], row by row. *)
Lemma transform_rows (cols : list string) (X : frame) (name : string)
  (col : column) :
  NoDup cols -> name ∈ cols -> get_col X name = Some col ->
  exists Y,
    transform {| columns := cols |} X = Ok Y
    /\ get_col Y name = Some (CNum <$> (cleaned <$> col))
    /\ forall i c, col !! i = Some c ->
         (CNum <$> (cleaned <$> col)) !! i = Some (CNum (cleaned c)).
Proof.
  intros Hnd Hin Hcol. rewrite transform_fold. eexists. split; [reflexivity|].
  split.
  - rewrite fold_map_configured by assumption. now rewrite Hcol.
  - intros i c Hc. rewrite <- list_fmap_compose, list_lookup_fmap, Hc.
    reflexivity.
Qed.

(** C7: [transform] never raises, whatever the cells hold.  Every cell of
    a configured column comes out as a number or the missing marker: when
    nothing is left of its text after the regex it is missing, when what is
    left does not parse it is missing, and otherwise it is the parsed
    value, which is finite. *)
Theorem regex_cleaner_never_raises (self : RegexCleaner.t) (X : frame) :
  exists Y,
    transform self X = Ok Y
    /\ (forall name, name ∈ columns self -> numeric_or_absent Y name)
    /\ (NoDup (columns self) ->
        forall name col, name ∈ columns self -> get_col X name = Some col ->
        exists col',
          get_col Y name = Some col'
          /\ length col' = length col
          /\ forall i c, col !! i = Some c ->
               exists x, col' !! i = Some (CNum x) /\ cleaned_row c x).
Proof.
  destruct self as [cols]. cbn [columns]. rewrite transform_fold.
  eexists. split; [reflexivity|]. split.
  - intros name Hin. now apply fold_map_numeric.
  - intros Hnd name col Hin Hcol.
    exists (CNum <$> (cleaned <$> col)). split; [|split].
    + rewrite fold_map_configured by assumption. now rewrite Hcol.
    + now rewrite !length_fmap.
    + intros i c Hc. exists (cleaned c). split.
      * rewrite <- list_fmap_compose, list_lookup_fmap, Hc. reflexivity.
      * apply cleaned_cleaned_row.
Qed.

End CleanerCells.

(** ** Decimal numerals and the scanner *)

Section Numerals.

Fixpoint all_digits (s : string) : bool :=
  match s with
  | EmptyString => true
  | String c r => is_digit c && all_digits r
  end.

(** The value of a digit string read as an integer, and read as the
    digits after the point. *)
Fixpoint int_value (ds : string) : Z :=
  match ds with
  | EmptyString => 0
  | String c r => digit_val c * 10 ^ Z.of_nat (String.length r) + int_value r
  end.

Fixpoint frac_value (ds : string) : Q :=
  match ds with
  | EmptyString => 0
  | String c r => (inject_Z (digit_val c) + frac_value r) / 10
  end.

Definition decimal_value (neg : bool) (ip : string) (frac : option string) : Q :=
  let v := (inject_Z (int_value ip)
            + match frac with Some fp => frac_value fp | None => 0 end)%Q in
  if neg then (- v)%Q else v.

(** The text of a numeral: a leading minus or none, integer digits, and a
    dot with fraction digits or none. *)
Definition numeral (neg : bool) (ip : string) (frac : option string) : string :=
  (if neg then "-" else "")
    +:+ ip +:+ match frac with Some fp => "." +:+ fp | None => "" end.

Definition digit_count (ip : string) (frac : option string) : nat :=
  (String.length ip
   + match frac with Some fp => String.length fp | None => 0 end)%nat.

(** Where a digit scan stops: at the end or before a non-digit. *)
Definition stops (rest : string) : Prop :=
  match rest with
  | EmptyString => True
  | String c _ => is_digit c = false
  end.

Lemma scan_digits_app (ds rest : string) (acc : Z) (n : nat) :
  all_digits ds = true -> stops rest ->
  scan_digits (ds +:+ rest) acc n
  = (acc * 10 ^ Z.of_nat (String.length ds) + int_value ds,
     (n + String.length ds)%nat, rest).
Proof.
  intros Hd Hr. revert acc n.
  induction ds as [|c ds IH]; intros acc n.
  - change ("" +:+ rest) with rest.
    cbn [String.length int_value]. rewrite Nat.add_0_r.
    replace (acc * 10 ^ Z.of_nat 0 + 0) with acc by (cbn; lia).
    destruct rest as [|c r]; [reflexivity|]. cbn [stops] in Hr. cbn [scan_digits].
    now rewrite Hr.
  - cbn [all_digits] in Hd. apply andb_true_iff in Hd as [Hc Hd].
    change (String c ds +:+ rest) with (String c (ds +:+ rest)).
    cbn [scan_digits]. rewrite Hc, (IH Hd).
    cbn [String.length int_value].
    rewrite Nat2Z.inj_succ, Z.pow_succ_r by lia.
    apply f_equal2; [apply f_equal2|reflexivity]; [ring|lia].
Qed.

Lemma digit_not_space (c : ascii) : is_digit c = true -> is_space c = false.
Proof.
  unfold is_digit, is_space. intros H.
  apply andb_true_iff in H as [H1 H2]. apply Nat.leb_le in H1, H2.
  apply orb_false_iff. split.
  - apply Nat.eqb_neq. lia.
  - apply andb_false_iff. right. apply Nat.leb_gt. lia.
Qed.

End Numerals.

Section ScanNumeral.

Lemma is_digit_not_sign (c : ascii) :
  is_digit c = true -> Ascii.eqb c "-" = false /\ Ascii.eqb c "+" = false.
Proof.
  intros H. split.
  - destruct (Ascii.eqb c "-") eqn:E; [|reflexivity].
    apply Ascii.eqb_eq in E. subst c. vm_compute in H. discriminate.
  - destruct (Ascii.eqb c "+") eqn:E; [|reflexivity].
    apply Ascii.eqb_eq in E. subst c. vm_compute in H. discriminate.
Qed.

Lemma is_digit_not_dot (c : ascii) : is_digit c = true -> Ascii.eqb c "." = false.
Proof.
  intros H. destruct (Ascii.eqb c ".") eqn:E; [|reflexivity].
  apply Ascii.eqb_eq in E. subst c. vm_compute in H. discriminate.
Qed.

Lemma append_empty_r (s : string) : s +:+ "" = s.
Proof.
  induction s as [|c s IH]; [reflexivity|].
  change (String c s +:+ "") with (String c (s +:+ "")). now rewrite IH.
Qed.

(** The digits after the integer part: the dot and the fraction. *)
Definition tail_text (frac : option string) : string :=
  match frac with Some fp => "." +:+ fp | None => "" end.

Definition frac_digits (frac : option string) : string :=
  match frac with Some fp => fp | None => "" end.

Lemma scan_body (ip : string) (frac : option string) :
  all_digits ip = true -> all_digits (frac_digits frac) = true ->
  scan_digits (ip +:+ tail_text frac) 0 0
  = (int_value ip, String.length ip, tail_text frac)
  /\ scan_fraction (tail_text frac) (int_value ip)
     = (int_value ip * 10 ^ Z.of_nat (String.length (frac_digits frac))
        + int_value (frac_digits frac),
        String.length (frac_digits frac), "").
Proof.
  intros Hi Hf. split.
  - rewrite scan_digits_app; [reflexivity|exact Hi|].
    destruct frac; cbn; [reflexivity|exact I].
  - destruct frac as [fp|]; cbn [tail_text frac_digits] in *.
    + change ("." +:+ fp) with (String "." fp). cbn [scan_fraction].
      rewrite Ascii.eqb_refl.
      rewrite <- (append_empty_r fp) at 1.
      rewrite scan_digits_app; [reflexivity|exact Hf|exact I].
    + cbn [scan_fraction String.length int_value].
      f_equal. f_equal. cbn. lia.
Qed.

Lemma scan_head (neg : bool) (ip : string) (frac : option string) :
  all_digits ip = true ->
  scan_sign (skip_space (numeral neg ip frac)) = (neg, ip +:+ tail_text frac).
Proof.
  intros Hi. unfold numeral. fold (tail_text frac). destruct neg.
  - reflexivity.
  - change ("" +:+ ip +:+ tail_text frac) with (ip +:+ tail_text frac).
    destruct ip as [|c ip].
    + change ("" +:+ tail_text frac) with (tail_text frac).
      destruct frac; reflexivity.
    + cbn [all_digits] in Hi. apply andb_true_iff in Hi as [Hc _].
      change (String c ip +:+ tail_text frac)
        with (String c (ip +:+ tail_text frac)).
      cbn [skip_space]. rewrite (digit_not_space c Hc). cbn [scan_sign].
      destruct (is_digit_not_sign c Hc) as [-> ->]. reflexivity.
Qed.

(** All the digits of a numeral read as one signed integer. *)
Definition mantissa (neg : bool) (ip : string) (frac : option string) : Z :=
  let m := int_value ip * 10 ^ Z.of_nat (String.length (frac_digits frac))
           + int_value (frac_digits frac) in
  if neg then - m else m.

(** The scanner on a numeral with at least one digit. *)
Lemma xstrtod_numeral (neg : bool) (ip : string) (frac : option string) :
  all_digits ip = true -> all_digits (frac_digits frac) = true ->
  digit_count ip frac <> O ->
  xstrtod (numeral neg ip frac)
  = Some (Qred (inject_Z (mantissa neg ip frac)
                * pow10 (0 - Z.of_nat (String.length (frac_digits frac))))).
Proof.
  intros Hi Hf Hn. unfold xstrtod.
  rewrite (scan_head neg ip frac Hi).
  destruct (scan_body ip frac Hi Hf) as [-> ->].
  assert (Hc : (String.length ip + String.length (frac_digits frac))%nat
               = digit_count ip frac) by (destruct frac; reflexivity).
  rewrite Hc. destruct (digit_count ip frac); [congruence|]. reflexivity.
Qed.

End ScanNumeral.

Section NumeralValue.

Lemma pow10_pos (k : nat) : 0 < 10 ^ Z.of_nat k.
Proof. apply Z.pow_pos_nonneg; lia. Qed.

Lemma inject_pow10_nonzero (k : nat) : ~ (inject_Z (10 ^ Z.of_nat k) == 0)%Q.
Proof.
  intros H. pose proof (pow10_pos k) as Hp.
  unfold Qeq in H. cbn in H. lia.
Qed.

Lemma pow10_neg (k : nat) :
  (pow10 (0 - Z.of_nat k) == / inject_Z (10 ^ Z.of_nat k))%Q.
Proof.
  unfold pow10. destruct k as [|k]; [reflexivity|].
  destruct (0 <=? 0 - Z.of_nat (S k)) eqn:E; [apply Z.leb_le in E; lia|].
  replace (- (0 - Z.of_nat (S k))) with (Z.of_nat (S k)) by lia.
  pose proof (pow10_pos (S k)) as Hp.
  destruct (10 ^ Z.of_nat (S k)) as [|p|p]; try lia. reflexivity.
Qed.

Lemma frac_value_int (fp : string) :
  (frac_value fp
   == inject_Z (int_value fp) / inject_Z (10 ^ Z.of_nat (String.length fp)))%Q.
Proof.
  induction fp as [|c r IH]; [reflexivity|].
  cbn [frac_value int_value String.length]. rewrite IH.
  rewrite Nat2Z.inj_succ, Z.pow_succ_r by lia.
  rewrite inject_Z_plus, !inject_Z_mult.
  pose proof (inject_pow10_nonzero (String.length r)) as Hnz.
  set (P := inject_Z (10 ^ Z.of_nat (String.length r))) in *.
  change (inject_Z 10) with 10%Q. field. exact Hnz.
Qed.

Lemma numeral_value (neg : bool) (ip : string) (frac : option string) :
  (Qred (inject_Z (mantissa neg ip frac)
         * pow10 (0 - Z.of_nat (String.length (frac_digits frac))))
   == decimal_value neg ip frac)%Q.
Proof.
  rewrite Qred_correct, pow10_neg. unfold decimal_value, mantissa. cbn zeta.
  set (k := String.length (frac_digits frac)).
  set (F := match frac with Some fp => frac_value fp | None => 0%Q end).
  assert (Hf : (F == inject_Z (int_value (frac_digits frac))
                     / inject_Z (10 ^ Z.of_nat k))%Q).
  { subst F k. destruct frac as [fp|]; [apply frac_value_int|reflexivity]. }
  pose proof (inject_pow10_nonzero k) as Hnz.
  assert (Hm : (inject_Z (int_value ip * 10 ^ Z.of_nat k
                          + int_value (frac_digits frac))
                * / inject_Z (10 ^ Z.of_nat k)
                == inject_Z (int_value ip) + F)%Q).
  { rewrite Hf, inject_Z_plus, inject_Z_mult.
    set (P := inject_Z (10 ^ Z.of_nat k)) in *. field. exact Hnz. }
  destruct neg.
  - rewrite inject_Z_opp, <- Hm. ring.
  - exact Hm.
Qed.

End NumeralValue.

(** ** The cleaner on a numeral buried in other characters *)

Section CleanerNumeral.
Import RegexCleaner.

(** [interspersed t s]: the text [t] is the numeric characters [s] (digits,
    dots, minus signs), in order, with non-numeric characters anywhere
    between, before and after them. *)
Inductive interspersed : string -> string -> Prop :=
| inter_end : interspersed "" ""
| inter_numeric (c : ascii) (t s : string) :
    kept c = true -> interspersed t s -> interspersed (String c t) (String c s)
| inter_other (c : ascii) (t s : string) :
    kept c = false -> interspersed t s -> interspersed (String c t) s.

Lemma interspersed_re_sub (t s : string) : interspersed t s -> re_sub t = s.
Proof.
  induction 1 as [|c t s Hc _ IH|c t s Hc _ IH]; cbn [re_sub];
    [reflexivity| |]; rewrite Hc; [now rewrite IH|exact IH].
Qed.

Lemma re_sub_interspersed (t : string) : interspersed t (re_sub t).
Proof.
  induction t as [|c t IH]; [constructor|]. cbn [re_sub].
  destruct (kept c) eqn:E; now constructor.
Qed.

Lemma numeral_not_empty (neg : bool) (ip : string) (frac : option string) :
  digit_count ip frac <> O -> numeral neg ip frac <> "".
Proof.
  intros Hn. unfold numeral. destruct neg; [discriminate|].
  change ("" +:+ ip +:+ tail_text frac) with (ip +:+ tail_text frac).
  destruct ip as [|c ip]; [|discriminate].
  destruct frac as [fp|]; [discriminate|]. contradiction.
Qed.

Lemma cleaned_numeral (c : cell) (neg : bool) (ip : string)
  (frac : option string) :
  interspersed (astype_str c) (numeral neg ip frac) ->
  all_digits ip = true -> all_digits (frac_digits frac) = true ->
  digit_count ip frac <> O ->
  exists q, cleaned c = Fin q /\ (q == decimal_value neg ip frac)%Q.
Proof.
  intros Ht Hi Hf Hn. apply interspersed_re_sub in Ht.
  unfold cleaned. cbn zeta. rewrite Ht.
  destruct (String.eqb (numeral neg ip frac) "") eqn:E.
  - apply String.eqb_eq in E. now apply numeral_not_empty in E.
  - unfold floatify. rewrite (xstrtod_numeral neg ip frac Hi Hf Hn).
    eexists. split; [reflexivity|]. apply numeral_value.
Qed.

(** C1: a cell of a configured column whose text is a numeral (digits, at
    most one dot, at most one minus, the minus leading) with any
    non-numeric characters interspersed is cleaned to exactly the value of
    that numeral: the integer digits plus the fraction digits, negated
    under a minus. *)
Theorem regex_cleaner_recovers_numeral (cols : list string) (X : frame)
  (name : string) (col : column) (i : nat) (c : cell)
  (neg : bool) (ip : string) (frac : option string) :
  NoDup cols -> name ∈ cols ->
  get_col X name = Some col -> col !! i = Some c ->
  interspersed (astype_str c) (numeral neg ip frac) ->
  all_digits ip = true -> all_digits (frac_digits frac) = true ->
  digit_count ip frac <> O ->
  exists Y col' q,
    transform {| columns := cols |} X = Ok Y
    /\ get_col Y name = Some col'
    /\ col' !! i = Some (CNum (Fin q))
    /\ (q == decimal_value neg ip frac)%Q.
Proof.
  intros Hnd Hin Hcol Hc Ht Hi Hf Hn.
  destruct (transform_rows cols X name col Hnd Hin Hcol) as (Y & HY & Hget & Hrow).
  destruct (cleaned_numeral c neg ip frac Ht Hi Hf Hn) as (q & Hq & Hv).
  exists Y, (CNum <$> (cleaned <$> col)), q.
  repeat split; try assumption.
  rewrite (Hrow i c Hc). now rewrite Hq.
Qed.

End CleanerNumeral.

(** ** FeatureEngineer *)

Section Engineer.
Import FeatureEngineer.

(** What [pd.to_numeric(..., errors='coerce').fillna(0)] makes of a cell. *)
Definition coerced (c : cell) : fval :=
  let x := match c with
           | CNum x => x
           | CStr s => match floatify s with Some v => v | None => NaN end
           end in
  if isna x then of_Z 0 else x.

(** The three ratios of one row. *)
Definition dti (debt income : fval) : fval :=
  fdiv debt (fadd income (of_Z 1)).

Definition utilization (debt cards : fval) : fval :=
  fdiv debt (fadd (fmul cards (of_Z 5000)) (of_Z 1)).

Definition stability (income salary : fval) : fval :=
  fdiv (fabs (fsub income (fmul salary (of_Z 12)))) (fadd income (of_Z 1)).

(** The numbers of a column. *)
Definition nums (X : frame) (name : string) : option (list fval) :=
  (fun col : column =>
     (fun c => match c with CNum x => x | CStr _ => NaN end) <$> col)
    <$> get_col X name.

Lemma nums_numeric (X : frame) (name : string) (xs : list fval) :
  get_col X name = Some (CNum <$> xs) -> nums X name = Some xs.
Proof.
  intros H. unfold nums. rewrite H. cbn. f_equal.
  rewrite <- list_fmap_compose. apply list_fmap_id.
Qed.

Lemma nums_absent (X : frame) (name : string) :
  get_col X name = None -> nums X name = None.
Proof. intros H. unfold nums. now rewrite H. Qed.

Lemma nums_same (X Y : frame) (name : string) :
  get_col Y name = get_col X name -> nums Y name = nums X name.
Proof. intros H. unfold nums. now rewrite H. Qed.

Lemma coerce_step_ok (X : frame) (name : string) :
  coerce_step X name = Ok (map_in coerced X name).
Proof.
  unfold coerce_step, map_in. destruct (get_col X name) as [v|]; [|reflexivity].
  assert (H : to_numeric ErrorsCoerce v
              = Ok ((fun c => CNum match c with
                                   | CNum x => x
                                   | CStr s => match floatify s with
                                               | Some w => w
                                               | None => NaN
                                               end
                                   end) <$> v)).
  { unfold to_numeric. apply mapM_ok. intros c _.
    destruct c as [s|x]; cbn [to_numeric_cell]; [|reflexivity].
    now destruct (floatify s). }
  rewrite H. cbn [bind]. unfold fillna.
  rewrite <- !list_fmap_compose. do 2 f_equal.
  apply list_fmap_ext. intros i c _. unfold compose, coerced. cbn.
  now destruct (isna _).
Qed.

Lemma coerce_fold (cols : list string) (X : frame) :
  foldM coerce_step cols X = Ok (fold_left (map_in coerced) cols X).
Proof.
  revert X. induction cols as [|c cols IH]; intros X; [reflexivity|].
  cbn [foldM fold_left]. rewrite coerce_step_ok. cbn [bind]. apply IH.
Qed.

Lemma zip_with_nested {A B B' C C' D E : Type} (f : C' -> D -> E)
  (g : C -> C') (h : A -> B' -> C) (m : B -> B') (k : A -> D)
  (xs : list A) (ys : list B) :
  zip_with f (g <$> zip_with h xs (m <$> ys)) (k <$> xs)
  = zip_with (fun x y => f (g (h x (m y))) (k x)) xs ys.
Proof.
  revert ys. induction xs as [|x xs IH]; intros [|y ys]; try reflexivity.
  rewrite !fmap_cons. cbn [zip_with]. rewrite !fmap_cons. cbn [zip_with].
  now rewrite IH.
Qed.

Lemma add_dti_numeric (X : frame) (debt income : list fval) :
  get_col X "Outstanding_Debt" = Some (CNum <$> debt) ->
  get_col X "Annual_Income" = Some (CNum <$> income) ->
  add_dti X = Ok (set_col X "DTI_Ratio" (CNum <$> zip_with dti debt income)).
Proof.
  intros Hd Hi. unfold add_dti. rewrite Hd, Hi, col_map_numeric. cbn [bind].
  rewrite col_map2_numeric. cbn [bind]. now rewrite zip_with_fmap_r.
Qed.

Lemma add_utilization_numeric (X : frame) (debt cards : list fval) :
  get_col X "Outstanding_Debt" = Some (CNum <$> debt) ->
  get_col X "Num_Credit_Card" = Some (CNum <$> cards) ->
  add_utilization X
  = Ok (set_col X "Utilization_Proxy"
          (CNum <$> zip_with utilization debt cards)).
Proof.
  intros Hd Hc. unfold add_utilization.
  rewrite Hd, Hc, col_map_numeric. cbn [bind].
  rewrite col_map_numeric. cbn [bind].
  rewrite col_map2_numeric. cbn [bind].
  now rewrite <- list_fmap_compose, zip_with_fmap_r.
Qed.

Lemma add_stability_numeric (X : frame) (income salary : list fval) :
  get_col X "Annual_Income" = Some (CNum <$> income) ->
  get_col X "Monthly_Inhand_Salary" = Some (CNum <$> salary) ->
  add_stability X
  = Ok (set_col X "Income_Stability"
          (CNum <$> zip_with stability income salary)).
Proof.
  intros Hi Hs. unfold add_stability.
  rewrite Hi, Hs, col_map_numeric. cbn [bind].
  rewrite col_map2_numeric. cbn [bind].
  rewrite col_map_numeric. cbn [bind].
  rewrite col_map_numeric. cbn [bind].
  rewrite col_map2_numeric. cbn [bind].
  rewrite zip_with_nested. reflexivity.
Qed.

(** One ratio step on a frame whose two inputs are numeric or absent: the
    ratio column is written when both are present, nothing else moves. *)
Definition ratio_step (step : frame -> result frame) (out a b : string)
  (ratio : fval -> fval -> fval) : Prop :=
  forall X,
    numeric_or_absent X a -> numeric_or_absent X b ->
    exists Y,
      step X = Ok Y
      /\ (forall n, n <> out -> get_col Y n = get_col X n)
      /\ get_col Y out
         = match nums X a, nums X b with
           | Some xs, Some ys => Some (CNum <$> zip_with ratio xs ys)
           | _, _ => get_col X out
           end.

Lemma add_dti_step :
  ratio_step add_dti "DTI_Ratio" "Outstanding_Debt" "Annual_Income" dti.
Proof.
  intros X Ha Hb. unfold numeric_or_absent in Ha, Hb.
  destruct (get_col X "Outstanding_Debt") as [a|] eqn:Ea.
  - destruct Ha as [xs ->].
    destruct (get_col X "Annual_Income") as [b|] eqn:Eb.
    + destruct Hb as [ys ->]. rewrite (add_dti_numeric X xs ys Ea Eb).
      eexists. split; [reflexivity|]. split.
      * intros n Hn. now apply get_set_ne.
      * rewrite (nums_numeric X _ xs Ea), (nums_numeric X _ ys Eb).
        apply get_set_eq.
    + unfold add_dti. rewrite Ea, Eb. eexists. split; [reflexivity|].
      split; [reflexivity|].
      rewrite (nums_numeric X _ xs Ea), (nums_absent X _ Eb). reflexivity.
  - unfold add_dti. rewrite Ea. eexists. split; [reflexivity|].
    split; [reflexivity|]. rewrite (nums_absent X _ Ea). reflexivity.
Qed.

Lemma add_utilization_step :
  ratio_step add_utilization "Utilization_Proxy" "Outstanding_Debt"
    "Num_Credit_Card" utilization.
Proof.
  intros X Ha Hb. unfold numeric_or_absent in Ha, Hb.
  destruct (get_col X "Outstanding_Debt") as [a|] eqn:Ea.
  - destruct Ha as [xs ->].
    destruct (get_col X "Num_Credit_Card") as [b|] eqn:Eb.
    + destruct Hb as [ys ->]. rewrite (add_utilization_numeric X xs ys Ea Eb).
      eexists. split; [reflexivity|]. split.
      * intros n Hn. now apply get_set_ne.
      * rewrite (nums_numeric X _ xs Ea), (nums_numeric X _ ys Eb).
        apply get_set_eq.
    + unfold add_utilization. rewrite Ea, Eb. eexists. split; [reflexivity|].
      split; [reflexivity|].
      rewrite (nums_numeric X _ xs Ea), (nums_absent X _ Eb). reflexivity.
  - unfold add_utilization. rewrite Ea. eexists. split; [reflexivity|].
    split; [reflexivity|]. rewrite (nums_absent X _ Ea). reflexivity.
Qed.

Lemma add_stability_step :
  ratio_step add_stability "Income_Stability" "Annual_Income"
    "Monthly_Inhand_Salary" stability.
Proof.
  intros X Ha Hb. unfold numeric_or_absent in Ha, Hb.
  destruct (get_col X "Annual_Income") as [a|] eqn:Ea.
  - destruct Ha as [xs ->].
    destruct (get_col X "Monthly_Inhand_Salary") as [b|] eqn:Eb.
    + destruct Hb as [ys ->]. rewrite (add_stability_numeric X xs ys Ea Eb).
      eexists. split; [reflexivity|]. split.
      * intros n Hn. now apply get_set_ne.
      * rewrite (nums_numeric X _ xs Ea), (nums_numeric X _ ys Eb).
        apply get_set_eq.
    + unfold add_stability. rewrite Ea, Eb. eexists. split; [reflexivity|].
      split; [reflexivity|].
      rewrite (nums_numeric X _ xs Ea), (nums_absent X _ Eb). reflexivity.
  - unfold add_stability. rewrite Ea. eexists. split; [reflexivity|].
    split; [reflexivity|]. rewrite (nums_absent X _ Ea). reflexivity.
Qed.

(** The coerced numbers of an input column. *)
Definition inputs (X : frame) (name : string) : option (list fval) :=
  (fun col : column => coerced <$> col) <$> get_col X name.

Lemma numeric_cols_NoDup : NoDup numeric_cols.
Proof. compute_done. Qed.

Lemma coerced_column (X : frame) (name : string) :
  name ∈ numeric_cols ->
  get_col (fold_left (map_in coerced) numeric_cols X) name
  = (fun xs : list fval => CNum <$> xs) <$> inputs X name.
Proof.
  intros Hin. rewrite fold_map_configured by (exact numeric_cols_NoDup || exact Hin).
  unfold inputs. now destruct (get_col X name).
Qed.

Lemma coerced_nums (X : frame) (name : string) :
  name ∈ numeric_cols ->
  nums (fold_left (map_in coerced) numeric_cols X) name = inputs X name.
Proof.
  intros Hin. unfold nums. rewrite (coerced_column X name Hin).
  destruct (inputs X name) as [xs|]; [|reflexivity]. cbn. f_equal.
  rewrite <- list_fmap_compose. apply list_fmap_id.
Qed.

Lemma numeric_cols_not_ratio (name : string) :
  name ∈ numeric_cols ->
  name <> "DTI_Ratio" /\ name <> "Utilization_Proxy"
  /\ name <> "Income_Stability".
Proof.
  unfold numeric_cols. intros H.
  repeat (apply elem_of_cons in H as [->|H]; [repeat split; discriminate|]).
  inversion H.
Qed.

(** The whole of [transform], column by column. *)
Lemma engineer_transform (X : frame) :
  exists Y,
    transform X = Ok Y
    /\ (forall name, name ∈ numeric_cols ->
        get_col Y name = (fun xs : list fval => CNum <$> xs) <$> inputs X name)
    /\ get_col Y "DTI_Ratio"
       = match inputs X "Outstanding_Debt", inputs X "Annual_Income" with
         | Some debt, Some income => Some (CNum <$> zip_with dti debt income)
         | _, _ => get_col X "DTI_Ratio"
         end
    /\ get_col Y "Utilization_Proxy"
       = match inputs X "Outstanding_Debt", inputs X "Num_Credit_Card" with
         | Some debt, Some cards =>
             Some (CNum <$> zip_with utilization debt cards)
         | _, _ => get_col X "Utilization_Proxy"
         end
    /\ get_col Y "Income_Stability"
       = match inputs X "Annual_Income", inputs X "Monthly_Inhand_Salary" with
         | Some income, Some salary =>
             Some (CNum <$> zip_with stability income salary)
         | _, _ => get_col X "Income_Stability"
         end.
Proof.
  unfold transform. rewrite coerce_fold. cbn [bind].
  set (X1 := fold_left (map_in coerced) numeric_cols X).
  assert (Hdebt : "Outstanding_Debt" ∈ numeric_cols) by compute_done.
  assert (Hinc : "Annual_Income" ∈ numeric_cols) by compute_done.
  assert (Hcard : "Num_Credit_Card" ∈ numeric_cols) by compute_done.
  assert (Hsal : "Monthly_Inhand_Salary" ∈ numeric_cols) by compute_done.
  assert (H1 : forall name, name ∈ numeric_cols -> numeric_or_absent X1 name)
    by (intros name Hin; now apply fold_map_numeric).
  assert (U1 : forall name, name ∉ numeric_cols -> get_col X1 name = get_col X name)
    by (intros name Hn; now apply fold_map_untouched).
  destruct (add_dti_step X1 (H1 _ Hdebt) (H1 _ Hinc)) as (X2 & E2 & K2 & R2).
  rewrite E2. cbn [bind].
  assert (H2 : forall name, name ∈ numeric_cols -> numeric_or_absent X2 name).
  { intros name Hin. unfold numeric_or_absent.
    rewrite K2 by (apply numeric_cols_not_ratio; exact Hin). now apply H1. }
  destruct (add_utilization_step X2 (H2 _ Hdebt) (H2 _ Hcard))
    as (X3 & E3 & K3 & R3).
  rewrite E3. cbn [bind].
  assert (H3 : forall name, name ∈ numeric_cols -> numeric_or_absent X3 name).
  { intros name Hin. unfold numeric_or_absent.
    rewrite K3 by (apply numeric_cols_not_ratio; exact Hin). now apply H2. }
  destruct (add_stability_step X3 (H3 _ Hinc) (H3 _ Hsal))
    as (Y & E4 & K4 & R4).
  exists Y. split; [exact E4|].
  assert (N1 : forall name, name ∈ numeric_cols -> nums X1 name = inputs X name)
    by (intros name Hin; now apply coerced_nums).
  assert (N2 : forall name, name ∈ numeric_cols -> nums X2 name = inputs X name).
  { intros name Hin. rewrite <- (N1 name Hin). apply nums_same.
    apply K2, numeric_cols_not_ratio, Hin. }
  assert (N3 : forall name, name ∈ numeric_cols -> nums X3 name = inputs X name).
  { intros name Hin. rewrite <- (N2 name Hin). apply nums_same.
    apply K3, numeric_cols_not_ratio, Hin. }
  split; [|split; [|split]].
  - intros name Hin. destruct (numeric_cols_not_ratio name Hin) as (A & B & C).
    rewrite (K4 name C), (K3 name B), (K2 name A).
    now apply coerced_column.
  - rewrite K4, K3 by discriminate. rewrite R2.
    rewrite !N1 by assumption.
    rewrite U1 by compute_done. reflexivity.
  - rewrite K4 by discriminate. rewrite R3, !N2 by assumption.
    rewrite K2 by discriminate. rewrite U1 by compute_done. reflexivity.
  - rewrite R4, !N3 by assumption.
    rewrite K3, K2 by discriminate. rewrite U1 by compute_done. reflexivity.
Qed.

End Engineer.

Section EngineerSpec.
Import FeatureEngineer.

(** C5: [transform] never raises, and adds each ratio whose two inputs are
    present, computed row by row from the input columns as the returned
    batch holds them (coerced to numbers): debt over income plus 1.0, debt
    over cards times 5000 plus 1.0, and the absolute gap between income and
    twelve salaries over income plus 1.0.  A ratio with an input column
    absent is skipped (its column is as in the input, normally absent) and
    the other ratios are still added. *)
Theorem feature_engineer_ratios (X : frame) :
  exists Y,
    transform X = Ok Y
    /\ (forall name, name ∈ numeric_cols ->
        get_col Y name = (fun xs : list fval => CNum <$> xs) <$> inputs X name)
    /\ get_col Y "DTI_Ratio"
       = match inputs X "Outstanding_Debt", inputs X "Annual_Income" with
         | Some debt, Some income =>
             Some (CNum <$> zip_with
                     (fun d i => fdiv d (fadd i (of_Z 1))) debt income)
         | _, _ => get_col X "DTI_Ratio"
         end
    /\ get_col Y "Utilization_Proxy"
       = match inputs X "Outstanding_Debt", inputs X "Num_Credit_Card" with
         | Some debt, Some cards =>
             Some (CNum <$> zip_with
                     (fun d c => fdiv d (fadd (fmul c (of_Z 5000)) (of_Z 1)))
                     debt cards)
         | _, _ => get_col X "Utilization_Proxy"
         end
    /\ get_col Y "Income_Stability"
       = match inputs X "Annual_Income", inputs X "Monthly_Inhand_Salary" with
         | Some income, Some salary =>
             Some (CNum <$> zip_with
                     (fun i s => fdiv (fabs (fsub i (fmul s (of_Z 12))))
                                   (fadd i (of_Z 1)))
                     income salary)
         | _, _ => get_col X "Income_Stability"
         end.
Proof.
  destruct (engineer_transform X) as (Y & E & C & D & U & S).
  exists Y. split; [exact E|]. split; [exact C|].
  split; [exact D|]. split; [exact U|exact S].
Qed.

Lemma floatify_not_nan (s : string) (v : fval) :
  floatify s = Some v -> isna v = false.
Proof.
  unfold floatify. destruct (xstrtod s); [now intros [= <-]|].
  repeat case_bool_decide; intros [= <-]; reflexivity.
Qed.

(** The rule of the specification for one input cell [c] of the engineer,
    giving the number [x]. *)
Definition zero_filled (c : cell) (x : fval) : Prop :=
  match c with
  | CNum NaN => x = of_Z 0
  | CNum v => x = v
  | CStr s =>
      match floatify s with
      | Some v => x = v
      | None => x = of_Z 0
      end
  end.

Lemma coerced_zero_filled (c : cell) : zero_filled c (coerced c).
Proof.
  unfold zero_filled, coerced. destruct c as [s|[q| | |]]; try reflexivity.
  destruct (floatify s) as [v|] eqn:E; [|reflexivity].
  now rewrite (floatify_not_nan s v E).
Qed.

(** C10: in the batch [transform] returns, each of the four input columns
    that is present holds, row by row, the number of the input cell, with
    0 in place of a missing value and of a text that does not parse: the
    zeros are in the returned columns themselves. *)
Theorem feature_engineer_zero_fill_persists (X : frame) :
  exists Y,
    transform X = Ok Y
    /\ forall name col,
         name ∈ ["Annual_Income"; "Outstanding_Debt"; "Num_Credit_Card";
                 "Monthly_Inhand_Salary"] ->
         get_col X name = Some col ->
         exists col',
           get_col Y name = Some col'
           /\ length col' = length col
           /\ forall i c, col !! i = Some c ->
                exists x, col' !! i = Some (CNum x) /\ zero_filled c x.
Proof.
  destruct (engineer_transform X) as (Y & E & C & _).
  exists Y. split; [exact E|]. intros name col Hin Hcol.
  exists (CNum <$> (coerced <$> col)). split; [|split].
  - rewrite (C name Hin). unfold inputs. now rewrite Hcol.
  - now rewrite !length_fmap.
  - intros i c Hc. exists (coerced c). split.
    + rewrite <- list_fmap_compose, list_lookup_fmap, Hc. reflexivity.
    + apply coerced_zero_filled.
Qed.

End EngineerSpec.

(** ** Finiteness of the ratios *)

Section RatioFiniteness.
Import FeatureEngineer.

(** Row [i] of a column of numbers, and of a column of a frame. *)
Definition at_row (o : option (list fval)) (i : nat) : option fval :=
  match o with Some l => l !! i | None => None end.

Definition cell_at (X : frame) (name : string) (i : nat) : option cell :=
  match get_col X name with Some col => col !! i | None => None end.

Lemma ratio_cell (Y : frame) (out : string) (a b : option (list fval))
  (other : option column) (f : fval -> fval -> fval) (i : nat) (x y : fval) :
  get_col Y out = match a, b with
                  | Some xs, Some ys => Some (CNum <$> zip_with f xs ys)
                  | _, _ => other
                  end ->
  at_row a i = Some x -> at_row b i = Some y ->
  cell_at Y out i = Some (CNum (f x y)).
Proof.
  intros H Hx Hy. destruct a as [xs|]; [|discriminate].
  destruct b as [ys|]; [|discriminate]. cbn [at_row] in Hx, Hy.
  unfold cell_at. rewrite H, list_lookup_fmap, lookup_zip_with, Hx, Hy.
  reflexivity.
Qed.

Lemma Qeq_bool_pos (q : Q) : (1 <= q)%Q -> Qeq_bool q 0 = false.
Proof.
  intros H. destruct (Qeq_bool q 0) eqn:E; [|reflexivity].
  apply Qeq_bool_iff in E. rewrite E in H. unfold Qle in H. cbn in H. lia.
Qed.

Lemma plus_one_ge (q : Q) : (0 <= q)%Q -> (1 <= q + 1)%Q.
Proof.
  intros H. apply (Qle_trans _ (0 + 1)); [discriminate|].
  apply Qplus_le_compat; [exact H|apply Qle_refl].
Qed.

Lemma dti_finite (d inc : Q) :
  (0 <= inc)%Q -> dti (Fin d) (Fin inc) = Fin (d / (inc + 1)).
Proof.
  intros H. unfold dti. cbn [fadd of_Z fdiv].
  change (inject_Z 1) with 1%Q.
  now rewrite (Qeq_bool_pos _ (plus_one_ge inc H)).
Qed.

Lemma cards_limit_ge (c : Q) : (0 <= c)%Q -> (0 <= c * 5000)%Q.
Proof. intros H. apply Qmult_le_0_compat; [exact H|discriminate]. Qed.

Lemma utilization_finite (d c : Q) :
  (0 <= c)%Q -> utilization (Fin d) (Fin c) = Fin (d / (c * 5000 + 1)).
Proof.
  intros H. unfold utilization. cbn [fmul fadd of_Z fdiv].
  change (inject_Z 1) with 1%Q. change (inject_Z 5000) with 5000%Q.
  now rewrite (Qeq_bool_pos _ (plus_one_ge _ (cards_limit_ge c H))).
Qed.

Lemma stability_finite (inc s : Q) :
  (0 <= inc)%Q ->
  stability (Fin inc) (Fin s) = Fin (Qabs (inc + - (s * 12)) / (inc + 1)).
Proof.
  intros H. unfold stability. cbn [fmul fsub fneg fadd fabs of_Z fdiv].
  change (inject_Z 1) with 1%Q. change (inject_Z 12) with 12%Q.
  now rewrite (Qeq_bool_pos _ (plus_one_ge inc H)).
Qed.

End RatioFiniteness.

Section RatioFinitenessSpec.
Import FeatureEngineer.

(** A one-row batch with an infinite debt and zero income, cards and salary. *)
Definition infinite_debt_batch : frame :=
  [("Annual_Income", [CNum (of_Z 0)]);
   ("Outstanding_Debt", [CNum PInf]);
   ("Num_Credit_Card", [CNum (of_Z 0)]);
   ("Monthly_Inhand_Salary", [CNum (of_Z 0)])].

(** C6, as stated, fails: with the denominator inputs non-negative (zero
    income, zero cards) and an infinite debt, the debt-to-income and the
    utilization ratios are infinite. *)
Lemma infinite_debt_ratio_not_finite :
  exists Y,
    transform infinite_debt_batch = Ok Y
    /\ cell_at Y "Annual_Income" 0 = Some (CNum (of_Z 0))
    /\ cell_at Y "Num_Credit_Card" 0 = Some (CNum (of_Z 0))
    /\ fle (of_Z 0) (of_Z 0) = true
    /\ cell_at Y "DTI_Ratio" 0 = Some (CNum PInf)
    /\ cell_at Y "Utilization_Proxy" 0 = Some (CNum PInf)
    /\ is_finite PInf = false.
Proof. eexists. repeat split; vm_compute; reflexivity. Qed.

(** C6, amended: in a row whose coerced inputs are finite and whose
    denominator inputs (income, number of cards) are non-negative, each
    denominator is at least 1 and each ratio is the finite quotient, in
    exact arithmetic: no division by zero occurs. *)
Theorem feature_engineer_ratios_finite (X Y : frame) (i : nat) :
  transform X = Ok Y ->
  (forall d inc : Q,
      at_row (inputs X "Outstanding_Debt") i = Some (Fin d) ->
      at_row (inputs X "Annual_Income") i = Some (Fin inc) ->
      (0 <= inc)%Q ->
      (1 <= inc + 1)%Q
      /\ cell_at Y "DTI_Ratio" i = Some (CNum (Fin (d / (inc + 1)))))
  /\ (forall d c : Q,
      at_row (inputs X "Outstanding_Debt") i = Some (Fin d) ->
      at_row (inputs X "Num_Credit_Card") i = Some (Fin c) ->
      (0 <= c)%Q ->
      (1 <= c * 5000 + 1)%Q
      /\ cell_at Y "Utilization_Proxy" i
         = Some (CNum (Fin (d / (c * 5000 + 1)))))
  /\ (forall inc s : Q,
      at_row (inputs X "Annual_Income") i = Some (Fin inc) ->
      at_row (inputs X "Monthly_Inhand_Salary") i = Some (Fin s) ->
      (0 <= inc)%Q ->
      (1 <= inc + 1)%Q
      /\ cell_at Y "Income_Stability" i
         = Some (CNum (Fin (Qabs (inc + - (s * 12)) / (inc + 1))))).
Proof.
  intros HY. destruct (engineer_transform X) as (Y' & E & _ & D & U & S).
  rewrite HY in E. injection E as <-.
  split; [|split].
  - intros d inc Hd Hi Hpos. split; [now apply plus_one_ge|].
    rewrite <- (dti_finite d inc Hpos).
    exact (ratio_cell Y _ _ _ _ dti i _ _ D Hd Hi).
  - intros d c Hd Hc Hpos.
    split; [apply plus_one_ge; now apply cards_limit_ge|].
    rewrite <- (utilization_finite d c Hpos).
    exact (ratio_cell Y _ _ _ _ utilization i _ _ U Hd Hc).
  - intros inc s Hi Hs Hpos. split; [now apply plus_one_ge|].
    rewrite <- (stability_finite inc s Hpos).
    exact (ratio_cell Y _ _ _ _ stability i _ _ S Hi Hs).
Qed.

End RatioFinitenessSpec.

(** ** MissingValueImputer *)

Section Imputer.
Import MissingValueImputer.

(** The balances observed at fit time in the rows whose grouping value has
    the key [k]. *)
Fixpoint observations (k : key) (occ : column) (xs : list fval) : list fval :=
  match occ, xs with
  | o :: occ', x :: xs' =>
      if decide (group_key o = Some k) then x :: observations k occ' xs'
      else observations k occ' xs'
  | _, _ => []
  end.

Lemma groups_lookup (k : key) (occ : column) (xs : list fval) :
  groups occ xs !! k
  = match observations k occ xs with
    | [] => None
    | l => Some l
    end.
Proof.
  revert xs. induction occ as [|o occ IH]; intros [|x xs]; try reflexivity.
  cbn [groups observations].
  destruct (group_key o) as [k'|] eqn:Ek.
  - destruct (decide (Some k' = Some k)) as [E|N].
    + injection E as ->. rewrite lookup_insert_eq, IH.
      now destruct (observations k occ xs).
    + rewrite lookup_insert_ne by congruence. apply IH.
  - destruct (decide (None = Some k)); [discriminate|]. apply IH.
Qed.

Lemma median_no_observation (l : list fval) : dropna l = [] -> median l = NaN.
Proof. intros H. unfold median. now rewrite H. Qed.

Lemma fit_numeric_balance (self : t) (F : frame) (fxs : list fval)
  (foccs : column) :
  get_col F "Monthly_Balance" = Some (CNum <$> fxs) ->
  get_col F "Occupation" = Some foccs ->
  fit self F = Ok {| global_median := median fxs;
                     group_medians := median <$> groups foccs fxs |}.
Proof.
  intros Hb Ho. unfold fit. now rewrite Hb, Ho, mapM_num_of.
Qed.

Lemma dict_get_fitted (foccs : column) (fxs : list fval) (o : cell)
  (global : fval) :
  dict_get (median <$> groups foccs fxs) o global
  = match group_key o with
    | Some k =>
        match observations k foccs fxs with
        | [] => global
        | l => median l
        end
    | None => global
    end.
Proof.
  unfold dict_get. destruct (group_key o) as [k|]; [|reflexivity].
  rewrite lookup_fmap, groups_lookup.
  now destruct (observations k foccs fxs).
Qed.

End Imputer.

Section ImputerSpec.
Import MissingValueImputer.

(** The rule of the specification for one row: balance [b], occupation
    [o], result [b'], after a fit on occupations [foccs] and balances
    [fxs]. *)
Definition imputed_row (foccs : column) (fxs : list fval) (b o b' : cell)
  : Prop :=
  (cell_isna b = false -> b' = b)
  /\ (cell_isna b = true ->
      match group_key o with
      | None => b' = CNum (median fxs)
      | Some k =>
          let obs := observations k foccs fxs in
          (isna (median obs) = false -> b' = CNum (median obs))
          /\ (obs = [] -> b' = CNum (median fxs))
          /\ (dropna obs = [] -> b' = CNum (median fxs))
          /\ (isna (median obs) = true -> b' = CNum (median fxs))
      end
      /\ (isna (median fxs) = false -> cell_isna b' = false)).

Lemma fill_balance_row (foccs : column) (fxs : list fval) (b o : cell) :
  imputed_row foccs fxs b o
    (fill_balance {| global_median := median fxs;
                     group_medians := median <$> groups foccs fxs |} b o).
Proof.
  unfold imputed_row, fill_balance. cbn [global_median group_medians].
  rewrite dict_get_fitted.
  destruct (cell_isna b) eqn:Eb; cbn [negb]; split; try discriminate;
    try reflexivity.
  intros _. destruct (group_key o) as [k|].
  - cbn zeta. destruct (observations k foccs fxs) as [|x l] eqn:Eo.
    + change (median []) with NaN. cbn [isna].
      destruct (isna (median fxs)) eqn:Eg.
      * repeat split; try reflexivity; discriminate.
      * repeat split; try reflexivity; try discriminate.
        intros _. exact Eg.
    + destruct (isna (median (x :: l))) eqn:Em.
      * repeat split; try reflexivity; try discriminate.
        intros H. cbn [cell_isna]. exact H.
      * repeat split; try reflexivity; try discriminate.
        -- intros H. rewrite (median_no_observation _ H) in Em. discriminate.
        -- intros _. exact Em.
  - destruct (isna (median fxs)) eqn:Eg; split; try reflexivity.
    + discriminate.
    + intros _. exact Eg.
Qed.

(** A fit batch with one engineer whose balance is missing. *)
Definition no_balance_batch : frame :=
  [("Monthly_Balance", [CNum NaN]); ("Occupation", [CStr "Engineer"])].

(** C4, as stated, fails: fitted on a batch with no balance at all, the
    imputer has an undefined global median, and a row with a missing
    balance receives it: an undefined value. *)
Lemma imputer_undefined_global_median :
  exists st,
    fit init no_balance_batch = Ok st
    /\ global_median st = NaN
    /\ group_medians st !! (inl "Engineer") = Some NaN
    /\ cell_at (transform st no_balance_batch) "Monthly_Balance" 0
       = Some (CNum NaN).
Proof.
  eexists. split; [reflexivity|]. repeat split; vm_compute; reflexivity.
Qed.

(** C4, amended: after a fit on a batch with both columns, in every row of
    a batch with both columns a balance that is not missing is unchanged;
    a missing one becomes the fit-time median of the row's occupation
    group when that median is defined, and the fit-time global median when
    the occupation is missing or unseen at fit time or its group had no
    non-missing balance.  The value received is defined whenever the
    global median is, which it is not when the fit batch held no balance. *)
Theorem imputer_transform_rows (self : t) (F X : frame) (fxs : list fval)
  (foccs bal occ : column) :
  get_col F "Monthly_Balance" = Some (CNum <$> fxs) ->
  get_col F "Occupation" = Some foccs ->
  get_col X "Monthly_Balance" = Some bal ->
  get_col X "Occupation" = Some occ ->
  exists st col',
    fit self F = Ok st
    /\ global_median st = median fxs
    /\ (dropna fxs = [] -> global_median st = NaN)
    /\ get_col (transform st X) "Monthly_Balance" = Some col'
    /\ forall i b o, bal !! i = Some b -> occ !! i = Some o ->
         exists b', col' !! i = Some b' /\ imputed_row foccs fxs b o b'.
Proof.
  intros HFb HFo HXb HXo.
  rewrite (fit_numeric_balance self F fxs foccs HFb HFo).
  eexists. eexists. split; [reflexivity|]. split; [reflexivity|].
  split; [apply median_no_observation|].
  unfold transform. rewrite HXb, HXo. split; [apply get_set_eq|].
  intros i b o Hb Ho. eexists. split.
  - rewrite lookup_zip_with, Hb, Ho. reflexivity.
  - apply fill_balance_row.
Qed.

End ImputerSpec.

(** ** The chain run twice *)

Section ChainTwice.

(** A training batch: two applicants. *)
Definition training_batch : frame :=
  [("Age", [CStr "30_"; CStr "40"]);
   ("Occupation", [CStr "Engineer"; CStr "Doctor"]);
   ("Annual_Income", [CStr "65000.0"; CStr "_42000"]);
   ("Changed_Credit_Limit", [CStr "1.5"; CStr "2.25"]);
   ("Monthly_Balance", [CStr "350.5"; CStr "__"])].

(** A raw batch: one applicant whose credit-limit change is the text
    0.00001. *)
Definition raw_batch : frame :=
  [("Age", [CStr "34"]);
   ("Occupation", [CStr "Engineer"]);
   ("Annual_Income", [CStr "65000.0"]);
   ("Changed_Credit_Limit", [CStr "0.00001_"]);
   ("Monthly_Balance", [CStr "350.0"])].

(** The same applicant in a clean batch: numbers only, the age and every
    other value in range. *)
Definition clean_batch : frame :=
  [("Age", [CNum (of_Z 34)]);
   ("Occupation", [CStr "Engineer"]);
   ("Annual_Income", [CNum (of_Z 65000)]);
   ("Changed_Credit_Limit", [CNum (Fin (1 # 100000))]);
   ("Monthly_Balance", [CNum (of_Z 350)])].

(** C9: the chain is not idempotent on numbers that Python writes in
    exponent notation.  The cleaner turns every cell into text before the
    regex; the number 0.00001 is written 1e-05, the regex deletes the e,
    and 1-05 does not parse.  So the raw batch comes out of the chain with
    the value 0.00001 and out of a second run with a missing value, and
    the clean batch is changed by a single run, while the other columns
    are left as they are. *)
Theorem chain_rerun_loses_small_values :
  exists p Y Z,
    chain_fit new_chain training_batch = Ok p
    /\ chain_transform p raw_batch = Ok Y
    /\ chain_transform p Y = Ok Z
    /\ cell_at Y "Changed_Credit_Limit" 0 = Some (CNum (Fin (1 # 100000)))
    /\ cell_at Z "Changed_Credit_Limit" 0 = Some (CNum NaN)
    /\ cell_at Z "Age" 0 = cell_at Y "Age" 0
    /\ cell_at Z "Annual_Income" 0 = cell_at Y "Annual_Income" 0
    /\ chain_transform p clean_batch = Ok Z
    /\ cell_at clean_batch "Changed_Credit_Limit" 0
       = Some (CNum (Fin (1 # 100000)))
    /\ astype_str (CNum (Fin (1 # 100000))) = "1e-05"
    /\ re_sub "1e-05" = "1-05"
    /\ floatify "1-05" = None.
Proof.
  eexists. eexists. eexists.
  split; [vm_compute; reflexivity|].
  split; [vm_compute; reflexivity|].
  split; [vm_compute; reflexivity|].
  repeat split; vm_compute; reflexivity.
Qed.

End ChainTwice.

(** ** The output of the chain as a fixed point of the chain *)

Section ChainFixedPoint.

Lemma set_col_same (X : frame) (name : string) (v : column) :
  get_col X name = Some v -> set_col X name v = X.
Proof.
  induction X as [|[n w] X IH]; [discriminate|]. cbn [get_col set_col].
  destruct (String.eqb n name) eqn:E.
  - now intros [= ->].
  - intros H. now rewrite IH.
Qed.

(** A column whose cells a cell function leaves as they are. *)
Definition fixed_by (f : cell -> fval) (col : column) : Prop :=
  Forall (fun c => CNum (f c) = c) col.

Lemma fixed_by_fmap (f : cell -> fval) (col : column) :
  fixed_by f col -> CNum <$> (f <$> col) = col.
Proof.
  induction 1 as [|c col Hc _ IH]; [reflexivity|].
  rewrite !fmap_cons. now rewrite Hc, IH.
Qed.

Lemma map_in_fixed (f : cell -> fval) (Y : frame) (name : string) :
  (forall col, get_col Y name = Some col -> fixed_by f col) ->
  map_in f Y name = Y.
Proof.
  intros H. unfold map_in. destruct (get_col Y name) as [col|] eqn:E;
    [|reflexivity].
  rewrite (fixed_by_fmap f col (H col eq_refl)). now apply set_col_same.
Qed.

Lemma fold_map_fixed (f : cell -> fval) (cols : list string) (Y : frame) :
  (forall name col, name ∈ cols -> get_col Y name = Some col -> fixed_by f col) ->
  fold_left (map_in f) cols Y = Y.
Proof.
  induction cols as [|c cols IH]; intros H; [reflexivity|].
  cbn [fold_left]. rewrite map_in_fixed.
  - apply IH. intros name col Hin. apply H. now constructor.
  - intros col. apply H. constructor.
Qed.

(** A column produced by a cell function that is idempotent. *)
Lemma fixed_by_image (f g : cell -> fval) (col : column) :
  (forall c, g (CNum (f c)) = f c) -> fixed_by g (CNum <$> (f <$> col)).
Proof.
  intros H. unfold fixed_by. rewrite <- list_fmap_compose.
  apply Forall_fmap, Forall_forall. intros c _. cbn. now rewrite H.
Qed.

(** *** The capper as a cell-wise loop *)

Definition value_of (c : cell) : fval :=
  match c with CNum x => x | CStr _ => NaN end.

Lemma fmap_value_of (xs : list fval) : value_of <$> (CNum <$> xs) = xs.
Proof. rewrite <- list_fmap_compose. apply list_fmap_id. Qed.

Definition age_cell (self : OutlierCapper.t) (c : cell) : fval :=
  capped_age self (value_of c).

Definition accounts_cell (self : OutlierCapper.t) (c : cell) : fval :=
  capped_accounts self (value_of c).

Lemma map_in_numeric (f : fval -> fval) (X : frame) (name : string)
  (xs : list fval) :
  get_col X name = Some (CNum <$> xs) ->
  map_in (fun c => f (value_of c)) X name = set_col X name (CNum <$> (f <$> xs)).
Proof.
  intros H. unfold map_in. rewrite H. do 2 f_equal.
  rewrite <- list_fmap_compose. reflexivity.
Qed.

Lemma cap_age_loop (self : OutlierCapper.t) (X : frame) :
  numeric_or_absent X "Age" ->
  OutlierCapper.cap_age self X = Ok (map_in (age_cell self) X "Age").
Proof.
  unfold numeric_or_absent. intros H.
  destruct (get_col X "Age") as [col|] eqn:E.
  - destruct H as [xs ->]. rewrite (cap_age_numeric self X xs E).
    unfold age_cell. now rewrite (map_in_numeric _ X "Age" xs E).
  - rewrite (cap_age_absent self X E). unfold map_in. now rewrite E.
Qed.

Lemma cap_accounts_loop (self : OutlierCapper.t) (X : frame) :
  numeric_or_absent X "Num_Bank_Accounts" ->
  OutlierCapper.cap_accounts self X
  = Ok (map_in (accounts_cell self) X "Num_Bank_Accounts").
Proof.
  unfold numeric_or_absent. intros H.
  destruct (get_col X "Num_Bank_Accounts") as [col|] eqn:E.
  - destruct H as [xs ->]. rewrite (cap_accounts_numeric self X xs E).
    unfold accounts_cell. now rewrite (map_in_numeric _ X _ xs E).
  - rewrite (cap_accounts_absent self X E). unfold map_in. now rewrite E.
Qed.

Definition capper_loop (self : OutlierCapper.t) (X : frame) : frame :=
  map_in (accounts_cell self) (map_in (age_cell self) X "Age")
    "Num_Bank_Accounts".

Lemma capper_transform_loop (self : OutlierCapper.t) (X : frame) :
  numeric_or_absent X "Age" -> numeric_or_absent X "Num_Bank_Accounts" ->
  OutlierCapper.transform self X = Ok (capper_loop self X).
Proof.
  intros HA HB. unfold OutlierCapper.transform, capper_loop.
  rewrite (cap_age_loop self X HA). cbn [bind].
  apply cap_accounts_loop. now apply map_in_numeric_kept.
Qed.

Lemma capped_age_idem (self : OutlierCapper.t) (a : fval) :
  capped_age self (capped_age self a) = capped_age self a.
Proof.
  unfold capped_age.
  destruct (flt a (OutlierCapper.age_min self)
            || fgt a (OutlierCapper.age_max self)) eqn:E.
  - match goal with |- (if ?b then _ else _) = _ => destruct b end;
      reflexivity.
  - now rewrite E.
Qed.

Lemma capped_accounts_idem (m n : fval) :
  let self := OutlierCapper.set_median_age OutlierCapper.init m in
  capped_accounts self (capped_accounts self n) = capped_accounts self n.
Proof.
  cbn zeta. unfold capped_accounts.
  cbn [OutlierCapper.max_accounts OutlierCapper.set_median_age
       OutlierCapper.init].
  destruct (fgt n (of_Z 20)) eqn:E1.
  - reflexivity.
  - destruct (flt n (of_Z 0)) eqn:E2.
    + reflexivity.
    + now rewrite E1, E2.
Qed.

(** *** The imputer *)

Lemma imputer_other (st : MissingValueImputer.t) (X : frame) (name : string) :
  name <> "Monthly_Balance" ->
  get_col (MissingValueImputer.transform st X) name = get_col X name.
Proof.
  intros Hne. unfold MissingValueImputer.transform.
  destruct (get_col X "Monthly_Balance"); [|reflexivity].
  destruct (get_col X "Occupation"); [|reflexivity].
  apply get_set_ne. congruence.
Qed.

Lemma fill_balance_idem (st : MissingValueImputer.t) (b o : cell) :
  MissingValueImputer.fill_balance st
    (MissingValueImputer.fill_balance st b o) o
  = MissingValueImputer.fill_balance st b o.
Proof.
  unfold MissingValueImputer.fill_balance.
  destruct (cell_isna b) eqn:Eb; cbn [negb].
  - match goal with |- (if ?c then _ else _) = _ => destruct c end;
      reflexivity.
  - now rewrite Eb.
Qed.

Lemma zip_with_idem {A B : Type} (f : A -> B -> A) (xs : list A)
  (ys : list B) :
  (forall x y, f (f x y) y = f x y) ->
  zip_with f (zip_with f xs ys) ys = zip_with f xs ys.
Proof.
  intros H. revert ys. induction xs as [|x xs IH]; intros [|y ys];
    try reflexivity.
  cbn [zip_with]. now rewrite H, IH.
Qed.

Lemma imputer_fixed (st : MissingValueImputer.t) (X Y : frame) :
  get_col Y "Monthly_Balance"
  = get_col (MissingValueImputer.transform st X) "Monthly_Balance" ->
  get_col Y "Occupation" = get_col X "Occupation" ->
  MissingValueImputer.transform st Y = Y.
Proof.
  intros HB HO. unfold MissingValueImputer.transform in *.
  destruct (get_col X "Monthly_Balance") as [bal|] eqn:EB.
  - destruct (get_col X "Occupation") as [occ|] eqn:EO.
    + rewrite get_set_eq in HB. rewrite HB, HO.
      rewrite zip_with_idem by apply fill_balance_idem.
      now apply set_col_same.
    + rewrite HO. now destruct (get_col Y "Monthly_Balance").
  - rewrite EB in HB. now rewrite HB.
Qed.

(** *** The engineer as a function *)

Definition ratio_in (out a b : string) (ratio : fval -> fval -> fval)
  (X : frame) : frame :=
  match nums X a, nums X b with
  | Some xs, Some ys => set_col X out (CNum <$> zip_with ratio xs ys)
  | _, _ => X
  end.

Lemma ratio_in_other (out a b : string) (ratio : fval -> fval -> fval)
  (X : frame) (name : string) :
  name <> out -> get_col (ratio_in out a b ratio X) name = get_col X name.
Proof.
  intros Hne. unfold ratio_in. destruct (nums X a); [|reflexivity].
  destruct (nums X b); [|reflexivity]. apply get_set_ne. congruence.
Qed.

Lemma ratio_in_fixed (out a b : string) (ratio : fval -> fval -> fval)
  (X W : frame) :
  nums W a = nums X a -> nums W b = nums X b ->
  get_col W out = get_col (ratio_in out a b ratio X) out ->
  ratio_in out a b ratio W = W.
Proof.
  intros Ha Hb Hout. unfold ratio_in in *. rewrite Ha, Hb.
  destruct (nums X a) as [xs|]; [|reflexivity].
  destruct (nums X b) as [ys|]; [|reflexivity].
  rewrite get_set_eq in Hout. now apply set_col_same.
Qed.

Lemma ratio_step_function (step : frame -> result frame) (out a b : string)
  (ratio : fval -> fval -> fval) :
  (forall X xs ys,
      get_col X a = Some (CNum <$> xs) -> get_col X b = Some (CNum <$> ys) ->
      step X = Ok (set_col X out (CNum <$> zip_with ratio xs ys))) ->
  (forall X, get_col X a = None \/ get_col X b = None -> step X = Ok X) ->
  forall X,
    numeric_or_absent X a -> numeric_or_absent X b ->
    step X = Ok (ratio_in out a b ratio X).
Proof.
  intros Hnum Habs X Ha Hb. unfold numeric_or_absent in Ha, Hb.
  unfold ratio_in.
  destruct (get_col X a) as [ca|] eqn:Ea.
  - destruct Ha as [xs ->]. rewrite (nums_numeric X a xs Ea).
    destruct (get_col X b) as [cb|] eqn:Eb.
    + destruct Hb as [ys ->]. rewrite (nums_numeric X b ys Eb).
      now apply Hnum.
    + rewrite (nums_absent X b Eb). apply Habs. now right.
  - rewrite (nums_absent X a Ea). apply Habs. now left.
Qed.

Lemma add_dti_function (X : frame) :
  numeric_or_absent X "Outstanding_Debt" ->
  numeric_or_absent X "Annual_Income" ->
  FeatureEngineer.add_dti X
  = Ok (ratio_in "DTI_Ratio" "Outstanding_Debt" "Annual_Income" dti X).
Proof.
  apply ratio_step_function.
  - apply add_dti_numeric.
  - intros Y [H|H]; unfold FeatureEngineer.add_dti; rewrite H;
      [reflexivity|now destruct (get_col Y "Outstanding_Debt")].
Qed.

Lemma add_utilization_function (X : frame) :
  numeric_or_absent X "Outstanding_Debt" ->
  numeric_or_absent X "Num_Credit_Card" ->
  FeatureEngineer.add_utilization X
  = Ok (ratio_in "Utilization_Proxy" "Outstanding_Debt" "Num_Credit_Card"
          utilization X).
Proof.
  apply ratio_step_function.
  - apply add_utilization_numeric.
  - intros Y [H|H]; unfold FeatureEngineer.add_utilization; rewrite H;
      [reflexivity|now destruct (get_col Y "Outstanding_Debt")].
Qed.

Lemma add_stability_function (X : frame) :
  numeric_or_absent X "Annual_Income" ->
  numeric_or_absent X "Monthly_Inhand_Salary" ->
  FeatureEngineer.add_stability X
  = Ok (ratio_in "Income_Stability" "Annual_Income" "Monthly_Inhand_Salary"
          stability X).
Proof.
  apply ratio_step_function.
  - apply add_stability_numeric.
  - intros Y [H|H]; unfold FeatureEngineer.add_stability; rewrite H;
      [reflexivity|now destruct (get_col Y "Annual_Income")].
Qed.

Definition engineer (X : frame) : frame :=
  ratio_in "Income_Stability" "Annual_Income" "Monthly_Inhand_Salary" stability
    (ratio_in "Utilization_Proxy" "Outstanding_Debt" "Num_Credit_Card"
       utilization
       (ratio_in "DTI_Ratio" "Outstanding_Debt" "Annual_Income" dti
          (fold_left (map_in coerced) FeatureEngineer.numeric_cols X))).

Lemma numeric_kept (X Y : frame) (name : string) :
  get_col Y name = get_col X name ->
  numeric_or_absent X name -> numeric_or_absent Y name.
Proof. unfold numeric_or_absent. now intros ->. Qed.

Lemma engineer_function (X : frame) :
  FeatureEngineer.transform X = Ok (engineer X).
Proof.
  unfold FeatureEngineer.transform, engineer. rewrite coerce_fold. cbn [bind].
  set (X1 := fold_left (map_in coerced) FeatureEngineer.numeric_cols X).
  assert (H1 : forall name, name ∈ FeatureEngineer.numeric_cols ->
                            numeric_or_absent X1 name)
    by (intros name Hin; now apply fold_map_numeric).
  rewrite add_dti_function by (apply H1; compute_done). cbn [bind].
  set (X2 := ratio_in "DTI_Ratio" _ _ _ X1).
  assert (H2 : forall name, name ∈ FeatureEngineer.numeric_cols ->
                            numeric_or_absent X2 name).
  { intros name Hin. apply (numeric_kept X1); [|now apply H1].
    apply ratio_in_other, numeric_cols_not_ratio, Hin. }
  rewrite add_utilization_function by (apply H2; compute_done). cbn [bind].
  set (X3 := ratio_in "Utilization_Proxy" _ _ _ X2).
  apply add_stability_function.
  - apply (numeric_kept X2); [|apply H2; compute_done].
    apply ratio_in_other. discriminate.
  - apply (numeric_kept X2); [|apply H2; compute_done].
    apply ratio_in_other. discriminate.
Qed.

Lemma engineer_other (X : frame) (name : string) :
  name ∉ FeatureEngineer.numeric_cols ->
  name <> "DTI_Ratio" -> name <> "Utilization_Proxy" ->
  name <> "Income_Stability" ->
  get_col (engineer X) name = get_col X name.
Proof.
  intros Hn H1 H2 H3. unfold engineer.
  rewrite !ratio_in_other by assumption. now apply fold_map_untouched.
Qed.

Lemma engineer_numeric_col (X : frame) (name : string) :
  name ∈ FeatureEngineer.numeric_cols ->
  get_col (engineer X) name
  = (fun v : column => CNum <$> (coerced <$> v)) <$> get_col X name.
Proof.
  intros Hin. destruct (numeric_cols_not_ratio name Hin) as (A & B & C).
  unfold engineer. rewrite !ratio_in_other by assumption.
  apply fold_map_configured; [exact numeric_cols_NoDup|exact Hin].
Qed.

Lemma coerced_idem (c : cell) : coerced (CNum (coerced c)) = coerced c.
Proof.
  unfold coerced at 1.
  assert (H : isna (coerced c) = false).
  { unfold coerced. cbn zeta.
    match goal with |- isna (if isna ?x then _ else _) = _ =>
      destruct (isna x) eqn:E end; [reflexivity|exact E]. }
  cbn zeta. now rewrite H.
Qed.

Lemma engineer_fixed (X : frame) : engineer (engineer X) = engineer X.
Proof.
  set (W := engineer X).
  assert (HW : forall name, name ∈ FeatureEngineer.numeric_cols ->
                 get_col W name
                 = get_col (fold_left (map_in coerced)
                              FeatureEngineer.numeric_cols X) name).
  { intros name Hin. destruct (numeric_cols_not_ratio name Hin) as (A & B & C).
    unfold W, engineer. now rewrite !ratio_in_other by assumption. }
  assert (Hdebt : "Outstanding_Debt" ∈ FeatureEngineer.numeric_cols)
    by compute_done.
  assert (Hinc : "Annual_Income" ∈ FeatureEngineer.numeric_cols)
    by compute_done.
  assert (Hcard : "Num_Credit_Card" ∈ FeatureEngineer.numeric_cols)
    by compute_done.
  assert (Hsal : "Monthly_Inhand_Salary" ∈ FeatureEngineer.numeric_cols)
    by compute_done.
  unfold engineer at 1.
  assert (F : fold_left (map_in coerced) FeatureEngineer.numeric_cols W = W).
  { apply fold_map_fixed. intros name col Hin Hcol.
    unfold W in Hcol. rewrite (engineer_numeric_col X name Hin) in Hcol.
    destruct (get_col X name) as [v|]; [|discriminate].
    injection Hcol as <-. apply fixed_by_image, coerced_idem. }
  rewrite F.
  set (X1 := fold_left (map_in coerced) FeatureEngineer.numeric_cols X) in *.
  set (X2 := ratio_in "DTI_Ratio" "Outstanding_Debt" "Annual_Income" dti X1).
  set (X3 := ratio_in "Utilization_Proxy" "Outstanding_Debt" "Num_Credit_Card"
               utilization X2).
  assert (EW : W = ratio_in "Income_Stability" "Annual_Income"
                     "Monthly_Inhand_Salary" stability X3) by reflexivity.
  assert (N2 : forall name, name ∈ FeatureEngineer.numeric_cols ->
                 get_col X2 name = get_col X1 name).
  { intros name Hin. apply ratio_in_other, numeric_cols_not_ratio, Hin. }
  assert (N3 : forall name, name ∈ FeatureEngineer.numeric_cols ->
                 get_col X3 name = get_col X1 name).
  { intros name Hin. unfold X3. rewrite ratio_in_other; [now apply N2|].
    apply numeric_cols_not_ratio, Hin. }
  rewrite (ratio_in_fixed "DTI_Ratio" _ _ dti X1 W).
  - rewrite (ratio_in_fixed "Utilization_Proxy" _ _ utilization X2 W).
    + apply (ratio_in_fixed "Income_Stability" _ _ stability X3 W).
      * apply nums_same. now rewrite HW, N3.
      * apply nums_same. now rewrite HW, N3.
      * now rewrite EW.
    + apply nums_same. now rewrite HW, N2.
    + apply nums_same. now rewrite HW, N2.
    + rewrite EW. apply ratio_in_other. discriminate.
  - apply nums_same. now apply HW.
  - apply nums_same. now apply HW.
  - rewrite EW. rewrite ratio_in_other by discriminate.
    unfold X3. apply ratio_in_other. discriminate.
Qed.

(** *** The chain *)

(** A chain as train.py builds it, with any learned state. *)
Definition fitted_chain (m : fval) (st : MissingValueImputer.t) : chain :=
  {| regex := {| RegexCleaner.columns := DIRTY_NUMERIC_COLS |};
     outliers := OutlierCapper.set_median_age OutlierCapper.init m;
     imputer := st |}.

Definition chain_function (m : fval) (st : MissingValueImputer.t) (X : frame)
  : frame :=
  engineer
    (MissingValueImputer.transform st
       (capper_loop (OutlierCapper.set_median_age OutlierCapper.init m)
          (fold_left (map_in cleaned) DIRTY_NUMERIC_COLS X))).

(** The chain never raises: the cleaner makes every column the capper
    compares numeric. *)
Lemma chain_transform_function (m : fval) (st : MissingValueImputer.t)
  (X : frame) :
  chain_transform (fitted_chain m st) X = Ok (chain_function m st X).
Proof.
  unfold chain_transform, fitted_chain, chain_function.
  cbn [regex outliers imputer]. rewrite transform_fold. cbn [bind].
  rewrite capper_transform_loop by (apply fold_map_numeric; compute_done).
  cbn [bind]. apply engineer_function.
Qed.

(** The dirty columns of [Y] hold only cells whose text the cleaner reads
    back as the same number. *)
Definition reads_back (Y : frame) : Prop :=
  forall name col,
    name ∈ DIRTY_NUMERIC_COLS -> get_col Y name = Some col ->
    fixed_by cleaned col.

Lemma age_cell_idem (self : OutlierCapper.t) (c : cell) :
  age_cell self (CNum (age_cell self c)) = age_cell self c.
Proof. unfold age_cell. cbn [value_of]. apply capped_age_idem. Qed.

Lemma accounts_cell_idem (m : fval) (c : cell) :
  let self := OutlierCapper.set_median_age OutlierCapper.init m in
  accounts_cell self (CNum (accounts_cell self c)) = accounts_cell self c.
Proof. cbn zeta. unfold accounts_cell. cbn [value_of]. apply capped_accounts_idem. Qed.

Section Output.
Context (m : fval) (st : MissingValueImputer.t) (X : frame).

Let self := OutlierCapper.set_median_age OutlierCapper.init m.
Let X1 := fold_left (map_in cleaned) DIRTY_NUMERIC_COLS X.
Let X2 := capper_loop self X1.
Let Y := chain_function m st X.

Lemma output_age :
  get_col Y "Age"
  = (fun v : column => CNum <$> (age_cell self <$> v)) <$> get_col X1 "Age".
Proof.
  unfold Y, chain_function.
  rewrite engineer_other by (compute_done || discriminate).
  rewrite imputer_other by discriminate.
  unfold capper_loop. rewrite map_in_other by discriminate.
  apply map_in_same.
Qed.

Lemma output_accounts :
  get_col Y "Num_Bank_Accounts"
  = (fun v : column => CNum <$> (accounts_cell self <$> v))
      <$> get_col (map_in (age_cell self) X1 "Age") "Num_Bank_Accounts".
Proof.
  unfold Y, chain_function.
  rewrite engineer_other by (compute_done || discriminate).
  rewrite imputer_other by discriminate.
  unfold capper_loop. apply map_in_same.
Qed.

Lemma output_balance :
  get_col Y "Monthly_Balance"
  = get_col (MissingValueImputer.transform st X2) "Monthly_Balance".
Proof.
  unfold Y, chain_function.
  apply engineer_other; compute_done || discriminate.
Qed.

Lemma output_occupation : get_col Y "Occupation" = get_col X2 "Occupation".
Proof.
  unfold Y, chain_function.
  rewrite engineer_other by (compute_done || discriminate).
  apply imputer_other. discriminate.
Qed.

Lemma output_capper_fixed : capper_loop self Y = Y.
Proof.
  unfold capper_loop.
  assert (C1 : map_in (age_cell self) Y "Age" = Y).
  { apply map_in_fixed. intros col Hcol. rewrite output_age in Hcol.
    destruct (get_col X1 "Age") as [v|]; [|discriminate].
    injection Hcol as <-. apply fixed_by_image, age_cell_idem. }
  rewrite C1. apply map_in_fixed. intros col Hcol.
  rewrite output_accounts in Hcol.
  destruct (get_col (map_in (age_cell self) X1 "Age") "Num_Bank_Accounts")
    as [v|]; [|discriminate].
  injection Hcol as <-. apply fixed_by_image. intros c.
  apply (accounts_cell_idem m c).
Qed.

Lemma output_imputer_fixed : MissingValueImputer.transform st Y = Y.
Proof.
  apply (imputer_fixed st X2 Y); [apply output_balance|apply output_occupation].
Qed.

Lemma output_engineer_fixed : engineer Y = Y.
Proof. unfold Y, chain_function. apply engineer_fixed. Qed.

End Output.

(** Apart from the text round trip of the cleaner the chain is idempotent:
    a batch the chain returned, whose dirty columns read back unchanged, is
    returned unchanged by a second run. *)
Lemma chain_output_fixed (m : fval) (st : MissingValueImputer.t)
  (X Y : frame) :
  chain_transform (fitted_chain m st) X = Ok Y ->
  reads_back Y ->
  chain_transform (fitted_chain m st) Y = Ok Y.
Proof.
  rewrite !chain_transform_function. intros [= <-] Hback. f_equal.
  unfold chain_function at 1.
  rewrite (fold_map_fixed cleaned DIRTY_NUMERIC_COLS _ Hback).
  rewrite output_capper_fixed, output_imputer_fixed.
  apply output_engineer_fixed.
Qed.

Lemma capper_fit_shape (m0 : fval) (X : frame) (o : OutlierCapper.t) :
  OutlierCapper.fit (OutlierCapper.set_median_age OutlierCapper.init m0) X
  = Ok o ->
  exists m, o = OutlierCapper.set_median_age OutlierCapper.init m.
Proof.
  unfold OutlierCapper.fit. destruct (get_col X "Age") as [age|].
  - destruct (col_cmp fge age _) as [lo|]; [|discriminate]. cbn [bind].
    destruct (col_cmp fle age _) as [hi|]; [|discriminate]. cbn [bind].
    destruct (select (mask_and lo hi) age) as [|v vs].
    + intros [= <-]. now exists m0.
    + destruct (col_median (v :: vs)) as [md|]; [|discriminate].
      cbn [bind]. intros [= <-]. now exists md.
  - intros [= <-]. now exists m0.
Qed.

Lemma chain_fit_shape (F : frame) (p : chain) :
  chain_fit new_chain F = Ok p -> exists m st, p = fitted_chain m st.
Proof.
  unfold chain_fit, new_chain. cbn [regex outliers imputer RegexCleaner.fit].
  destruct (RegexCleaner.transform _ F) as [X1|]; [|discriminate].
  cbn [bind].
  destruct (OutlierCapper.fit OutlierCapper.init X1) as [o|] eqn:Eo;
    [|discriminate].
  cbn [bind].
  destruct (capper_fit_shape (of_Z 30) X1 o Eo) as [m ->].
  destruct (OutlierCapper.transform _ X1) as [X2|]; [|discriminate].
  cbn [bind].
  destruct (MissingValueImputer.fit _ X2) as [i|]; [|discriminate].
  cbn [bind]. intros [= <-]. now exists m, i.
Qed.

(** A chain fitted as train.py fits it never raises in [transform], and
    returns unchanged any batch it returned before whose dirty columns
    read back unchanged. *)
Lemma fitted_chain_rerun (F X : frame) (p : chain) :
  chain_fit new_chain F = Ok p ->
  exists Y,
    chain_transform p X = Ok Y
    /\ (reads_back Y -> chain_transform p Y = Ok Y).
Proof.
  intros Hfit. destruct (chain_fit_shape F p Hfit) as (m & st & ->).
  exists (chain_function m st X). split; [apply chain_transform_function|].
  apply (chain_output_fixed m st X), chain_transform_function.
Qed.

End ChainFixedPoint.

(** * Further properties of the stages *)

(** ** The shape of a frame *)

Section FrameShape.

(** The column names, in order, and the frames all of whose columns have
    [n] rows. *)
Definition names (X : frame) : list string := X.*1.

Definition n_rows (n : nat) (X : frame) : Prop :=
  forall name col, get_col X name = Some col -> length col = n.

Lemma has_col_names (X : frame) (name : string) :
  has_col X name = true <-> name ∈ names X.
Proof.
  unfold has_col, names. induction X as [|[n v] X IH]; cbn [get_col].
  - split; [discriminate|]. intros H. inversion H.
  - rewrite fmap_cons. cbn [fst]. destruct (String.eqb n name) eqn:E.
    + apply String.eqb_eq in E. subst. split; [constructor|reflexivity].
    + apply String.eqb_neq in E. rewrite IH. split.
      * intros H. now constructor.
      * intros H. apply elem_of_cons in H as [->|H]; [contradiction|exact H].
Qed.

Lemma names_set_col (X : frame) (name : string) (v : column) :
  names (set_col X name v)
  = if has_col X name then names X else names X ++ [name].
Proof.
  unfold names, has_col. induction X as [|[n w] X IH]; [reflexivity|].
  cbn [set_col get_col]. destruct (String.eqb n name) eqn:E.
  - reflexivity.
  - rewrite !fmap_cons, IH. cbn [fst]. now destruct (get_col X name).
Qed.

Lemma names_set_present (X : frame) (name : string) (v w : column) :
  get_col X name = Some w -> names (set_col X name v) = names X.
Proof. intros H. rewrite names_set_col. unfold has_col. now rewrite H. Qed.

Lemma get_set_inv (X : frame) (name other : string) (v col : column) :
  get_col (set_col X name v) other = Some col ->
  (other = name /\ col = v) \/ (other <> name /\ get_col X other = Some col).
Proof.
  destruct (String.eqb name other) eqn:E.
  - apply String.eqb_eq in E. subst. rewrite get_set_eq. intros [= <-].
    now left.
  - apply String.eqb_neq in E. rewrite get_set_ne by exact E. intros H.
    right. split; [congruence|exact H].
Qed.

Lemma n_rows_set_col (n : nat) (X : frame) (name : string) (v : column) :
  n_rows n X -> length v = n -> n_rows n (set_col X name v).
Proof.
  intros HX Hv other col H. apply get_set_inv in H as [[_ ->]|[_ H]];
    [exact Hv|exact (HX other col H)].
Qed.

Lemma names_map_in (f : cell -> fval) (X : frame) (name : string) :
  names (map_in f X name) = names X.
Proof.
  unfold map_in. destruct (get_col X name) as [v|] eqn:E; [|reflexivity].
  exact (names_set_present X name _ v E).
Qed.

Lemma n_rows_map_in (f : cell -> fval) (n : nat) (X : frame) (name : string) :
  n_rows n X -> n_rows n (map_in f X name).
Proof.
  intros HX. unfold map_in. destruct (get_col X name) as [v|] eqn:E;
    [|exact HX].
  apply n_rows_set_col; [exact HX|]. rewrite !length_fmap. exact (HX name v E).
Qed.

Lemma names_fold_map (f : cell -> fval) (cols : list string) (X : frame) :
  names (fold_left (map_in f) cols X) = names X.
Proof.
  revert X. induction cols as [|c cols IH]; intros X; [reflexivity|].
  cbn [fold_left]. rewrite IH. apply names_map_in.
Qed.

Lemma n_rows_fold_map (f : cell -> fval) (n : nat) (cols : list string)
  (X : frame) :
  n_rows n X -> n_rows n (fold_left (map_in f) cols X).
Proof.
  revert X. induction cols as [|c cols IH]; intros X H; [exact H|].
  cbn [fold_left]. apply IH. now apply n_rows_map_in.
Qed.

End FrameShape.

(** ** RegexCleaner: what it leaves alone *)

Section CleanerFrame.
Import RegexCleaner.

(** [transform] keeps the column names and their order (a configured
    column that the batch lacks is not created), returns every column
    outside the configured list as it was, and keeps the number of rows. *)
Theorem regex_cleaner_keeps_shape (self : RegexCleaner.t) (X : frame) :
  exists Y,
    transform self X = Ok Y
    /\ names Y = names X
    /\ (forall name, name ∉ columns self -> get_col Y name = get_col X name)
    /\ (forall n, n_rows n X -> n_rows n Y).
Proof.
  destruct self as [cols]. cbn [columns]. rewrite transform_fold.
  eexists. split; [reflexivity|]. split; [apply names_fold_map|]. split.
  - intros name Hn. now apply fold_map_untouched.
  - intros n Hn. now apply n_rows_fold_map.
Qed.

End CleanerFrame.

(** ** OutlierCapper: errors, bounds and idempotence *)

Section CapperMore.
Import OutlierCapper.

(** A comparison of a column with a number succeeds exactly when the
    column holds no text. *)
Lemma col_cmp_text (op : fval -> fval -> bool) (col : column) (k : fval)
  (s : string) :
  CStr s ∈ col -> col_cmp op col k = Raise TypeError.
Proof.
  unfold col_cmp. induction col as [|c col IH]; intros H; [inversion H|].
  cbn [mapM]. destruct c as [t|x]; [reflexivity|].
  apply elem_of_cons in H as [H|H]; [discriminate|].
  cbn [bind]. now rewrite (IH H).
Qed.

Lemma col_cmp_ok (op : fval -> fval -> bool) (col : column) (k : fval)
  (mask : list bool) :
  col_cmp op col k = Ok mask -> exists xs, col = CNum <$> xs.
Proof.
  unfold col_cmp. revert mask. induction col as [|c col IH]; intros mask H.
  - now exists [].
  - cbn [mapM] in H. destruct c as [t|x]; [discriminate|]. cbn [bind] in H.
    destruct (mapM _ col) as [bs|] eqn:E; [|discriminate].
    destruct (IH bs eq_refl) as [xs ->]. now exists (x :: xs).
Qed.

Lemma cap_age_ok (self : t) (X Y : frame) :
  cap_age self X = Ok Y -> numeric_or_absent X "Age".
Proof.
  unfold cap_age, numeric_or_absent.
  destruct (get_col X "Age") as [age|]; [|trivial].
  destruct (col_cmp flt age _) as [lo|] eqn:E; [|discriminate].
  intros _. exact (col_cmp_ok _ _ _ _ E).
Qed.

Lemma cap_accounts_ok (self : t) (X Y : frame) :
  cap_accounts self X = Ok Y -> numeric_or_absent X "Num_Bank_Accounts".
Proof.
  unfold cap_accounts, numeric_or_absent.
  destruct (get_col X "Num_Bank_Accounts") as [acc|]; [|trivial].
  destruct (col_cmp fgt acc _) as [over|] eqn:E; [|discriminate].
  intros _. exact (col_cmp_ok _ _ _ _ E).
Qed.

(** A [transform] that returns is the cell-wise loop: both columns were
    numeric or absent. *)
Lemma transform_ok_loop (self : t) (X Y : frame) :
  transform self X = Ok Y ->
  numeric_or_absent X "Age" /\ numeric_or_absent X "Num_Bank_Accounts"
  /\ Y = capper_loop self X.
Proof.
  intros H. unfold transform in H.
  destruct (cap_age self X) as [X1|] eqn:E1; [|discriminate].
  cbn [bind] in H. pose proof (cap_age_ok self X X1 E1) as HA.
  rewrite (cap_age_loop self X HA) in E1. injection E1 as <-.
  pose proof (cap_accounts_ok self _ Y H) as HB.
  assert (HB' : numeric_or_absent X "Num_Bank_Accounts").
  { unfold numeric_or_absent in *.
    now rewrite map_in_other in HB by discriminate. }
  split; [exact HA|]. split; [exact HB'|].
  rewrite (cap_accounts_loop self _ HB) in H. now injection H as <-.
Qed.

(** The capper cannot run before the cleaner: a text cell in [Age] makes
    both [fit] and [transform] raise [TypeError], and so does a text cell
    in [Num_Bank_Accounts] for [transform] once [Age] is numeric. *)
Theorem outlier_capper_rejects_text (self : t) (X : frame) (col : column)
  (s : string) :
  CStr s ∈ col ->
  (get_col X "Age" = Some col ->
   transform self X = Raise TypeError /\ fit self X = Raise TypeError)
  /\ (numeric_or_absent X "Age" ->
      get_col X "Num_Bank_Accounts" = Some col ->
      transform self X = Raise TypeError).
Proof.
  intros Hs. split.
  - intros Hcol. split.
    + unfold transform, cap_age. rewrite Hcol.
      now rewrite (col_cmp_text flt col _ s Hs).
    + unfold fit. rewrite Hcol. now rewrite (col_cmp_text fge col _ s Hs).
  - intros HA Hcol. unfold transform.
    rewrite (cap_age_loop self X HA). cbn [bind]. unfold cap_accounts.
    rewrite map_in_other by discriminate. rewrite Hcol.
    now rewrite (col_cmp_text fgt col _ s Hs).
Qed.

Lemma fit_median_kept_or_in_range (m0 : fval) (F : frame) (c : t) :
  fit (set_median_age init m0) F = Ok c ->
  exists m, c = set_median_age init m /\ (m = m0 \/ between 18 100 m).
Proof.
  intros H. destruct (get_col F "Age") as [age|] eqn:EA.
  - assert (Hnum : exists ages, age = CNum <$> ages).
    { unfold fit in H. rewrite EA in H.
      destruct (col_cmp fge age _) as [lo|] eqn:E; [|discriminate].
      exact (col_cmp_ok _ _ _ _ E). }
    destruct Hnum as [ages ->].
    rewrite (fit_numeric m0 F ages EA) in H. injection H as <-.
    eexists. split; [reflexivity|].
    destruct (List.filter in_range ages) as [|v vs] eqn:E; [now left|].
    right. apply median_between; [discriminate|].
    rewrite <- E. apply Forall_forall. intros a Ha.
    apply list_elem_of_In in Ha. now apply filter_in_range_spec in Ha.
  - rewrite (fit_absent _ F EA) in H. injection H as <-.
    exists m0. split; [reflexivity|now left].
Qed.

(** [fit] changes nothing but [median_age], and the median it leaves is
    the one held before or lies in [18,100].  With no age in range it is
    the one held before: a capper fitted again on a batch without a valid
    age keeps the median of the earlier fit, not the default. *)
Theorem outlier_capper_fit_learns (m0 : fval) (F : frame) (c : t) :
  fit (set_median_age init m0) F = Ok c ->
  exists m,
    c = set_median_age init m
    /\ (m = m0 \/ between 18 100 m)
    /\ (forall ages, get_col F "Age" = Some (CNum <$> ages) ->
        List.filter in_range ages = [] -> m = m0).
Proof.
  intros H. destruct (fit_median_kept_or_in_range m0 F c H) as (m & -> & Hm).
  exists m. split; [reflexivity|]. split; [exact Hm|].
  intros ages EA Hnone. rewrite (fit_numeric m0 F ages EA), Hnone in H.
  injection H as H. now rewrite H.
Qed.

Lemma capped_age_bounded (m a : fval) :
  between 18 100 m ->
  capped_age (set_median_age init m) a = NaN
  \/ between 18 100 (capped_age (set_median_age init m) a).
Proof.
  intros Hm. unfold capped_age.
  cbn [age_min age_max median_age set_median_age init].
  destruct a as [q| | |];
    [|cbn [flt fgt orb]; now right|cbn [flt fgt orb]; now right|now left].
  destruct (flt (Fin q) (of_Z 18)) eqn:E1; cbn [orb]; [now right|].
  destruct (fgt (Fin q) (of_Z 100)) eqn:E2; [now right|].
  right. cbn [between].
  apply (flt_false_Fin q 18) in E1. apply (fgt_false_Fin q 100) in E2.
  now split.
Qed.

Lemma capped_accounts_bounded (m n : fval) :
  capped_accounts (set_median_age init m) n = NaN
  \/ between 0 20 (capped_accounts (set_median_age init m) n).
Proof.
  unfold capped_accounts. cbn [max_accounts set_median_age init].
  destruct n as [q| | |]; try (right; cbn; split; discriminate);
    try (now left).
  destruct (fgt (Fin q) (of_Z 20)) eqn:E1.
  - right. cbn. split; discriminate.
  - destruct (flt (Fin q) (of_Z 0)) eqn:E2.
    + right. cbn. split; discriminate.
    + right. cbn [between].
      apply (flt_false_Fin q 0) in E2. apply (fgt_false_Fin q 20) in E1.
      now split.
Qed.

Lemma cell_at_same (X Y : frame) (name : string) (i : nat) :
  get_col Y name = get_col X name -> cell_at Y name i = cell_at X name i.
Proof. unfold cell_at. now intros ->. Qed.

Lemma cell_at_map_in (f : cell -> fval) (X : frame) (name : string) (i : nat) :
  cell_at (map_in f X name) name i
  = (fun c => CNum (f c)) <$> cell_at X name i.
Proof.
  unfold cell_at. rewrite map_in_same.
  destruct (get_col X name) as [v|]; [|reflexivity]. cbn.
  now rewrite <- list_fmap_compose, list_lookup_fmap.
Qed.

Lemma capper_loop_age (self : t) (X : frame) (i : nat) :
  cell_at (capper_loop self X) "Age" i
  = (fun c => CNum (age_cell self c)) <$> cell_at X "Age" i.
Proof.
  unfold capper_loop.
  rewrite (cell_at_same (map_in (age_cell self) X "Age"))
    by (apply map_in_other; discriminate).
  apply cell_at_map_in.
Qed.

Lemma capper_loop_accounts (self : t) (X : frame) (i : nat) :
  cell_at (capper_loop self X) "Num_Bank_Accounts" i
  = (fun c => CNum (accounts_cell self c))
      <$> cell_at X "Num_Bank_Accounts" i.
Proof.
  unfold capper_loop. rewrite cell_at_map_in.
  now rewrite (cell_at_same X (map_in (age_cell self) X "Age"))
    by (apply map_in_other; discriminate).
Qed.

(** What the later stages rely on: after a fit on any batch, every age the
    capper returns is missing or lies in [18,100], and every account count
    is missing or lies in [0,20]. *)
Theorem outlier_capper_output_bounded (F X Y : frame) (self : t) :
  fit init F = Ok self ->
  transform self X = Ok Y ->
  (forall i c, cell_at Y "Age" i = Some c ->
     c = CNum NaN \/ exists q, c = CNum (Fin q) /\ (18 <= q <= 100)%Q)
  /\ (forall i c, cell_at Y "Num_Bank_Accounts" i = Some c ->
      c = CNum NaN \/ exists q, c = CNum (Fin q) /\ (0 <= q <= 20)%Q).
Proof.
  intros Hfit HY.
  destruct (fit_median_kept_or_in_range (of_Z 30) F self Hfit)
    as (m & -> & Hm).
  assert (Hin : between 18 100 m).
  { destruct Hm as [->|Hm]; [cbn; split; discriminate|exact Hm]. }
  destruct (transform_ok_loop _ X Y HY) as (_ & _ & ->). split.
  - intros i c. rewrite capper_loop_age.
    destruct (cell_at X "Age" i) as [c0|]; [|discriminate].
    intros [= <-]. unfold age_cell.
    destruct (capped_age_bounded m (value_of c0) Hin) as [->|Hb];
      [now left|right].
    destruct (capped_age _ _) as [q| | |]; try contradiction. now exists q.
  - intros i c. rewrite capper_loop_accounts.
    destruct (cell_at X "Num_Bank_Accounts" i) as [c0|]; [|discriminate].
    intros [= <-]. unfold accounts_cell.
    destruct (capped_accounts_bounded m (value_of c0)) as [->|Hb];
      [now left|right].
    destruct (capped_accounts _ _) as [q| | |]; try contradiction.
    now exists q.
Qed.

Lemma capper_loop_idem (m : fval) (X : frame) :
  let self := set_median_age init m in
  capper_loop self (capper_loop self X) = capper_loop self X.
Proof.
  cbn zeta. set (self := set_median_age init m). set (Y := capper_loop self X).
  unfold capper_loop at 1.
  assert (C1 : map_in (age_cell self) Y "Age" = Y).
  { apply map_in_fixed. intros col Hcol. unfold Y, capper_loop in Hcol.
    rewrite map_in_other, map_in_same in Hcol by discriminate.
    destruct (get_col X "Age") as [v|]; [|discriminate].
    injection Hcol as <-. apply fixed_by_image, age_cell_idem. }
  rewrite C1. apply map_in_fixed. intros col Hcol.
  unfold Y, capper_loop in Hcol. rewrite map_in_same in Hcol.
  destruct (get_col (map_in (age_cell self) X "Age") "Num_Bank_Accounts")
    as [v|]; [|discriminate].
  injection Hcol as <-. apply fixed_by_image. intros c.
  apply (accounts_cell_idem m c).
Qed.

(** [transform] is idempotent and touches nothing but its two columns: a
    batch the capper returned is returned unchanged by the same capper;
    the column names and their order, every other column and the number of
    rows are kept. *)
Theorem outlier_capper_idempotent (m : fval) (X Y : frame) :
  transform (set_median_age init m) X = Ok Y ->
  transform (set_median_age init m) Y = Ok Y
  /\ names Y = names X
  /\ (forall name, name <> "Age" -> name <> "Num_Bank_Accounts" ->
      get_col Y name = get_col X name)
  /\ (forall n, n_rows n X -> n_rows n Y).
Proof.
  intros HY. destruct (transform_ok_loop _ X Y HY) as (HA & HB & ->).
  split; [|split; [|split]].
  - rewrite capper_transform_loop.
    + f_equal. apply capper_loop_idem.
    + unfold capper_loop. apply map_in_numeric_kept, map_in_numeric_same.
    + unfold capper_loop. apply map_in_numeric_same.
  - unfold capper_loop. now rewrite !names_map_in.
  - intros name H1 H2. unfold capper_loop.
    rewrite !map_in_other by congruence. reflexivity.
  - intros n Hn. unfold capper_loop. now apply n_rows_map_in, n_rows_map_in.
Qed.

End CapperMore.

(** ** MissingValueImputer: the dictionary, the unfitted state, idempotence *)

Section ImputerMore.
Import MissingValueImputer.

(** The observations of a key are the balances of the rows with that key. *)
Lemma observations_rows (k : key) (occ : column) (xs : list fval) (x : fval) :
  x ∈ observations k occ xs
  <-> exists i o, occ !! i = Some o /\ xs !! i = Some x
                  /\ group_key o = Some k.
Proof.
  revert xs. induction occ as [|o occ IH]; intros [|y xs].
  - split; [intros H; inversion H|intros (i & o & H & _); destruct i; discriminate].
  - split; [intros H; inversion H|intros (i & o & H & _); destruct i; discriminate].
  - split; [intros H; inversion H|intros (i & o' & _ & H & _); destruct i; discriminate].
  - cbn [observations]. destruct (decide (group_key o = Some k)) as [E|N].
    + rewrite elem_of_cons, IH. split.
      * intros [->|(i & o' & H1 & H2 & H3)].
        -- now exists 0%nat, o.
        -- now exists (S i), o'.
      * intros (i & o' & H1 & H2 & H3). destruct i as [|i].
        -- left. cbn in H2. congruence.
        -- right. now exists i, o'.
    + rewrite IH. split.
      * intros (i & o' & H1 & H2 & H3). now exists (S i), o'.
      * intros (i & o' & H1 & H2 & H3). destruct i as [|i].
        -- cbn in H1. congruence.
        -- now exists i, o'.
Qed.

(** The dictionary learned by [fit] has exactly the keys of the rows of the
    fit batch, each with the median of the balances of its rows; [fit]
    replaces whatever statistics the imputer held. *)
Theorem imputer_fit_dictionary (self : t) (F : frame) (fxs : list fval)
  (foccs : column) :
  get_col F "Monthly_Balance" = Some (CNum <$> fxs) ->
  get_col F "Occupation" = Some foccs ->
  exists st,
    fit self F = Ok st
    /\ global_median st = median fxs
    /\ forall k,
         (forall x, x ∈ observations k foccs fxs
                    <-> exists i o, foccs !! i = Some o /\ fxs !! i = Some x
                                    /\ group_key o = Some k)
         /\ (observations k foccs fxs = [] -> group_medians st !! k = None)
         /\ (observations k foccs fxs <> [] ->
             group_medians st !! k = Some (median (observations k foccs fxs))).
Proof.
  intros Hb Ho. rewrite (fit_numeric_balance self F fxs foccs Hb Ho).
  eexists. split; [reflexivity|]. split; [reflexivity|].
  intros k. cbn [group_medians]. rewrite lookup_fmap, groups_lookup.
  split; [apply observations_rows|].
  destruct (observations k foccs fxs) as [|x l]; split;
    congruence || reflexivity.
Qed.

(** An imputer fitted on a batch that lacks one of the two columns keeps
    its initial statistics, and then fills every missing balance with the
    initial global median 0.0, whatever the occupation. *)
Theorem imputer_unfitted_fills_zero (F X : frame) (bal occ : column) :
  get_col F "Monthly_Balance" = None \/ get_col F "Occupation" = None ->
  get_col X "Monthly_Balance" = Some bal ->
  get_col X "Occupation" = Some occ ->
  fit init F = Ok init
  /\ forall i b o, bal !! i = Some b -> occ !! i = Some o ->
       cell_at (transform init X) "Monthly_Balance" i
       = Some (if cell_isna b then CNum (Fin 0) else b).
Proof.
  intros HF Hb Ho. split.
  - unfold fit. destruct HF as [-> | HF]; [reflexivity|].
    rewrite HF. now destruct (get_col F "Monthly_Balance").
  - intros i b o Hi Hj. unfold cell_at, transform. rewrite Hb, Ho, get_set_eq.
    rewrite lookup_zip_with, Hi, Hj. cbn. f_equal.
    unfold fill_balance, dict_get. cbn [init group_medians global_median].
    destruct (cell_isna b); cbn [negb]; [|reflexivity].
    destruct (group_key o) as [k|]; [|reflexivity].
    now rewrite lookup_empty.
Qed.

Lemma fill_balance_present (st : t) (b o : cell) :
  isna (global_median st) = false -> cell_isna (fill_balance st b o) = false.
Proof.
  intros Hg. unfold fill_balance.
  destruct (cell_isna b) eqn:Eb; cbn [negb]; [|exact Eb].
  destruct (isna (dict_get _ o _)) eqn:E; cbn [cell_isna]; assumption.
Qed.

(** [transform] is idempotent and touches nothing but [Monthly_Balance]:
    names, order, the other columns and the number of rows are kept; and
    when the global median is defined no balance is missing afterwards. *)
Theorem imputer_transform_idempotent (st : t) (X : frame) :
  transform st (transform st X) = transform st X
  /\ names (transform st X) = names X
  /\ (forall name, name <> "Monthly_Balance" ->
      get_col (transform st X) name = get_col X name)
  /\ (forall n, n_rows n X -> n_rows n (transform st X))
  /\ (isna (global_median st) = false ->
      get_col X "Occupation" <> None ->
      forall i c, cell_at (transform st X) "Monthly_Balance" i = Some c ->
        cell_isna c = false).
Proof.
  split; [|split; [|split; [|split]]].
  - apply (imputer_fixed st X); [reflexivity|].
    apply imputer_other. discriminate.
  - unfold transform. destruct (get_col X "Monthly_Balance") as [bal|] eqn:Eb;
      [|reflexivity].
    destruct (get_col X "Occupation"); [|reflexivity].
    exact (names_set_present X _ _ bal Eb).
  - intros name Hn. now apply imputer_other.
  - intros n Hn. unfold transform.
    destruct (get_col X "Monthly_Balance") as [bal|] eqn:Eb; [|exact Hn].
    destruct (get_col X "Occupation") as [occ|] eqn:Eo; [|exact Hn].
    apply n_rows_set_col; [exact Hn|].
    rewrite length_zip_with, (Hn _ _ Eb), (Hn _ _ Eo). lia.
  - intros Hg Ho i c. unfold cell_at, transform.
    destruct (get_col X "Occupation") as [occ|]; [|contradiction].
    destruct (get_col X "Monthly_Balance") as [bal|] eqn:Eb.
    + rewrite get_set_eq, lookup_zip_with.
      destruct (bal !! i) as [b|]; [|discriminate].
      destruct (occ !! i) as [o|]; [|discriminate].
      intros [= <-]. now apply fill_balance_present.
    + rewrite Eb. discriminate.
Qed.

End ImputerMore.

(** ** FeatureEngineer: idempotence, column order, the values of the ratios *)

Section EngineerMore.
Import FeatureEngineer.

Lemma nums_length (n : nat) (X : frame) (name : string) (xs : list fval) :
  n_rows n X -> nums X name = Some xs -> length xs = n.
Proof.
  intros Hn. unfold nums. destruct (get_col X name) as [col|] eqn:E;
    [|discriminate].
  intros [= <-]. rewrite length_fmap. exact (Hn name col E).
Qed.

Lemma n_rows_ratio_in (n : nat) (out a b : string)
  (ratio : fval -> fval -> fval) (X : frame) :
  n_rows n X -> n_rows n (ratio_in out a b ratio X).
Proof.
  intros Hn. unfold ratio_in.
  destruct (nums X a) as [xs|] eqn:Ea; [|exact Hn].
  destruct (nums X b) as [ys|] eqn:Eb; [|exact Hn].
  apply n_rows_set_col; [exact Hn|].
  rewrite length_fmap, length_zip_with.
  rewrite (nums_length n X a xs Hn Ea), (nums_length n X b ys Hn Eb). lia.
Qed.

Lemma n_rows_engineer (n : nat) (X : frame) : n_rows n X -> n_rows n (engineer X).
Proof.
  intros Hn. unfold engineer.
  now apply n_rows_ratio_in, n_rows_ratio_in, n_rows_ratio_in,
    n_rows_fold_map.
Qed.

(** [transform] never raises and is idempotent: run on its own output it
    returns it unchanged.  It leaves every column but its four inputs and
    three ratios as it was, and keeps the number of rows. *)
Theorem feature_engineer_idempotent (X : frame) :
  exists Y,
    transform X = Ok Y
    /\ transform Y = Ok Y
    /\ (forall name,
          name ∉ numeric_cols ->
          name ∉ ["DTI_Ratio"; "Utilization_Proxy"; "Income_Stability"] ->
          get_col Y name = get_col X name)
    /\ (forall n, n_rows n X -> n_rows n Y).
Proof.
  exists (engineer X). split; [apply engineer_function|]. split; [|split].
  - rewrite engineer_function. f_equal. apply engineer_fixed.
  - intros name H1 H2. apply engineer_other; [exact H1| | |];
      intros ->; apply H2; compute_done.
  - intros n. apply n_rows_engineer.
Qed.

Lemma has_col_same_names (X Y : frame) (name : string) :
  names Y = names X -> has_col Y name = has_col X name.
Proof.
  intros H. apply eq_true_iff_eq. rewrite !has_col_names. now rewrite H.
Qed.

Lemma nums_present (X : frame) (name : string) :
  has_col X name = true -> exists xs, nums X name = Some xs.
Proof.
  unfold has_col, nums. destruct (get_col X name) as [col|]; [|discriminate].
  intros _. eexists. reflexivity.
Qed.

Lemma nums_missing (X : frame) (name : string) :
  has_col X name = false -> nums X name = None.
Proof.
  unfold has_col, nums. now destruct (get_col X name).
Qed.

Lemma names_ratio_in (out a b : string) (ratio : fval -> fval -> fval)
  (X : frame) :
  names (ratio_in out a b ratio X)
  = names X
    ++ (if has_col X a && has_col X b && negb (has_col X out)
        then [out] else []).
Proof.
  unfold ratio_in. destruct (has_col X a) eqn:Ea.
  - destruct (nums_present X a Ea) as [xs ->].
    destruct (has_col X b) eqn:Eb.
    + destruct (nums_present X b Eb) as [ys ->]. rewrite names_set_col.
      destruct (has_col X out); cbn; [now rewrite app_nil_r|reflexivity].
    + rewrite (nums_missing X b Eb). cbn. now rewrite app_nil_r.
  - rewrite (nums_missing X a Ea). cbn. now rewrite app_nil_r.
Qed.

Lemma has_col_app (X Y : frame) (extra : list string) (name : string) :
  names Y = names X ++ extra -> name ∉ extra ->
  has_col Y name = has_col X name.
Proof.
  intros H Hn. apply eq_true_iff_eq. rewrite !has_col_names, H, elem_of_app.
  tauto.
Qed.

(** [transform] removes and reorders no column: the names of the batch it
    returns are those of the input, in order, followed by the ratios it
    created, in the order DTI_Ratio, Utilization_Proxy, Income_Stability.
    With the four inputs present and no ratio column yet, all three are
    appended. *)
Theorem feature_engineer_appends_ratios (X : frame) :
  exists Y added,
    transform X = Ok Y
    /\ names Y = names X ++ added
    /\ sublist added ["DTI_Ratio"; "Utilization_Proxy"; "Income_Stability"]
    /\ (Forall (fun name => has_col X name = true) numeric_cols ->
        Forall (fun name => has_col X name = false)
          ["DTI_Ratio"; "Utilization_Proxy"; "Income_Stability"] ->
        added = ["DTI_Ratio"; "Utilization_Proxy"; "Income_Stability"]).
Proof.
  set (X1 := fold_left (map_in coerced) numeric_cols X).
  set (X2 := ratio_in "DTI_Ratio" "Outstanding_Debt" "Annual_Income" dti X1).
  set (X3 := ratio_in "Utilization_Proxy" "Outstanding_Debt" "Num_Credit_Card"
               utilization X2).
  set (e1 := if has_col X1 "Outstanding_Debt" && has_col X1 "Annual_Income"
                && negb (has_col X1 "DTI_Ratio")
             then ["DTI_Ratio"] else []).
  set (e2 := if has_col X2 "Outstanding_Debt" && has_col X2 "Num_Credit_Card"
                && negb (has_col X2 "Utilization_Proxy")
             then ["Utilization_Proxy"] else []).
  set (e3 := if has_col X3 "Annual_Income" && has_col X3 "Monthly_Inhand_Salary"
                && negb (has_col X3 "Income_Stability")
             then ["Income_Stability"] else []).
  assert (N1 : names X1 = names X) by apply names_fold_map.
  assert (N2 : names X2 = names X ++ e1)
    by (unfold X2; now rewrite names_ratio_in, N1).
  assert (N3 : names X3 = names X ++ (e1 ++ e2))
    by (unfold X3; now rewrite names_ratio_in, N2, <- app_assoc).
  exists (engineer X), (e1 ++ e2 ++ e3).
  split; [apply engineer_function|]. split; [|split].
  - unfold engineer. fold X1 X2 X3. rewrite names_ratio_in, N3. fold e3.
    now rewrite <- !app_assoc.
  - unfold e1, e2, e3.
    repeat match goal with |- context [if ?b then _ else _] => destruct b end;
      cbn [app]; repeat constructor.
  - intros Hin Hout.
    assert (Pin : forall name, name ∈ numeric_cols -> has_col X name = true)
      by (now apply Forall_forall).
    assert (Pout : forall name,
               name ∈ ["DTI_Ratio"; "Utilization_Proxy"; "Income_Stability"] ->
               has_col X name = false)
      by (now apply Forall_forall).
    assert (H1 : forall name, has_col X1 name = has_col X name)
      by (intros name; now apply has_col_same_names).
    assert (E1 : e1 = ["DTI_Ratio"]).
    { unfold e1. rewrite !H1.
      rewrite (Pin "Outstanding_Debt"), (Pin "Annual_Income"),
        (Pout "DTI_Ratio") by compute_done. reflexivity. }
    assert (H2 : forall name, name <> "DTI_Ratio" ->
                   has_col X2 name = has_col X name).
    { intros name Hne. apply (has_col_app X X2 e1); [exact N2|].
      rewrite E1. intros H. apply elem_of_cons in H as [H|H];
        [contradiction|inversion H]. }
    assert (E2 : e2 = ["Utilization_Proxy"]).
    { unfold e2. rewrite !H2 by discriminate.
      rewrite (Pin "Outstanding_Debt"), (Pin "Num_Credit_Card"),
        (Pout "Utilization_Proxy") by compute_done. reflexivity. }
    assert (H3 : forall name, name <> "DTI_Ratio" ->
                   name <> "Utilization_Proxy" ->
                   has_col X3 name = has_col X name).
    { intros name Ha Hb. apply (has_col_app X X3 (e1 ++ e2)); [exact N3|].
      rewrite E1, E2. intros H. cbn [app] in H.
      apply elem_of_cons in H as [H|H]; [contradiction|].
      apply elem_of_cons in H as [H|H]; [contradiction|inversion H]. }
    assert (E3 : e3 = ["Income_Stability"]).
    { unfold e3. rewrite !H3 by discriminate.
      rewrite (Pin "Annual_Income"), (Pin "Monthly_Inhand_Salary"),
        (Pout "Income_Stability") by compute_done. reflexivity. }
    now rewrite E1, E2, E3.
Qed.

End EngineerMore.


(** ** The values of the ratios *)

Section EngineerValues.
Import FeatureEngineer.

Lemma quotient_bounds (d c : Q) :
  (0 <= d)%Q -> (1 <= c)%Q -> (0 <= d / c)%Q /\ (d / c <= d)%Q.
Proof.
  intros Hd Hc. assert (P : (0 < c)%Q) by lra. split.
  - apply Qle_shift_div_l; [exact P|lra].
  - apply Qle_shift_div_r; [exact P|]. nra.
Qed.

Lemma quotient_zero (a c : Q) :
  (1 <= c)%Q -> (Qabs a / c == 0)%Q <-> (a == 0)%Q.
Proof.
  intros Hc. assert (N : ~ (c == 0)%Q) by lra. split.
  - intros H. assert (E : (Qabs a == 0)%Q).
    { assert (M : (Qabs a / c * c == Qabs a)%Q) by (field; exact N).
      assert (T : (Qabs a / c * c == 0 * c)%Q)
        by (apply Qmult_comp; [exact H|reflexivity]).
      apply (Qeq_trans _ (Qabs a / c * c)); [apply Qeq_sym; exact M|].
      apply (Qeq_trans _ _ _ T). ring. }
    destruct (Qlt_le_dec a 0) as [L|L].
    + rewrite Qabs_neg in E by lra. lra.
    + rewrite Qabs_pos in E by exact L. exact E.
  - intros H. rewrite H. reflexivity.
Qed.

Lemma Qeq_bool_zero (q : Q) : (q == 0)%Q -> Qeq_bool q 0 = true.
Proof. apply Qeq_bool_iff. Qed.

Lemma Qeq_bool_nonzero (q : Q) : ~ (q == 0)%Q -> Qeq_bool q 0 = false.
Proof.
  intros H. destruct (Qeq_bool q 0) eqn:E; [|reflexivity].
  now apply Qeq_bool_iff in E.
Qed.

Lemma signed_inf_sign (d : Q) :
  ((0 < d)%Q -> signed_inf (Qsign d) = PInf)
  /\ ((d < 0)%Q -> signed_inf (Qsign d) = NInf)
  /\ ((d == 0)%Q -> signed_inf (Qsign d) = NaN).
Proof.
  destruct d as [[|p|p] q]; unfold Qsign, Qlt, Qeq; cbn;
    repeat split; intros H; try reflexivity; lia.
Qed.

Lemma dti_minus_one (d inc : Q) :
  (inc == -1)%Q -> dti (Fin d) (Fin inc) = signed_inf (Qsign d).
Proof.
  intros H. unfold dti. cbn [fadd of_Z fdiv]. change (inject_Z 1) with 1%Q.
  rewrite Qeq_bool_zero by lra. reflexivity.
Qed.

Lemma dti_quotient (d inc : Q) :
  ~ (inc == -1)%Q -> dti (Fin d) (Fin inc) = Fin (d / (inc + 1)).
Proof.
  intros H. unfold dti. cbn [fadd of_Z fdiv]. change (inject_Z 1) with 1%Q.
  rewrite Qeq_bool_nonzero by lra. reflexivity.
Qed.

(** The debt-to-income ratio and the utilization proxy of a row with a
    finite non-negative debt and a non-negative denominator input lie
    between zero and the debt; the income stability of a row with finite
    inputs and a non-negative income is non-negative, and it is zero
    exactly when the annual income is twelve times the monthly salary. *)
Theorem feature_engineer_ratio_ranges (X Y : frame) (i : nat) :
  transform X = Ok Y ->
  (forall d inc : Q,
      at_row (inputs X "Outstanding_Debt") i = Some (Fin d) ->
      at_row (inputs X "Annual_Income") i = Some (Fin inc) ->
      (0 <= d)%Q -> (0 <= inc)%Q ->
      exists r, cell_at Y "DTI_Ratio" i = Some (CNum (Fin r))
                /\ (0 <= r)%Q /\ (r <= d)%Q)
  /\ (forall d c : Q,
      at_row (inputs X "Outstanding_Debt") i = Some (Fin d) ->
      at_row (inputs X "Num_Credit_Card") i = Some (Fin c) ->
      (0 <= d)%Q -> (0 <= c)%Q ->
      exists r, cell_at Y "Utilization_Proxy" i = Some (CNum (Fin r))
                /\ (0 <= r)%Q /\ (r <= d)%Q)
  /\ (forall inc s : Q,
      at_row (inputs X "Annual_Income") i = Some (Fin inc) ->
      at_row (inputs X "Monthly_Inhand_Salary") i = Some (Fin s) ->
      (0 <= inc)%Q ->
      exists r, cell_at Y "Income_Stability" i = Some (CNum (Fin r))
                /\ (0 <= r)%Q /\ ((r == 0)%Q <-> (inc == s * 12)%Q)).
Proof.
  intros HY. destruct (engineer_transform X) as (Y' & E & _ & D & U & S).
  rewrite HY in E. injection E as <-.
  split; [|split].
  - intros d inc Hd Hi Pd Pi. eexists. split.
    + rewrite <- (dti_finite d inc Pi).
      exact (ratio_cell Y _ _ _ _ dti i _ _ D Hd Hi).
    + apply quotient_bounds; [exact Pd|now apply plus_one_ge].
  - intros d c Hd Hc Pd Pc. eexists. split.
    + rewrite <- (utilization_finite d c Pc).
      exact (ratio_cell Y _ _ _ _ utilization i _ _ U Hd Hc).
    + apply quotient_bounds; [exact Pd|].
      apply plus_one_ge. now apply cards_limit_ge.
  - intros inc s Hi Hs Pi. eexists. split.
    + rewrite <- (stability_finite inc s Pi).
      exact (ratio_cell Y _ _ _ _ stability i _ _ S Hi Hs).
    + pose proof (plus_one_ge inc Pi) as P1. split.
      * apply Qle_shift_div_l; [lra|].
        pose proof (Qabs_nonneg (inc + - (s * 12))). lra.
      * rewrite (quotient_zero _ _ P1). split; intros H; lra.
Qed.

(** The debt-to-income ratio divides by the income plus one with no guard:
    in a row with finite inputs whose income is -1 the ratio is plus
    infinity, minus infinity or missing as the debt is positive, negative
    or zero, and the stage still returns; for every other finite income it
    is the finite quotient. *)
Theorem feature_engineer_income_minus_one (X Y : frame) (i : nat) (d inc : Q) :
  transform X = Ok Y ->
  at_row (inputs X "Outstanding_Debt") i = Some (Fin d) ->
  at_row (inputs X "Annual_Income") i = Some (Fin inc) ->
  ((inc == -1)%Q ->
     ((0 < d)%Q -> cell_at Y "DTI_Ratio" i = Some (CNum PInf))
     /\ ((d < 0)%Q -> cell_at Y "DTI_Ratio" i = Some (CNum NInf))
     /\ ((d == 0)%Q -> cell_at Y "DTI_Ratio" i = Some (CNum NaN)))
  /\ (~ (inc == -1)%Q ->
      cell_at Y "DTI_Ratio" i = Some (CNum (Fin (d / (inc + 1))))).
Proof.
  intros HY Hd Hi. destruct (engineer_transform X) as (Y' & E & _ & D & _).
  rewrite HY in E. injection E as <-.
  pose proof (ratio_cell Y _ _ _ _ dti i _ _ D Hd Hi) as C.
  split.
  - intros H. rewrite (dti_minus_one d inc H) in C.
    destruct (signed_inf_sign d) as (P & N & Z).
    repeat split; intros Hs; rewrite C; do 2 f_equal; auto.
  - intros H. now rewrite (dti_quotient d inc H) in C.
Qed.

End EngineerValues.

(** ** The steps of the training pipeline, chained *)

Section ChainMore.

Lemma capper_loop_other (self : OutlierCapper.t) (X : frame) (name : string) :
  name <> "Age" -> name <> "Num_Bank_Accounts" ->
  get_col (capper_loop self X) name = get_col X name.
Proof.
  intros Ha Hb. unfold capper_loop.
  rewrite map_in_other by congruence. apply map_in_other. congruence.
Qed.

Lemma n_rows_capper_loop (self : OutlierCapper.t) (n : nat) (X : frame) :
  n_rows n X -> n_rows n (capper_loop self X).
Proof. intros H. unfold capper_loop. now apply n_rows_map_in, n_rows_map_in. Qed.

Lemma n_rows_imputer (st : MissingValueImputer.t) (n : nat) (X : frame) :
  n_rows n X -> n_rows n (MissingValueImputer.transform st X).
Proof.
  intros Hn. unfold MissingValueImputer.transform.
  destruct (get_col X "Monthly_Balance") as [bal|] eqn:Eb; [|exact Hn].
  destruct (get_col X "Occupation") as [occ|] eqn:Eo; [|exact Hn].
  apply n_rows_set_col; [exact Hn|].
  rewrite length_zip_with, (Hn _ _ Eb), (Hn _ _ Eo). lia.
Qed.

Lemma DIRTY_NUMERIC_COLS_NoDup : NoDup DIRTY_NUMERIC_COLS.
Proof. compute_done. Qed.

(** The frame the capper and the imputer are fitted on. *)
Lemma cleaned_balance (self : OutlierCapper.t) (F : frame) :
  get_col (capper_loop self (fold_left (map_in cleaned) DIRTY_NUMERIC_COLS F))
    "Monthly_Balance"
  = (fun v : column => CNum <$> (cleaned <$> v))
      <$> get_col F "Monthly_Balance".
Proof.
  rewrite capper_loop_other by discriminate.
  apply fold_map_configured; [exact DIRTY_NUMERIC_COLS_NoDup|compute_done].
Qed.

Lemma cleaned_occupation (self : OutlierCapper.t) (F : frame) :
  get_col (capper_loop self (fold_left (map_in cleaned) DIRTY_NUMERIC_COLS F))
    "Occupation"
  = get_col F "Occupation".
Proof.
  rewrite capper_loop_other by discriminate.
  apply fold_map_untouched. compute_done.
Qed.

Lemma capper_fit_cleaned (F : frame) :
  exists m,
    OutlierCapper.fit OutlierCapper.init
      (fold_left (map_in cleaned) DIRTY_NUMERIC_COLS F)
    = Ok (OutlierCapper.set_median_age OutlierCapper.init m)
    /\ (m = of_Z 30 \/ between 18 100 m).
Proof.
  set (X1 := fold_left (map_in cleaned) DIRTY_NUMERIC_COLS F).
  assert (E : exists o, OutlierCapper.fit OutlierCapper.init X1 = Ok o).
  { assert (N : numeric_or_absent X1 "Age")
      by (apply fold_map_numeric; compute_done).
    unfold numeric_or_absent in N.
    destruct (get_col X1 "Age") as [age|] eqn:EA.
    - destruct N as [ages ->]. eexists.
      exact (fit_numeric (of_Z 30) X1 ages EA).
    - eexists. exact (fit_absent _ X1 EA). }
  destruct E as [o E].
  destruct (fit_median_kept_or_in_range (of_Z 30) X1 o E) as (m & -> & Hm).
  now exists m.
Qed.

Lemma imputer_fit_cleaned (self : OutlierCapper.t) (F : frame) :
  MissingValueImputer.fit MissingValueImputer.init
    (capper_loop self (fold_left (map_in cleaned) DIRTY_NUMERIC_COLS F))
  = Ok match get_col F "Monthly_Balance", get_col F "Occupation" with
       | Some bal, Some occ =>
           {| MissingValueImputer.global_median := median (cleaned <$> bal);
              MissingValueImputer.group_medians :=
                median <$> MissingValueImputer.groups occ (cleaned <$> bal) |}
       | _, _ => MissingValueImputer.init
       end.
Proof.
  pose proof (cleaned_balance self F) as B.
  pose proof (cleaned_occupation self F) as O.
  destruct (get_col F "Monthly_Balance") as [bal|];
    cbn [fmap option_fmap option_map] in B.
  - destruct (get_col F "Occupation") as [occ|].
    + exact (fit_numeric_balance _ _ _ _ B O).
    + unfold MissingValueImputer.fit. now rewrite B, O.
  - unfold MissingValueImputer.fit. now rewrite B.
Qed.

Lemma chain_fit_function (F : frame) :
  exists m st,
    chain_fit new_chain F = Ok (fitted_chain m st)
    /\ (m = of_Z 30 \/ between 18 100 m)
    /\ st = match get_col F "Monthly_Balance", get_col F "Occupation" with
            | Some bal, Some occ =>
                {| MissingValueImputer.global_median :=
                     median (cleaned <$> bal);
                   MissingValueImputer.group_medians :=
                     median
                       <$> MissingValueImputer.groups occ (cleaned <$> bal) |}
            | _, _ => MissingValueImputer.init
            end.
Proof.
  destruct (capper_fit_cleaned F) as (m & Hfit & Hm).
  exists m. eexists. split; [|split; [exact Hm|reflexivity]].
  unfold chain_fit, new_chain, fitted_chain.
  cbn [regex outliers imputer RegexCleaner.fit].
  rewrite transform_fold. cbn [bind]. rewrite Hfit. cbn [bind].
  rewrite capper_transform_loop by (apply fold_map_numeric; compute_done).
  cbn [bind]. rewrite imputer_fit_cleaned. reflexivity.
Qed.

(** Fitting the steps [regex], [outliers], [imputer] and [features] of
    the training pipeline on any batch returns: the capper keeps the
    default median age 30 or learns one between 18 and 100, and the imputer
    learns its medians from the cleaned balances when the batch has both of
    its columns, and keeps its initial state otherwise. *)
Theorem chain_fit_never_raises (F : frame) :
  exists m st,
    chain_fit new_chain F = Ok (fitted_chain m st)
    /\ (m = of_Z 30 \/ between 18 100 m)
    /\ st = match get_col F "Monthly_Balance", get_col F "Occupation" with
            | Some bal, Some occ =>
                {| MissingValueImputer.global_median :=
                     median (cleaned <$> bal);
                   MissingValueImputer.group_medians :=
                     median
                       <$> MissingValueImputer.groups occ (cleaned <$> bal) |}
            | _, _ => MissingValueImputer.init
            end.
Proof. exact (chain_fit_function F). Qed.

Lemma bounded_cell (lo hi : Q) (x : fval) :
  x = NaN \/ between lo hi x ->
  CNum x = CNum NaN \/ exists q, CNum x = CNum (Fin q) /\ (lo <= q <= hi)%Q.
Proof.
  intros [->|H]; [now left|right].
  destruct x as [q| | |]; try contradiction. now exists q.
Qed.

(** The steps [regex], [outliers], [imputer] and [features], fitted as
    train.py fits them, turn every batch into features without raising.  The batch keeps its number of rows; every age is
    missing or between 18 and 100, every number of bank accounts missing
    or between 0 and 20; and when the fitted global median is defined and
    the batch has an occupation column, no balance is missing. *)
Theorem chain_transform_output (F X : frame) (p : chain) :
  chain_fit new_chain F = Ok p ->
  exists Y,
    chain_transform p X = Ok Y
    /\ (forall n, n_rows n X -> n_rows n Y)
    /\ (forall i c, cell_at Y "Age" i = Some c ->
        c = CNum NaN \/ exists q, c = CNum (Fin q) /\ (18 <= q <= 100)%Q)
    /\ (forall i c, cell_at Y "Num_Bank_Accounts" i = Some c ->
        c = CNum NaN \/ exists q, c = CNum (Fin q) /\ (0 <= q <= 20)%Q)
    /\ (isna (MissingValueImputer.global_median (imputer p)) = false ->
        get_col X "Occupation" <> None ->
        forall i c, cell_at Y "Monthly_Balance" i = Some c ->
          cell_isna c = false).
Proof.
  intros Hfit. destruct (chain_fit_function F) as (m & st & E & Hm & _).
  rewrite E in Hfit. injection Hfit as <-.
  assert (Hin : between 18 100 m).
  { destruct Hm as [->|Hm]; [cbn; split; discriminate|exact Hm]. }
  exists (chain_function m st X).
  split; [apply chain_transform_function|].
  unfold chain_function.
  set (self := OutlierCapper.set_median_age OutlierCapper.init m).
  set (X1 := fold_left (map_in cleaned) DIRTY_NUMERIC_COLS X).
  split; [|split; [|split]].
  - intros n Hn.
    now apply n_rows_engineer, n_rows_imputer, n_rows_capper_loop,
      n_rows_fold_map.
  - intros i c.
    rewrite (cell_at_same _ _ "Age" i
               (engineer_other _ "Age" ltac:(compute_done)
                  ltac:(discriminate) ltac:(discriminate)
                  ltac:(discriminate))).
    rewrite (cell_at_same _ _ "Age" i
               (imputer_other st _ "Age" ltac:(discriminate))).
    rewrite capper_loop_age.
    destruct (cell_at X1 "Age" i) as [c0|]; [|discriminate].
    intros [= <-]. apply bounded_cell.
    exact (capped_age_bounded m (value_of c0) Hin).
  - intros i c.
    rewrite (cell_at_same _ _ "Num_Bank_Accounts" i
               (engineer_other _ "Num_Bank_Accounts" ltac:(compute_done)
                  ltac:(discriminate) ltac:(discriminate)
                  ltac:(discriminate))).
    rewrite (cell_at_same _ _ "Num_Bank_Accounts" i
               (imputer_other st _ "Num_Bank_Accounts" ltac:(discriminate))).
    rewrite capper_loop_accounts.
    destruct (cell_at X1 "Num_Bank_Accounts" i) as [c0|]; [|discriminate].
    intros [= <-]. apply bounded_cell.
    exact (capped_accounts_bounded m (value_of c0)).
  - cbn [imputer fitted_chain]. intros Hg Ho i c.
    rewrite (cell_at_same _ _ "Monthly_Balance" i
               (engineer_other _ "Monthly_Balance" ltac:(compute_done)
                  ltac:(discriminate) ltac:(discriminate)
                  ltac:(discriminate))).
    unfold cell_at, MissingValueImputer.transform.
    unfold X1. rewrite (cleaned_occupation self X).
    destruct (get_col X "Occupation") as [occ|]; [|contradiction].
    destruct (get_col (capper_loop self _) "Monthly_Balance")
      as [bal|] eqn:Eb.
    + rewrite get_set_eq, lookup_zip_with.
      destruct (bal !! i) as [b|]; [|discriminate].
      destruct (occ !! i) as [o|]; [|discriminate].
      intros [= <-]. now apply fill_balance_present.
    + rewrite Eb. discriminate.
Qed.

(** [X.iloc[i : i + k]]: the [k] rows of a batch from row [i] on. *)
Definition rows (i k : nat) (X : frame) : frame :=
  (fun p : string * column => (p.1, take k (drop i p.2))) <$> X.

Lemma get_col_rows (i k : nat) (X : frame) (name : string) :
  get_col (rows i k X) name
  = (fun col : column => take k (drop i col)) <$> get_col X name.
Proof.
  induction X as [|[n v] X IH]; [reflexivity|].
  unfold rows. rewrite fmap_cons. cbn [get_col fst snd].
  destruct (String.eqb n name); [reflexivity|exact IH].
Qed.

Lemma set_col_rows (i k : nat) (X : frame) (name : string) (v : column) :
  set_col (rows i k X) name (take k (drop i v)) = rows i k (set_col X name v).
Proof.
  induction X as [|[n w] X IH]; [reflexivity|].
  unfold rows. rewrite fmap_cons. cbn [set_col fst snd].
  destruct (String.eqb n name).
  - now rewrite fmap_cons.
  - rewrite fmap_cons. cbn [fst snd]. f_equal. exact IH.
Qed.

Lemma map_in_rows (f : cell -> fval) (i k : nat) (X : frame) (name : string) :
  map_in f (rows i k X) name = rows i k (map_in f X name).
Proof.
  unfold map_in. rewrite get_col_rows.
  destruct (get_col X name) as [v|]; cbn [fmap option_fmap option_map];
    [|reflexivity].
  rewrite <- set_col_rows. f_equal.
  now rewrite !fmap_take, !fmap_drop.
Qed.

Lemma fold_map_rows (f : cell -> fval) (i k : nat) (cols : list string)
  (X : frame) :
  fold_left (map_in f) cols (rows i k X)
  = rows i k (fold_left (map_in f) cols X).
Proof.
  revert X. induction cols as [|c cols IH]; intros X; [reflexivity|].
  cbn [fold_left]. now rewrite map_in_rows, IH.
Qed.

Lemma capper_loop_rows (self : OutlierCapper.t) (i k : nat) (X : frame) :
  capper_loop self (rows i k X) = rows i k (capper_loop self X).
Proof. unfold capper_loop. now rewrite !map_in_rows. Qed.

Lemma imputer_rows (st : MissingValueImputer.t) (i k : nat) (X : frame) :
  MissingValueImputer.transform st (rows i k X)
  = rows i k (MissingValueImputer.transform st X).
Proof.
  unfold MissingValueImputer.transform. rewrite !get_col_rows.
  destruct (get_col X "Monthly_Balance") as [bal|];
    cbn [fmap option_fmap option_map]; [|reflexivity].
  destruct (get_col X "Occupation") as [occ|];
    cbn [fmap option_fmap option_map]; [|reflexivity].
  rewrite <- set_col_rows. f_equal.
  now rewrite zip_with_drop, zip_with_take.
Qed.

Lemma nums_rows (i k : nat) (X : frame) (name : string) :
  nums (rows i k X) name
  = (fun xs : list fval => take k (drop i xs)) <$> nums X name.
Proof.
  unfold nums. rewrite get_col_rows.
  destruct (get_col X name) as [v|]; cbn [fmap option_fmap option_map];
    [|reflexivity].
  now rewrite fmap_take, fmap_drop.
Qed.

Lemma ratio_in_rows (out a b : string) (ratio : fval -> fval -> fval)
  (i k : nat) (X : frame) :
  ratio_in out a b ratio (rows i k X) = rows i k (ratio_in out a b ratio X).
Proof.
  unfold ratio_in. rewrite !nums_rows.
  destruct (nums X a) as [xs|]; cbn [fmap option_fmap option_map];
    [|reflexivity].
  destruct (nums X b) as [ys|]; cbn [fmap option_fmap option_map];
    [|reflexivity].
  rewrite <- set_col_rows. f_equal.
  now rewrite <- fmap_drop, <- fmap_take, zip_with_drop, zip_with_take.
Qed.

Lemma engineer_rows (i k : nat) (X : frame) :
  engineer (rows i k X) = rows i k (engineer X).
Proof. unfold engineer. now rewrite fold_map_rows, !ratio_in_rows. Qed.

Lemma chain_function_rows (m : fval) (st : MissingValueImputer.t)
  (i k : nat) (X : frame) :
  chain_function m st (rows i k X) = rows i k (chain_function m st X).
Proof.
  unfold chain_function.
  now rewrite fold_map_rows, capper_loop_rows, imputer_rows, engineer_rows.
Qed.

(** The fitted steps work row by row: the features of a slice of a batch
    are the slice of the features of the batch; no step looks across
    rows once it is fitted. *)
Theorem chain_transform_row_by_row (F X : frame) (p : chain) (i k : nat) :
  chain_fit new_chain F = Ok p ->
  exists Y,
    chain_transform p X = Ok Y
    /\ chain_transform p (rows i k X) = Ok (rows i k Y).
Proof.
  intros Hfit. destruct (chain_fit_shape F p Hfit) as (m & st & ->).
  exists (chain_function m st X).
  rewrite !chain_transform_function, chain_function_rows. now split.
Qed.

End ChainMore.

(** ** The prediction endpoint *)

Section ServingMore.
Import App.

Lemma round_half_even_near (n d : Z) :
  0 < d -> 2 * Z.abs (round_half_even n d * d - n) <= d.
Proof.
  intros Hd. unfold round_half_even.
  pose proof (Z.div_mod n d ltac:(lia)) as E.
  pose proof (Z.mod_pos_bound n d Hd) as B.
  destruct (Z.compare_spec (2 * (n mod d)) d) as [C|C|C];
    [destruct (Z.even (n / d))| |]; nia.
Qed.

Lemma round_half_even_exact (k d : Z) :
  0 < d -> round_half_even (k * d) d = k.
Proof.
  intros Hd. unfold round_half_even.
  rewrite Z.div_mul, Z.mod_mul by lia. cbn.
  destruct d; try lia. reflexivity.
Qed.

Lemma round_half_even_range (n d lo hi : Z) :
  0 < d -> lo * d <= n <= hi * d -> lo <= round_half_even n d <= hi.
Proof.
  intros Hd [Hlo Hhi]. unfold round_half_even.
  pose proof (Z.div_mod n d ltac:(lia)) as E.
  pose proof (Z.mod_pos_bound n d Hd) as B.
  assert (lo <= n / d) by (apply Z.div_le_lower_bound; lia).
  assert (n / d <= hi) by (apply Z.div_le_upper_bound; lia).
  assert (n / d = hi -> n mod d = 0) by nia.
  destruct (Z.compare_spec (2 * (n mod d)) d) as [C|C|C];
    [destruct (Z.even (n / d))| |]; nia.
Qed.

(** The number of thousandths [round3] rounds a finite value to. *)
Definition thousandths (q : Q) : Z :=
  round_half_even (Qnum q * 1000) (Zpos (Qden q)).

(** In exact arithmetic [round(float(p), 3)] of a finite value is a whole
    number of thousandths at most half a thousandth away from it; a value
    between 0 and 1 stays there; rounding twice changes nothing more;
    infinities and missing values are returned as they are. *)
Theorem round3_nearest_thousandth (q : Q) :
  (exists r k,
      round3 (Fin q) = Fin r /\ (r == k # 1000)%Q
      /\ (q - (1 # 2000) <= r)%Q /\ (r <= q + (1 # 2000))%Q
      /\ ((0 <= q)%Q -> (q <= 1)%Q -> (0 <= r)%Q /\ (r <= 1)%Q))
  /\ round3 (round3 (Fin q)) = round3 (Fin q)
  /\ round3 PInf = PInf /\ round3 NInf = NInf /\ round3 NaN = NaN.
Proof.
  split; [|split; [|repeat split]].
  - exists (Qred (thousandths q # 1000)), (thousandths q).
    split; [reflexivity|].
    pose proof (Qred_correct (thousandths q # 1000)) as E.
    split; [exact E|].
    pose proof (round_half_even_near (Qnum q * 1000) (Zpos (Qden q))
                  ltac:(lia)) as N.
    fold (thousandths q) in N.
    assert (L : (q - (1 # 2000) <= thousandths q # 1000)%Q).
    { destruct q as [a b]. unfold Qle, Qminus, Qplus, Qopp. cbn in *. lia. }
    assert (U : (thousandths q # 1000 <= q + (1 # 2000))%Q).
    { destruct q as [a b]. unfold Qle, Qplus. cbn in *. lia. }
    split; [lra|]. split; [lra|].
    intros H0 H1.
    assert (R : 0 <= thousandths q <= 1000).
    { apply round_half_even_range; [lia|].
      destruct q as [a b]. unfold Qle in H0, H1. cbn in *. lia. }
    assert (R0 : (0 <= thousandths q # 1000)%Q)
      by (unfold Qle; cbn; lia).
    assert (R1 : (thousandths q # 1000 <= 1)%Q)
      by (unfold Qle; cbn; lia).
    split; lra.
  - unfold round3. do 2 f_equal. fold (thousandths q).
    set (k := thousandths q).
    pose proof (Qred_correct (k # 1000)) as E.
    assert (K : round_half_even (Qnum (Qred (k # 1000)) * 1000)
                  (Zpos (Qden (Qred (k # 1000)))) = k).
    { unfold Qeq in E. cbn [Qnum Qden] in E.
      replace (Qnum (Qred (k # 1000)) * 1000)
        with (k * Zpos (Qden (Qred (k # 1000)))) by lia.
      apply round_half_even_exact. lia. }
    rewrite K. reflexivity.
Qed.

Lemma index_ok {A : Type} (l : list A) (i : nat) (a : A) :
  index l i = Ok a -> l !! i = Some a.
Proof. unfold index. destruct (l !! i); [now intros [= ->]|discriminate]. Qed.

Lemma class_map_ok (idx : Z) (s : string) :
  class_map idx = Ok s ->
  (idx = 0 /\ s = "Good") \/ (idx = 1 /\ s = "Standard")
  \/ (idx = 2 /\ s = "Poor").
Proof.
  destruct idx as [|[[]|[]|]|]; cbn; try discriminate; intros [= <-]; auto.
Qed.

Lemma predict_ok_body (pipeline : option Pipeline) (a : CreditApplication)
  (r : response) :
  predict pipeline a = Ok r ->
  exists p, pipeline = Some p /\ n_steps p <> O /\ predict_body p a = Ok r.
Proof.
  unfold predict, not_. destruct pipeline as [p|]; [|discriminate].
  destruct (n_steps p) as [|k] eqn:E; [discriminate|]. cbn [Nat.eqb].
  destruct (predict_body p a) as [r'|e] eqn:B; [|discriminate].
  intros [= <-]. exists p.
  split; [reflexivity|split; [congruence|exact B]].
Qed.

(** A response is only ever built from a loaded pipeline: the reported
    score is the label of the first prediction, 0, 1 or 2, the risk level
    is Low for Good, Medium for Standard and High for Poor, and the three
    probabilities are the first row of [predict_proba], each rounded to
    three places. *)
Theorem predict_response_consistent (pipeline : option Pipeline)
  (a : CreditApplication) (r : response) :
  predict pipeline a = Ok r ->
  exists p idx rest p0 p1 p2 more others,
    pipeline = Some p
    /\ pipeline_predict p (to_frame a) = Ok (idx :: rest)
    /\ pipeline_predict_proba p (to_frame a)
       = Ok ((p0 :: p1 :: p2 :: more) :: others)
    /\ ((idx = 0 /\ credit_score r = "Good" /\ risk_level r = "Low")
        \/ (idx = 1 /\ credit_score r = "Standard" /\ risk_level r = "Medium")
        \/ (idx = 2 /\ credit_score r = "Poor" /\ risk_level r = "High"))
    /\ probability r = (round3 p0, round3 p1, round3 p2).
Proof.
  intros H. destruct (predict_ok_body _ _ _ H) as (p & -> & _ & B).
  unfold predict_body in B.
  destruct (pipeline_predict p (to_frame a)) as [preds|] eqn:EP;
    [|discriminate].
  cbn [bind] in B.
  destruct (index preds 0) as [idx|] eqn:EI; [|discriminate].
  cbn [bind] in B.
  destruct (pipeline_predict_proba p (to_frame a)) as [all_probs|] eqn:EA;
    [|discriminate].
  cbn [bind] in B.
  destruct (index all_probs 0) as [probs|] eqn:EJ; [|discriminate].
  cbn [bind] in B.
  destruct (class_map idx) as [s|] eqn:EC; [|discriminate].
  cbn [bind] in B.
  destruct (index probs 0) as [p0|] eqn:E0; [|discriminate]. cbn [bind] in B.
  destruct (index probs 1) as [p1|] eqn:E1; [|discriminate]. cbn [bind] in B.
  destruct (index probs 2) as [p2|] eqn:E2; [|discriminate]. cbn [bind] in B.
  injection B as <-.
  apply index_ok in EI, EJ, E0, E1, E2.
  destruct preds as [|i0 rest]; [discriminate|]. injection EI as ->.
  destruct all_probs as [|row others]; [discriminate|]. injection EJ as ->.
  destruct probs as [|q0 [|q1 [|q2 more]]]; try discriminate.
  injection E0 as ->. injection E1 as ->. injection E2 as ->.
  exists p, idx, rest, p0, p1, p2, more, others.
  split; [reflexivity|]. split; [exact EP|]. split; [exact EA|].
  split; [|reflexivity]. cbn [credit_score risk_level].
  destruct (class_map_ok idx s EC) as [[-> ->]|[[-> ->]|[-> ->]]];
    [left|right; left|right; right]; repeat split; reflexivity.
Qed.

(** Every failure of the endpoint is an HTTP failure with status 503 or
    500: 503 exactly when no usable pipeline is loaded, and 500 for
    whatever the loaded pipeline or the decoding of its answer raises; in
    particular a first prediction outside 0, 1 and 2, or an empty list of
    predictions, is answered with status 500. *)
Theorem predict_failure_statuses (pipeline : option Pipeline)
  (a : CreditApplication) :
  (forall e, predict pipeline a = Raise e ->
     (not_ pipeline = true /\ e = HTTPException 503 "Model not loaded")
     \/ (not_ pipeline = false /\ exists d, e = HTTPException 500 d))
  /\ (forall p, pipeline = Some p -> n_steps p <> O ->
      (forall e, pipeline_predict p (to_frame a) = Raise e ->
         exists d, predict pipeline a = Raise (HTTPException 500 d))
      /\ (pipeline_predict p (to_frame a) = Ok [] ->
          exists d, predict pipeline a = Raise (HTTPException 500 d))
      /\ (forall idx rest,
          pipeline_predict p (to_frame a) = Ok (idx :: rest) ->
          idx < 0 \/ 2 < idx ->
          exists d, predict pipeline a = Raise (HTTPException 500 d))).
Proof.
  split.
  - intros e. unfold predict. destruct (not_ pipeline) eqn:N.
    + intros [= <-]. now left.
    + destruct pipeline as [p|]; [|discriminate N].
      destruct (predict_body p a) as [r|e']; [discriminate|].
      intros [= <-]. right. split; [reflexivity|]. eauto.
  - intros p -> Hn.
    assert (S : forall e, predict_body p a = Raise e ->
                exists d, predict (Some p) a = Raise (HTTPException 500 d)).
    { intros e B. unfold predict, not_.
      destruct (n_steps p); [congruence|]. cbn [Nat.eqb].
      rewrite B. eauto. }
    split; [|split].
    + intros e E. apply (S e). unfold predict_body. now rewrite E.
    + intros E. apply (S IndexError). unfold predict_body. now rewrite E.
    + intros idx rest E Hout. unfold predict_body in S. rewrite E in S.
      cbn [bind index lookup list_lookup] in S.
      destruct (pipeline_predict_proba p (to_frame a)) as [all_probs|e1];
        cbn [bind] in S; [|now apply (S e1)].
      destruct (index all_probs 0) as [probs|e2];
        cbn [bind] in S; [|now apply (S e2)].
      assert (C : class_map idx = Raise KeyError).
      { destruct idx as [|[[]|[]|]|]; cbn; try reflexivity; lia. }
      rewrite C in S. cbn [bind] in S. now apply (S KeyError).
Qed.

End ServingMore.

(** ** The targets of the training run *)

Section Targets.
Import App.

(** The labels [target_map] knows. *)
Definition known_label (c : cell) : bool :=
  match c with
  | CStr s => bool_decide (s ∈ ["Good"; "Standard"; "Poor"])
  | CNum _ => false
  end.

Lemma target_map_known (c : cell) :
  negb (cell_isna (map_target c)) = known_label c.
Proof.
  destruct c as [s|x]; [|reflexivity]. cbn [map_target known_label].
  unfold target_map.
  destruct (String.eqb_spec s "Good") as [->|N1]; [reflexivity|].
  destruct (String.eqb_spec s "Standard") as [->|N2]; [reflexivity|].
  destruct (String.eqb_spec s "Poor") as [->|N3]; [reflexivity|].
  cbn. symmetry. apply bool_decide_eq_false. intros H.
  repeat (apply elem_of_cons in H as [H|H]; [congruence|]). inversion H.
Qed.

(** Decoding a target with the table of the endpoint gives the label back. *)
Lemma target_decodes (c : cell) :
  known_label c = true ->
  exists z s, map_target c = CNum (of_Z z) /\ class_map z = Ok s
              /\ c = CStr s.
Proof.
  destruct c as [s|x]; [|discriminate]. cbn [known_label]. intros H.
  apply bool_decide_eq_true in H.
  repeat (apply elem_of_cons in H as [->|H]);
    [exists 0, "Good"|exists 1, "Standard"|exists 2, "Poor"|inversion H];
    repeat split; reflexivity.
Qed.

Lemma select_filter {A : Type} (f : A -> bool) (g : A -> cell) (l : list A) :
  select (f <$> l) (g <$> l) = g <$> List.filter f l.
Proof.
  induction l as [|a l IH]; [reflexivity|].
  rewrite !fmap_cons. cbn [select List.filter].
  destruct (f a); [rewrite fmap_cons|]; now rewrite IH.
Qed.

Lemma get_col_select (mask : list bool) (X : frame) (name : string) :
  get_col ((fun p : string * column => (p.1, select mask p.2)) <$> X) name
  = select mask <$> get_col X name.
Proof.
  induction X as [|[n v] X IH]; [reflexivity|].
  rewrite fmap_cons. cbn [get_col fst snd].
  destruct (String.eqb n name); [reflexivity|exact IH].
Qed.

Lemma existsb_eqb (name : string) (l : list string) :
  existsb (String.eqb name) l = bool_decide (name ∈ l).
Proof.
  induction l as [|a l IH]; [reflexivity|]. cbn [existsb]. rewrite IH.
  destruct (String.eqb_spec name a) as [->|N]; cbn.
  - symmetry. apply bool_decide_eq_true. constructor.
  - apply bool_decide_ext. rewrite elem_of_cons. tauto.
Qed.

Lemma get_col_drop_columns (X : frame) (names : list string) (name : string) :
  get_col (drop_columns X names) name
  = if bool_decide (name ∈ names) then None else get_col X name.
Proof.
  induction X as [|[n v] X IH].
  - cbn. now destruct (bool_decide _).
  - unfold drop_columns. cbn [List.filter fst]. fold (drop_columns X names).
    rewrite existsb_eqb.
    destruct (String.eqb_spec n name) as [->|N].
    + destruct (bool_decide (name ∈ names)) eqn:E; cbn [negb].
      * exact IH.
      * cbn [get_col]. now rewrite String.eqb_refl.
    + apply String.eqb_neq in N.
      destruct (bool_decide (n ∈ names)); cbn [negb get_col]; rewrite N;
        exact IH.
Qed.

(** The training run needs the label column, and keeps exactly the rows
    whose label is Good, Standard or Poor, in their order: the targets are
    0, 1 and 2, never missing, and the table of the endpoint decodes each
    one to the label of its row; the features lose the label, the target
    and the other dropped columns, and hold the kept rows of every other
    column. *)
Theorem train_targets_decode (df : frame) :
  (get_col df "Credit_Score" = None -> train_targets df = Raise KeyError)
  /\ (forall labels, get_col df "Credit_Score" = Some labels ->
      exists X y,
        train_targets df = Ok (X, y)
        /\ length y = length (List.filter known_label labels)
        /\ (forall i c, y !! i = Some c ->
            exists z s,
              c = CNum (of_Z z) /\ class_map z = Ok s
              /\ List.filter known_label labels !! i = Some (CStr s))
        /\ (forall name, name ∈ drop_cols -> get_col X name = None)
        /\ (forall name, name ∉ drop_cols ->
            get_col X name
            = select (known_label <$> labels) <$> get_col df name)).
Proof.
  split.
  - intros H. unfold train_targets. now rewrite H.
  - intros labels H. unfold train_targets, dropna_subset. rewrite H.
    rewrite get_set_eq. cbn [bind]. rewrite get_col_select, get_set_eq.
    cbn [fmap option_fmap option_map].
    assert (M : (fun c => negb (cell_isna c)) <$> (map_target <$> labels)
                = known_label <$> labels).
    { rewrite <- list_fmap_compose. apply list_fmap_ext.
      intros i c _. apply target_map_known. }
    rewrite M, select_filter.
    eexists. eexists. split; [reflexivity|].
    split; [now rewrite length_fmap|]. split; [|split].
    + intros i c. rewrite list_lookup_fmap.
      destruct (List.filter known_label labels !! i) as [c0|] eqn:E;
        [|discriminate].
      intros [= <-].
      assert (K : known_label c0 = true).
      { apply list_elem_of_lookup_2, list_elem_of_In, filter_In in E.
        apply E. }
      destruct (target_decodes c0 K) as (z & s & Hz & Hs & ->).
      now exists z, s.
    + intros name Hin. rewrite get_col_drop_columns.
      now rewrite bool_decide_eq_true_2.
    + intros name Hout. rewrite get_col_drop_columns.
      rewrite bool_decide_eq_false_2 by exact Hout.
      rewrite get_col_select. rewrite get_set_ne; [reflexivity|].
      intros <-. apply Hout. compute_done.
Qed.

End Targets.
(** * Worked instances *)

Section Instances.

(** A batch with ages on both sides of each bound and a missing one, and
    account counts above, below and inside the allowed range. *)
Definition capping_batch : frame :=
  [("Age", [CNum (of_Z 17); CNum (of_Z 18); CNum (of_Z 100);
            CNum (of_Z 101); CNum NaN]);
   ("Num_Bank_Accounts", [CNum (of_Z 25); CNum (of_Z (-3)); CNum (of_Z 4)])].

Lemma capping_batch_numeric :
  numeric_or_absent capping_batch "Age"
  /\ numeric_or_absent capping_batch "Num_Bank_Accounts".
Proof.
  split.
  - exists [of_Z 17; of_Z 18; of_Z 100; of_Z 101; NaN]. reflexivity.
  - exists [of_Z 25; of_Z (-3); of_Z 4]. reflexivity.
Defined.

Lemma outlier_capper_transform_rows_witness :
  numeric_or_absent capping_batch "Age"
  /\ numeric_or_absent capping_batch "Num_Bank_Accounts"
  /\ exists Y,
       OutlierCapper.transform
         (OutlierCapper.set_median_age OutlierCapper.init (of_Z 35))
         capping_batch = Ok Y.
Proof.
  destruct capping_batch_numeric as [HA HB].
  split; [exact HA|]. split; [exact HB|].
  destruct (outlier_capper_transform_rows (of_Z 35) capping_batch HA HB)
    as (Y & HY & _).
  exists Y. exact HY.
Defined.

Lemma outlier_capper_fit_median_witness :
  numeric_or_absent capping_batch "Age"
  /\ exists c, OutlierCapper.fit OutlierCapper.init capping_batch = Ok c.
Proof.
  destruct capping_batch_numeric as [HA _]. split; [exact HA|].
  destruct (outlier_capper_fit_median capping_batch HA) as (c & Hc & _).
  exists c. exact Hc.
Defined.

(** A raw batch with a numeral buried in other characters. *)
Definition dirty_batch : frame :=
  [("Age", [CStr "23_"]); ("Annual_Income", [CStr "_-12.5_"])].

Lemma regex_cleaner_recovers_numeral_witness :
  exists Y col' q,
    RegexCleaner.transform {| RegexCleaner.columns := DIRTY_NUMERIC_COLS |}
      dirty_batch = Ok Y
    /\ get_col Y "Annual_Income" = Some col'
    /\ col' !! 0%nat = Some (CNum (Fin q))
    /\ (q == decimal_value true "12" (Some "5"))%Q.
Proof.
  apply (regex_cleaner_recovers_numeral DIRTY_NUMERIC_COLS dirty_batch
           "Annual_Income" [CStr "_-12.5_"] 0 (CStr "_-12.5_")
           true "12" (Some "5")).
  - compute_done.
  - compute_done.
  - reflexivity.
  - reflexivity.
  - exact (re_sub_interspersed "_-12.5_").
  - reflexivity.
  - reflexivity.
  - vm_compute. discriminate.
Defined.

Lemma regex_cleaner_never_raises_witness :
  exists Y,
    RegexCleaner.transform {| RegexCleaner.columns := DIRTY_NUMERIC_COLS |}
      dirty_batch = Ok Y
    /\ exists col',
         get_col Y "Age" = Some col' /\ length col' = 1%nat.
Proof.
  destruct (regex_cleaner_never_raises
              {| RegexCleaner.columns := DIRTY_NUMERIC_COLS |} dirty_batch)
    as (Y & HY & _ & Hrows).
  exists Y. split; [exact HY|].
  destruct (Hrows ltac:(compute_done) "Age" [CStr "23_"]
              ltac:(compute_done) eq_refl) as (col' & Hget & Hlen & _).
  exists col'. split; [exact Hget|exact Hlen].
Defined.

(** A fit batch with two engineers and a doctor without balance, and a
    batch to fill: an engineer, a doctor and a pilot without balance. *)
Definition balance_fit_batch : frame :=
  [("Monthly_Balance", [CNum (of_Z 300); CNum (of_Z 400); CNum NaN]);
   ("Occupation", [CStr "Engineer"; CStr "Engineer"; CStr "Doctor"])].

Definition balance_batch : frame :=
  [("Monthly_Balance", [CNum NaN; CNum NaN; CNum NaN; CNum (of_Z 5)]);
   ("Occupation",
    [CStr "Engineer"; CStr "Doctor"; CStr "Pilot"; CStr "Pilot"])].

Lemma imputer_transform_rows_witness :
  exists st col',
    MissingValueImputer.fit MissingValueImputer.init balance_fit_batch = Ok st
    /\ get_col (MissingValueImputer.transform st balance_batch)
         "Monthly_Balance" = Some col'.
Proof.
  destruct (imputer_transform_rows MissingValueImputer.init
              balance_fit_batch balance_batch
              [of_Z 300; of_Z 400; NaN]
              [CStr "Engineer"; CStr "Engineer"; CStr "Doctor"]
              [CNum NaN; CNum NaN; CNum NaN; CNum (of_Z 5)]
              [CStr "Engineer"; CStr "Doctor"; CStr "Pilot"; CStr "Pilot"]
              eq_refl eq_refl eq_refl eq_refl)
    as (st & col' & Hfit & _ & _ & Hget & _).
  exists st, col'. split; [exact Hfit|exact Hget].
Defined.

(** The example request of the serving contract, as the four inputs of
    the engineer. *)
Definition ratio_batch : frame :=
  [("Annual_Income", [CNum (of_Z 65000)]);
   ("Outstanding_Debt", [CNum (of_Z 800)]);
   ("Num_Credit_Card", [CNum (of_Z 3)]);
   ("Monthly_Inhand_Salary", [CNum (of_Z 4500)])].

Lemma feature_engineer_ratios_finite_witness :
  exists Y,
    FeatureEngineer.transform ratio_batch = Ok Y
    /\ cell_at Y "DTI_Ratio" 0 = Some (CNum (Fin (800 / (65000 + 1))))
    /\ cell_at Y "Utilization_Proxy" 0
       = Some (CNum (Fin (800 / (3 * 5000 + 1))))
    /\ cell_at Y "Income_Stability" 0
       = Some (CNum (Fin (Qabs (65000 + - (4500 * 12)) / (65000 + 1)))).
Proof.
  eexists. split; [vm_compute; reflexivity|].
  match goal with
  | |- cell_at ?Y _ _ = _ /\ _ =>
      destruct (feature_engineer_ratios_finite ratio_batch Y 0 eq_refl)
        as (D & U & S)
  end.
  split; [|split].
  - apply (D 800%Q 65000%Q eq_refl eq_refl). discriminate.
  - apply (U 800%Q 3%Q eq_refl eq_refl). discriminate.
  - apply (S 65000%Q 4500%Q eq_refl eq_refl). discriminate.
Defined.

(** The raw applicant with a credit-limit change of 0.5: every value the
    chain returns is written in fixed notation, reads back unchanged, and a
    second run returns the same batch. *)
Definition plain_batch : frame :=
  [("Age", [CStr "34"]);
   ("Occupation", [CStr "Engineer"]);
   ("Annual_Income", [CStr "65000.0"]);
   ("Changed_Credit_Limit", [CStr "0.5_"]);
   ("Monthly_Balance", [CStr "__"])].

Lemma chain_rerun_keeps_plain_values :
  exists p Y,
    chain_fit new_chain training_batch = Ok p
    /\ chain_transform p plain_batch = Ok Y
    /\ reads_back Y
    /\ chain_transform p Y = Ok Y.
Proof.
  eexists. eexists.
  split; [vm_compute; reflexivity|].
  split; [vm_compute; reflexivity|].
  split.
  - intros name col Hin Hcol. unfold DIRTY_NUMERIC_COLS in Hin.
    repeat (apply elem_of_cons in Hin as [->|Hin]);
      try (inversion Hin);
      vm_compute in Hcol; try discriminate Hcol;
      injection Hcol as <-; repeat constructor.
  - vm_compute. reflexivity.
Qed.

(** A batch whose second age is a text. *)
Definition text_age_batch : frame :=
  [("Age", [CNum (of_Z 30); CStr "old"])].

Lemma outlier_capper_rejects_text_witness :
  OutlierCapper.transform OutlierCapper.init text_age_batch = Raise TypeError
  /\ OutlierCapper.fit OutlierCapper.init text_age_batch = Raise TypeError.
Proof.
  destruct (outlier_capper_rejects_text OutlierCapper.init text_age_batch
              [CNum (of_Z 30); CStr "old"] "old") as [H _].
  - apply list_elem_of_further, list_elem_of_here.
  - exact (H eq_refl).
Defined.

Lemma outlier_capper_fit_learns_witness :
  exists m, m = of_Z 30 \/ between 18 100 m.
Proof.
  destruct (outlier_capper_fit_learns (of_Z 30) capping_batch _ eq_refl)
    as (m & _ & Hm & _).
  exists m. exact Hm.
Defined.

Lemma outlier_capper_output_bounded_witness :
  exists self Y,
    OutlierCapper.fit OutlierCapper.init capping_batch = Ok self
    /\ OutlierCapper.transform self capping_batch = Ok Y
    /\ forall i c, cell_at Y "Age" i = Some c ->
         c = CNum NaN \/ exists q, c = CNum (Fin q) /\ (18 <= q <= 100)%Q.
Proof.
  eexists. eexists.
  split; [vm_compute; reflexivity|].
  split; [vm_compute; reflexivity|].
  exact (proj1 (outlier_capper_output_bounded capping_batch capping_batch
                  _ _ eq_refl eq_refl)).
Defined.

Lemma outlier_capper_idempotent_witness :
  exists Y,
    OutlierCapper.transform
      (OutlierCapper.set_median_age OutlierCapper.init (of_Z 35))
      capping_batch = Ok Y
    /\ OutlierCapper.transform
         (OutlierCapper.set_median_age OutlierCapper.init (of_Z 35)) Y = Ok Y.
Proof.
  eexists. split; [vm_compute; reflexivity|].
  exact (proj1 (outlier_capper_idempotent (of_Z 35) capping_batch _ eq_refl)).
Defined.

Lemma imputer_fit_dictionary_witness :
  exists st,
    MissingValueImputer.fit MissingValueImputer.init balance_fit_batch = Ok st
    /\ MissingValueImputer.global_median st
       = median [of_Z 300; of_Z 400; NaN].
Proof.
  destruct (imputer_fit_dictionary MissingValueImputer.init balance_fit_batch
              [of_Z 300; of_Z 400; NaN]
              [CStr "Engineer"; CStr "Engineer"; CStr "Doctor"]
              eq_refl eq_refl) as (st & Hfit & Hg & _).
  exists st. split; [exact Hfit|exact Hg].
Defined.

Lemma imputer_unfitted_fills_zero_witness :
  MissingValueImputer.fit MissingValueImputer.init capping_batch
  = Ok MissingValueImputer.init.
Proof.
  exact (proj1 (imputer_unfitted_fills_zero capping_batch balance_batch
                  [CNum NaN; CNum NaN; CNum NaN; CNum (of_Z 5)]
                  [CStr "Engineer"; CStr "Doctor"; CStr "Pilot"; CStr "Pilot"]
                  (or_introl eq_refl) eq_refl eq_refl)).
Defined.

Lemma feature_engineer_ratio_ranges_witness :
  exists Y r,
    FeatureEngineer.transform ratio_batch = Ok Y
    /\ cell_at Y "DTI_Ratio" 0 = Some (CNum (Fin r))
    /\ (0 <= r)%Q /\ (r <= 800)%Q.
Proof.
  eexists.
  match goal with
  | |- exists r, FeatureEngineer.transform _ = Ok ?Y /\ _ =>
      assert (E : FeatureEngineer.transform ratio_batch = Ok Y)
        by (vm_compute; reflexivity);
      destruct (proj1 (feature_engineer_ratio_ranges ratio_batch Y 0 E)
                  800%Q 65000%Q eq_refl eq_refl
                  ltac:(discriminate) ltac:(discriminate))
        as (r & Hc & H0 & H1)
  end.
  exists r. split; [assumption|]. split; [exact Hc|]. split; assumption.
Defined.

(** An applicant with a debt of 800 and an annual income of -1. *)
Definition minus_one_income_batch : frame :=
  [("Annual_Income", [CNum (of_Z (-1))]);
   ("Outstanding_Debt", [CNum (of_Z 800)])].

Lemma feature_engineer_income_minus_one_witness :
  exists Y,
    FeatureEngineer.transform minus_one_income_batch = Ok Y
    /\ cell_at Y "DTI_Ratio" 0 = Some (CNum PInf).
Proof.
  eexists. split; [vm_compute; reflexivity|].
  refine (proj1 (proj1 (feature_engineer_income_minus_one
                          minus_one_income_batch _ 0 800%Q (-1)%Q
                          eq_refl eq_refl eq_refl) _) _);
    reflexivity.
Defined.

Lemma chain_transform_output_witness :
  exists p,
    chain_fit new_chain training_batch = Ok p
    /\ exists Y,
         chain_transform p plain_batch = Ok Y
         /\ forall n, n_rows n plain_batch -> n_rows n Y.
Proof.
  eexists. split; [vm_compute; reflexivity|].
  destruct (chain_transform_output training_batch plain_batch _ eq_refl)
    as (Y & HY & Hrows & _).
  exists Y. split; [exact HY|exact Hrows].
Defined.

Lemma chain_transform_row_by_row_witness :
  exists p,
    chain_fit new_chain training_batch = Ok p
    /\ exists Y,
         chain_transform p training_batch = Ok Y
         /\ chain_transform p (rows 1 1 training_batch) = Ok (rows 1 1 Y).
Proof.
  eexists. split; [vm_compute; reflexivity|].
  exact (chain_transform_row_by_row training_batch training_batch _ 1 1
           eq_refl).
Defined.

Lemma fitted_chain_rerun_witness :
  exists p,
    chain_fit new_chain training_batch = Ok p
    /\ exists Y,
         chain_transform p plain_batch = Ok Y
         /\ (reads_back Y -> chain_transform p Y = Ok Y).
Proof.
  eexists. split; [vm_compute; reflexivity|].
  exact (fitted_chain_rerun training_batch plain_batch _ eq_refl).
Defined.

(** The example request of the serving contract, and a loaded artifact
    that answers every request with the class 1. *)
Definition example_application : App.CreditApplication :=
  {| App.Age := of_Z 34;
     App.Occupation := "Engineer";
     App.Annual_Income := of_Z 65000;
     App.Monthly_Inhand_Salary := of_Z 4500;
     App.Num_Bank_Accounts := 4;
     App.Num_Credit_Card := 3;
     App.Interest_Rate := 15;
     App.Num_of_Loan := 2;
     App.Delay_from_due_date := 5;
     App.Num_of_Delayed_Payment := 1;
     App.Changed_Credit_Limit := of_Z 1200;
     App.Num_Credit_Inquiries := 4;
     App.Credit_Mix := "Good";
     App.Outstanding_Debt := of_Z 800;
     App.Credit_Utilization_Ratio := of_Z 30;
     App.Payment_of_Min_Amount := "No";
     App.Total_EMI_per_month := of_Z 150;
     App.Amount_invested_monthly := of_Z 80;
     App.Payment_Behaviour := "High_spent_Small_value_payments";
     App.Monthly_Balance := of_Z 350 |}.

Definition standard_pipeline : App.Pipeline :=
  {| App.n_steps := 6;
     App.pipeline_predict := fun _ => Ok [1];
     App.pipeline_predict_proba :=
       fun _ => Ok [[Fin (12345 # 100000); Fin (7 # 10);
                     Fin (17655 # 100000)]] |}.

Lemma predict_response_consistent_witness :
  exists r,
    App.predict (Some standard_pipeline) example_application = Ok r
    /\ App.credit_score r = "Standard" /\ App.risk_level r = "Medium".
Proof.
  eexists. split; [vm_compute; reflexivity|].
  destruct (predict_response_consistent (Some standard_pipeline)
              example_application _ eq_refl)
    as (p & idx & rest & p0 & p1 & p2 & more & others
        & Hp & Hpred & _ & Hcase & _).
  injection Hp as <-. injection Hpred as <- _.
  destruct Hcase as [(E & _)|[(_ & Hs & Hr)|(E & _)]];
    [discriminate E|split; [exact Hs|exact Hr]|discriminate E].
Defined.

End Instances.
